(** * docker-image-version-matrix-action: version discovery, selection and
      matrix expansion

    A shallow embedding of the TypeScript sources

      - [src/docker-registry.ts]  (tag source client, tag classification,
                                   latest tag),
      - [src/version-filter.ts]   (selection strategies, range rewriting),
      - [src/config.ts]           (configuration validation),
      - [src/main.ts]             (orchestration, matrix builder),

    together with models of the JavaScript built-ins and of the [semver]
    package functions these sources call.  Strings are [string] (a string
    of 8-bit code units, which covers the ASCII alphabet of Docker tag
    names and range expressions), integers are [Z], objects used as maps
    are [gmap string string], thrown errors are the [Err] branch of
    [result]. *)

From Stdlib Require Import ZArith NArith Lia Bool Ascii String.
From Stdlib Require Import DecimalString DecimalN DecimalFacts.
From stdpp Require Import base strings list gmap.

Local Open Scope Z_scope.

(** ** Thrown errors *)

Inductive result (A : Type) : Type :=
| Ok (a : A)
| Err (message : string).
Arguments Ok {A} a.
Arguments Err {A} message.

(** ** JavaScript string built-ins *)

Module JsString.

(** [s.startsWith(p)] *)
Fixpoint startsWith (s p : string) {struct p} : bool :=
  match p with
  | EmptyString => true
  | String a p' =>
      match s with
      | EmptyString => false
      | String b s' => Ascii.eqb a b && startsWith s' p'
      end
  end.

(** [s.slice(n)] for [0 <= n] *)
Fixpoint slice_from (n : nat) (s : string) : string :=
  match n, s with
  | O, _ => s
  | S _, EmptyString => EmptyString
  | S n', String _ s' => slice_from n' s'
  end.

(** [s.slice(0, n)] for [0 <= n] *)
Fixpoint slice_to (n : nat) (s : string) : string :=
  match n, s with
  | O, _ => EmptyString
  | S _, EmptyString => EmptyString
  | S n', String c s' => String c (slice_to n' s')
  end.

(** [s.includes(c)] for a one-character needle *)
Fixpoint includes_char (c : ascii) (s : string) : bool :=
  match s with
  | EmptyString => false
  | String a s' => Ascii.eqb a c || includes_char c s'
  end.

(** Number of occurrences of a character. *)
Fixpoint count_char (c : ascii) (s : string) : nat :=
  match s with
  | EmptyString => O
  | String a s' => ((if Ascii.eqb a c then 1 else 0) + count_char c s')%nat
  end.

(** [s.split(sep)] for a non-empty separator string: the text is scanned
    from the left, every occurrence of [sep] closes the current segment,
    and occurrences do not overlap.  [split_aux] returns the segment being
    read and the segments that follow it; [skip] counts the characters of
    a separator occurrence still to be passed over. *)
Fixpoint split_aux (sep : string) (skip : nat) (s : string)
  : string * list string :=
  match s with
  | EmptyString => (EmptyString, [])
  | String c s' =>
      match skip with
      | S k => split_aux sep k s'
      | O =>
          if startsWith s sep
          then (EmptyString,
                let '(seg, rest) := split_aux sep (String.length sep - 1) s'
                in seg :: rest)
          else let '(seg, rest) := split_aux sep 0 s'
               in (String c seg, rest)
      end
  end.

Definition split (sep : string) (s : string) : list string :=
  let '(seg, rest) := split_aux sep 0 s in seg :: rest.

(** [parts.join(sep)] *)
Fixpoint join (sep : string) (parts : list string) : string :=
  match parts with
  | [] => EmptyString
  | [p] => p
  | p :: rest => p +:+ sep +:+ join sep rest
  end.

(** White space removed by [trim], restricted to the ASCII range:
    TAB, LF, VT, FF, CR and SPACE. *)
Definition is_white_space (c : ascii) : bool :=
  let n := nat_of_ascii c in
  ((9 <=? n)%nat && (n <=? 13)%nat) || (n =? 32)%nat.

Fixpoint trimStart (s : string) : string :=
  match s with
  | EmptyString => EmptyString
  | String c s' => if is_white_space c then trimStart s' else s
  end.

Fixpoint trimEnd (s : string) : string :=
  match s with
  | EmptyString => EmptyString
  | String c s' =>
      match trimEnd s' with
      | EmptyString => if is_white_space c then EmptyString
                       else String c EmptyString
      | r => String c r
      end
  end.

(** [s.trim()] *)
Definition trim (s : string) : string := trimEnd (trimStart s).

(** First occurrence of [pat] in [s]: the text before it and the text
    after it. *)
Fixpoint find_first (pat s : string) : option (string * string) :=
  if startsWith s pat then Some (EmptyString, slice_from (String.length pat) s)
  else match s with
       | EmptyString => None
       | String c s' =>
           match find_first pat s' with
           | Some (before, after) => Some (String c before, after)
           | None => None
           end
       end.

(** [GetSubstitution] of ECMAScript for a string pattern (no capture
    groups, no named groups): in the replacement text, [$$] stands for a
    dollar sign, [$&] for the matched text, [$`] for the text before the
    match and [$'] for the text after it; every other character,
    including a dollar sign followed by anything else, is literal. *)
Fixpoint getSubstitution (matched before after template : string) : string :=
  match template with
  | EmptyString => EmptyString
  | String c r =>
      if Ascii.eqb c "$" then
        match r with
        | EmptyString => String c EmptyString
        | String d r' =>
            if Ascii.eqb d "$" then
              String "$" (getSubstitution matched before after r')
            else if Ascii.eqb d "&" then
              matched +:+ getSubstitution matched before after r'
            else if Ascii.eqb d "`" then
              before +:+ getSubstitution matched before after r'
            else if Ascii.eqb d "'" then
              after +:+ getSubstitution matched before after r'
            else String c (getSubstitution matched before after r)
        end
      else String c (getSubstitution matched before after r)
  end.

(** [s.replace(pat, replacement)] with a string pattern: only the first
    occurrence of [pat] is replaced. *)
Definition replace (s pat replacement : string) : string :=
  match find_first pat s with
  | None => s
  | Some (before, after) =>
      before +:+ getSubstitution pat before after replacement +:+ after
  end.

(** [x || d] on an optional string: [undefined] and the empty string are
    falsy. *)
Definition or_default (x : option string) (d : string) : string :=
  match x with
  | Some EmptyString | None => d
  | Some s => s
  end.

(** [!x] on an optional string. *)
Definition falsy (x : option string) : bool :=
  match x with
  | Some EmptyString | None => true
  | Some _ => false
  end.

End JsString.

(** ** Regular expressions

    The fragment of JavaScript regular expressions used by the sources and
    by [semver]: anchors, character classes, sequence, alternation, greedy
    bounded or unbounded repetition of a class, and capture groups.  The
    matcher is the usual backtracking one, in continuation-passing style:
    alternatives are tried left to right and a repetition first takes as
    many characters as it may. *)

Module Regex.

Inductive regex : Type :=
| Empty
| Bol                                              (* ^ *)
| Eol                                              (* $ *)
| Class (p : ascii → bool)                         (* one character *)
| Seq (r1 r2 : regex)
| Alt (r1 r2 : regex)                              (* r1|r2 *)
| Repeat (p : ascii → bool) (lo : nat) (hi : option nat)  (* c{lo,hi} *)
| Group (i : nat) (r : regex).                     (* i-th capture *)

Definition captures := list (nat * string).

Fixpoint capture (i : nat) (cs : captures) : option string :=
  match cs with
  | [] => None
  | (j, s) :: cs' => if (i =? j)%nat then Some s else capture i cs'
  end.

(** Greedy repetition of a character class. *)
Fixpoint repeat_class {R} (p : ascii → bool) (lo : nat) (hi : option nat)
    (pos : nat) (s : string) (k : nat → string → option R) : option R :=
  let stop := match lo with O => k pos s | S _ => None end in
  let more := match hi with Some O => false | _ => true end in
  match s with
  | EmptyString => stop
  | String c s' =>
      if p c && more then
        match repeat_class p (Nat.pred lo) (Nat.pred <$> hi) (S pos) s' k with
        | Some x => Some x
        | None => stop
        end
      else stop
  end.

(** [rmatch r pos s cs k]: match [r] at offset [pos] of the input, [s]
    being the input from that offset on, and continue with [k]. *)
Fixpoint rmatch {R} (r : regex) (pos : nat) (s : string) (cs : captures)
    (k : nat → string → captures → option R) : option R :=
  match r with
  | Empty => k pos s cs
  | Bol => if (pos =? 0)%nat then k pos s cs else None
  | Eol => match s with EmptyString => k pos s cs | String _ _ => None end
  | Class p =>
      match s with
      | EmptyString => None
      | String c s' => if p c then k (S pos) s' cs else None
      end
  | Seq r1 r2 =>
      rmatch r1 pos s cs (λ pos' s' cs', rmatch r2 pos' s' cs' k)
  | Alt r1 r2 =>
      match rmatch r1 pos s cs k with
      | Some x => Some x
      | None => rmatch r2 pos s cs k
      end
  | Repeat p lo hi =>
      repeat_class p lo hi pos s (λ pos' s', k pos' s' cs)
  | Group i r' =>
      rmatch r' pos s cs
        (λ pos' s' cs', k pos' s' ((i, JsString.slice_to (pos' - pos) s) :: cs'))
  end.

(** Leftmost match, searched from offset [pos] on. *)
Fixpoint search (r : regex) (pos : nat) (s : string) : option captures :=
  match rmatch r pos s [] (λ _ _ cs, Some cs) with
  | Some cs => Some cs
  | None =>
      match s with
      | EmptyString => None
      | String _ s' => search r (S pos) s'
      end
  end.

(** [s.match(r)] without the [g] flag: the captures of the leftmost
    match. *)
Definition exec (r : regex) (s : string) : option captures := search r 0 s.

(** [r.test(s)] *)
Definition test (r : regex) (s : string) : bool :=
  match exec r s with Some _ => true | None => false end.

(** Derived forms. *)
Definition chr (c : ascii) : regex := Class (Ascii.eqb c).
Definition opt (r : regex) : regex := Alt r Empty.          (* r? *)
Definition plus (p : ascii → bool) : regex := Repeat p 1 None.  (* c+ *)
Definition seq (rs : list regex) : regex := foldr Seq Empty rs.

(** [\d] *)
Definition digit (c : ascii) : bool :=
  let n := nat_of_ascii c in (48 <=? n)%nat && (n <=? 57)%nat.

(** [[^\d]] *)
Definition non_digit (c : ascii) : bool := negb (digit c).

Definition letter (c : ascii) : bool :=
  let n := nat_of_ascii c in
  ((65 <=? n)%nat && (n <=? 90)%nat) || ((97 <=? n)%nat && (n <=? 122)%nat).

(** [\w] *)
Definition word (c : ascii) : bool :=
  letter c || digit c || Ascii.eqb c "_".

End Regex.

(** ** Data model ([src/types.ts]) *)

Record DockerTag : Type := {
  name : string;
  lastUpdated : option string
}.

Record BuildConfig : Type := {
  build_name : option string;
  build_dockerfilePath : option string;
  build_contextPath : option string;
  build_buildArgs : option (gmap string string);
  build_tags : option (list string)
}.

Record BaseImageVersionerConfig : Type := {
  strategy : option string;
  semverRange : option string;
  maxVersions : option Z;
  builds : option (list BuildConfig)
}.

Record MatrixEntry : Type := {
  entry_version : string;
  entry_name : string;
  entry_dockerfilePath : string;
  entry_contextPath : string;
  entry_buildArgs : gmap string string;
  entry_tags : list string
}.

(** ** Tag classification ([src/docker-registry.ts]) *)

(** [/^v?\d+(\.\d+)?(\.\d+)?(-[\w.]+)?$/] *)
Definition semverRegex : Regex.regex :=
  Regex.seq
    [ Regex.Bol;
      Regex.opt (Regex.chr "v");
      Regex.plus Regex.digit;
      Regex.opt (Regex.Group 1 (Regex.seq [Regex.chr "."; Regex.plus Regex.digit]));
      Regex.opt (Regex.Group 2 (Regex.seq [Regex.chr "."; Regex.plus Regex.digit]));
      Regex.opt (Regex.Group 3
        (Regex.seq [Regex.chr "-";
                    Regex.plus (λ c, Regex.word c || Ascii.eqb c ".")]));
      Regex.Eol ].

(** The predicate of the [filter] call in [filterSemanticVersionTags]. *)
Definition isSemanticVersionName (tagName : string) : bool :=
  let cleaned := default EmptyString (head (JsString.split "-" tagName)) in
  Regex.test semverRegex cleaned || Regex.test semverRegex tagName.

Definition filterSemanticVersionTags (tags : list DockerTag) : list DockerTag :=
  List.filter (λ tag, isSemanticVersionName (name tag)) tags.

(** ** The [semver] package

    A model of the functions of the npm package [semver] that the sources
    call: [coerce], [valid] and [satisfies], following the package's
    documented grammar (strict mode, default options).  Range expressions
    are modelled for the fragment made of [||]-separated sets of
    space-separated comparators, each a caret range, a tilde range, or an
    optional operator followed by a possibly partial version.  The package
    reads more than that: hyphen ranges ([1.0.0 - 2.0.0]), an operator
    detached from its version by white space ([>= 1.2]), a [v] or [=] in
    front of a partial version ([^v1]), the tilde written [~>], and
    prerelease or build parts inside a range.  These are not modelled:
    [parseRange] gives [None] for them, as for the ranges the package
    refuses.  So a [Some] of [parseRange] is the reading of the package,
    whereas a [None] is a refusal of the package only for a range of the
    fragment, and [satisfies] is the package's function on the fragment.
    The fragment is delimited by [plain_range] below; the statements that
    depend on a range being refused carry it as a hypothesis, and the
    others are about ranges that are read. *)

Module Semver.

Definition MAX_LENGTH : nat := 256.
Definition MAX_SAFE_INTEGER : N := 9007199254740991.
Definition MAX_SAFE_COMPONENT_LENGTH : nat := 16.

Record SemVer : Type := {
  major : N;
  minor : N;
  patch : N;
  prerelease : list string
}.

(** [String(n)] for a non-negative integer. *)
Definition string_of_N (n : N) : string :=
  NilZero.string_of_uint (N.to_uint n).

(** [+s] for a string of decimal digits. *)
Definition N_of_string (s : string) : option N :=
  N.of_uint <$> NilZero.uint_of_string s.

Fixpoint all_chars (p : ascii → bool) (s : string) : bool :=
  match s with
  | EmptyString => true
  | String c s' => p c && all_chars p s'
  end.

Fixpoint any_char (p : ascii → bool) (s : string) : bool :=
  match s with
  | EmptyString => false
  | String c s' => p c || any_char p s'
  end.

Definition non_empty (s : string) : bool :=
  match s with EmptyString => false | String _ _ => true end.

(** [0|[1-9]\d*] *)
Definition numeric_identifier (s : string) : bool :=
  match s with
  | EmptyString => false
  | String c s' =>
      Regex.digit c && all_chars Regex.digit s'
      && (negb (Ascii.eqb c "0") || negb (non_empty s'))
  end.

(** [[a-zA-Z0-9-]] *)
Definition letter_dash_number (c : ascii) : bool :=
  Regex.letter c || Regex.digit c || Ascii.eqb c "-".

(** [\d*[a-zA-Z-][a-zA-Z0-9-]*] *)
Definition non_numeric_identifier (s : string) : bool :=
  all_chars letter_dash_number s
  && any_char (λ c, Regex.letter c || Ascii.eqb c "-") s.

Definition prerelease_identifier (s : string) : bool :=
  numeric_identifier s || non_numeric_identifier s.

(** [[a-zA-Z0-9-]+] *)
Definition build_identifier (s : string) : bool :=
  non_empty s && all_chars letter_dash_number s.

(** Text before the first occurrence of [c], and the text after it when
    [c] occurs. *)
Fixpoint cut (c : ascii) (s : string) : string * option string :=
  match s with
  | EmptyString => (EmptyString, None)
  | String a s' =>
      if Ascii.eqb a c then (EmptyString, Some s')
      else let '(l, r) := cut c s' in (String a l, r)
  end.

(** A numeric component: a numeric identifier not above
    [MAX_SAFE_INTEGER]. *)
Definition component (s : string) : option N :=
  if numeric_identifier s then
    match N_of_string s with
    | Some n => if (n <=? MAX_SAFE_INTEGER)%N then Some n else None
    | None => None
    end
  else None.

(** [parse(version)]: the strict grammar
    [v?MAJOR.MINOR.PATCH(-PRERELEASE)?(+BUILD)?] on the trimmed text;
    [None] stands for [null]. *)
Definition parse (version : string) : option SemVer :=
  if (MAX_LENGTH <? String.length version)%nat then None else
  let s := JsString.trim version in
  let s := if JsString.startsWith s "v" then JsString.slice_from 1 s else s in
  let '(s, build) := cut "+" s in
  let '(main, pre) := cut "-" s in
  let build_ok :=
    match build with
    | None => true
    | Some b => forallb build_identifier (JsString.split "." b)
    end in
  let pre_ids :=
    match pre with
    | None => Some []
    | Some p =>
        let ids := JsString.split "." p in
        if forallb prerelease_identifier ids then Some ids else None
    end in
  match JsString.split "." main, pre_ids with
  | [a; b; c], Some ids =>
      match component a, component b, component c with
      | Some M, Some m, Some p =>
          if build_ok
          then Some {| major := M; minor := m; patch := p; prerelease := ids |}
          else None
      | _, _, _ => None
      end
  | _, _ => None
  end.

(** [SemVer.format()], the value of the [version] property. *)
Definition format (v : SemVer) : string :=
  string_of_N (major v) +:+ "." +:+ string_of_N (minor v) +:+ "."
    +:+ string_of_N (patch v)
    +:+ match prerelease v with
        | [] => EmptyString
        | ids => "-" +:+ JsString.join "." ids
        end.

(** [valid(version)]: the normalized text of a valid version. *)
Definition valid (version : string) : option string :=
  format <$> parse version.

(** The pattern used by [coerce],
    [(^|[^\d])(\d{1,16})(?:\.(\d{1,16}))?(?:\.(\d{1,16}))?(?:$|[^\d])]. *)
Definition COERCE : Regex.regex :=
  let num := Regex.Repeat Regex.digit 1 (Some MAX_SAFE_COMPONENT_LENGTH) in
  Regex.seq
    [ Regex.Group 1 (Regex.Alt Regex.Bol (Regex.Class Regex.non_digit));
      Regex.Group 2 num;
      Regex.opt (Regex.seq [Regex.chr "."; Regex.Group 3 num]);
      Regex.opt (Regex.seq [Regex.chr "."; Regex.Group 4 num]);
      Regex.Alt Regex.Eol (Regex.Class Regex.non_digit) ].

(** [coerce(version)] with default options: the first run of one to three
    dot-separated numbers, missing ones read as zero; prerelease and build
    parts are not kept. *)
Definition coerce (version : string) : option SemVer :=
  match Regex.exec COERCE version with
  | None => None
  | Some m =>
      match Regex.capture 2 m with
      | None => None
      | Some M =>
          let mi := default "0" (Regex.capture 3 m) in
          let pa := default "0" (Regex.capture 4 m) in
          parse (M +:+ "." +:+ mi +:+ "." +:+ pa)
      end
  end.

(** *** Precedence *)

Definition is_numeric (s : string) : bool :=
  non_empty s && all_chars Regex.digit s.

(** [compareIdentifiers(a, b)]: numbers by value, a number before a
    word, words by code units. *)
Definition compareIdentifiers (a b : string) : comparison :=
  match is_numeric a, is_numeric b with
  | true, true =>
      match N_of_string a, N_of_string b with
      | Some x, Some y => (x ?= y)%N
      | _, _ => Eq
      end
  | true, false => Lt
  | false, true => Gt
  | false, false => String.compare a b
  end.

(** The loop of [comparePre] once neither side is empty. *)
Fixpoint comparePreLoop (a b : list string) : comparison :=
  match a, b with
  | [], [] => Eq
  | _ :: _, [] => Gt
  | [], _ :: _ => Lt
  | x :: a', y :: b' =>
      if String.eqb x y then comparePreLoop a' b' else compareIdentifiers x y
  end.

Definition comparePre (a b : SemVer) : comparison :=
  match prerelease a, prerelease b with
  | [], [] => Eq
  | _ :: _, [] => Lt
  | [], _ :: _ => Gt
  | pa, pb => comparePreLoop pa pb
  end.

Definition compareMain (a b : SemVer) : comparison :=
  match (major a ?= major b)%N with
  | Eq => match (minor a ?= minor b)%N with
          | Eq => (patch a ?= patch b)%N
          | c => c
          end
  | c => c
  end.

Definition compare (a b : SemVer) : comparison :=
  match compareMain a b with
  | Eq => comparePre a b
  | c => c
  end.

(** *** Comparators *)

Inductive operator : Type := OpLt | OpLe | OpGt | OpGe | OpEq.

Inductive comparator : Type :=
| Any
| Cmp (op : operator) (v : SemVer).

(** [Comparator.test(version)] *)
Definition comparator_test (c : comparator) (v : SemVer) : bool :=
  match c with
  | Any => true
  | Cmp op w =>
      match op, compare v w with
      | OpLt, Lt | OpLe, Lt | OpLe, Eq
      | OpGt, Gt | OpGe, Gt | OpGe, Eq | OpEq, Eq => true
      | _, _ => false
      end
  end.

(** [testSet(set, version)] with default options: every comparator holds,
    and a version with a prerelease part is only admitted by a comparator
    that carries a prerelease on the same [MAJOR.MINOR.PATCH]. *)
Definition testSet (set : list comparator) (v : SemVer) : bool :=
  forallb (λ c, comparator_test c v) set
  && match prerelease v with
     | [] => true
     | _ :: _ =>
         existsb (λ c,
           match c with
           | Any => false
           | Cmp _ w =>
               match prerelease w with
               | [] => false
               | _ :: _ =>
                   (major w =? major v)%N && (minor w =? minor v)%N
                   && (patch w =? patch v)%N
               end
           end) set
     end.

(** *** Range expressions *)

(** A comparator on [M.m.p], or on [M.m.p-0] when [zero] is set; [None]
    when a number is above [MAX_SAFE_INTEGER]. *)
Definition mk (op : operator) (M m p : N) (zero : bool) : option comparator :=
  if ((M <=? MAX_SAFE_INTEGER) && (m <=? MAX_SAFE_INTEGER)
      && (p <=? MAX_SAFE_INTEGER))%N
  then Some (Cmp op {| major := M; minor := m; patch := p;
                       prerelease := if zero then ["0"] else [] |})
  else None.

Definition both (a b : option comparator) : option (list comparator) :=
  match a, b with
  | Some x, Some y => Some [x; y]
  | _, _ => None
  end.

Definition one (a : option comparator) : option (list comparator) :=
  (λ x, [x]) <$> a.

(** [isX(id)] for a component that is written.  A written component is
    never empty, since it matches [XRANGEIDENTIFIER]; the test [!id] of
    the package is for a component that is not written, which [partial]
    gives as [None]. *)
Definition isX (id : string) : bool :=
  String.eqb id "x" || String.eqb id "X" || String.eqb id "*".

(** One component of a partial version, [XRANGEIDENTIFIER]
    ([0|[1-9]\d*|x|X|\*]): [Some None] for a wildcard, [Some (Some n)]
    for a number, whose size is checked where it is used, in [mk]; [None]
    for any other text, the empty one included. *)
Definition partial_component (id : string) : option (option N) :=
  if isX id then Some None
  else if numeric_identifier id then Some <$> N_of_string id
  else None.

(** A partial version [M], [M.m] or [M.m.p], each component a number or
    a wildcard; a missing component is a wildcard. *)
Definition partial (s : string) : option (option N * option N * option N) :=
  match JsString.split "." s with
  | [a] =>
      M ← partial_component a; Some (M, None, None)
  | [a; b] =>
      M ← partial_component a; m ← partial_component b; Some (M, m, None)
  | [a; b; c] =>
      M ← partial_component a; m ← partial_component b;
      p ← partial_component c; Some (M, m, p)
  | _ => None
  end.

(** [replaceCaret] *)
Definition caret (v : option N * option N * option N)
  : option (list comparator) :=
  match v with
  | (None, _, _) => Some [Any]
  | (Some M, None, _) =>
      both (mk OpGe M 0 0 false) (mk OpLt (M + 1) 0 0 true)
  | (Some M, Some m, None) =>
      if (M =? 0)%N
      then both (mk OpGe M m 0 false) (mk OpLt M (m + 1) 0 true)
      else both (mk OpGe M m 0 false) (mk OpLt (M + 1) 0 0 true)
  | (Some M, Some m, Some p) =>
      if (M =? 0)%N then
        if (m =? 0)%N
        then both (mk OpGe M m p false) (mk OpLt M m (p + 1) true)
        else both (mk OpGe M m p false) (mk OpLt M (m + 1) 0 true)
      else both (mk OpGe M m p false) (mk OpLt (M + 1) 0 0 true)
  end%N.

(** [replaceTilde] *)
Definition tilde (v : option N * option N * option N)
  : option (list comparator) :=
  match v with
  | (None, _, _) => Some [Any]
  | (Some M, None, _) =>
      both (mk OpGe M 0 0 false) (mk OpLt (M + 1) 0 0 true)
  | (Some M, Some m, None) =>
      both (mk OpGe M m 0 false) (mk OpLt M (m + 1) 0 true)
  | (Some M, Some m, Some p) =>
      both (mk OpGe M m p false) (mk OpLt M (m + 1) 0 true)
  end%N.

(** [replaceXRange] followed by [Comparator]: [op] is the operator
    written in front of the partial version, if any. *)
Definition xrange (op : option operator)
    (v : option N * option N * option N) : option (list comparator) :=
  match v with
  | (None, _, _) =>
      match op with
      | Some OpGt | Some OpLt => one (mk OpLt 0 0 0 true)
      | _ => Some [Any]
      end
  | (Some M, Some m, Some p) => one (mk (default OpEq op) M m p false)
  | (Some M, om, _) =>
      match op with
      | None | Some OpEq =>
          match om with
          | None => both (mk OpGe M 0 0 false) (mk OpLt (M + 1) 0 0 true)
          | Some m => both (mk OpGe M m 0 false) (mk OpLt M (m + 1) 0 true)
          end
      | Some OpGt =>
          match om with
          | None => one (mk OpGe (M + 1) 0 0 false)
          | Some m => one (mk OpGe M (m + 1) 0 false)
          end
      | Some OpLe =>
          match om with
          | None => one (mk OpLt (M + 1) 0 0 true)
          | Some m => one (mk OpLt M (m + 1) 0 true)
          end
      | Some OpLt => one (mk OpLt M (default 0 om) 0 true)
      | Some OpGe => one (mk OpGe M (default 0 om) 0 false)
      end
  end%N.

(** One space-free comparator of a range; the empty comparator admits
    every version. *)
Definition parseComparator (tok : string) : option (list comparator) :=
  if negb (non_empty tok) then Some [Any]
  else if JsString.startsWith tok "^" then
    partial (JsString.slice_from 1 tok) ≫= caret
  else if JsString.startsWith tok "~" then
    partial (JsString.slice_from 1 tok) ≫= tilde
  else if JsString.startsWith tok ">=" then
    partial (JsString.slice_from 2 tok) ≫= xrange (Some OpGe)
  else if JsString.startsWith tok "<=" then
    partial (JsString.slice_from 2 tok) ≫= xrange (Some OpLe)
  else if JsString.startsWith tok ">" then
    partial (JsString.slice_from 1 tok) ≫= xrange (Some OpGt)
  else if JsString.startsWith tok "<" then
    partial (JsString.slice_from 1 tok) ≫= xrange (Some OpLt)
  else if JsString.startsWith tok "=" then
    partial (JsString.slice_from 1 tok) ≫= xrange (Some OpEq)
  else partial tok ≫= xrange None.

(** The words of a text: maximal runs without white space. *)
Fixpoint words_aux (s : string) : string * list string :=
  match s with
  | EmptyString => (EmptyString, [])
  | String c s' =>
      let '(w, ws) := words_aux s' in
      if JsString.is_white_space c
      then (EmptyString, if non_empty w then w :: ws else ws)
      else (String c w, ws)
  end.

Definition words (s : string) : list string :=
  let '(w, ws) := words_aux s in if non_empty w then w :: ws else ws.

(** [Range.parseRange] on one [||]-branch: the comparators of all its
    words; a branch without words admits every version. *)
Fixpoint parseSetWords (ws : list string) : option (list comparator) :=
  match ws with
  | [] => Some []
  | w :: ws' =>
      cs ← parseComparator w; rest ← parseSetWords ws'; Some (cs ++ rest)
  end.

Definition parseSet (branch : string) : option (list comparator) :=
  match words branch with
  | [] => Some [Any]
  | ws => parseSetWords ws
  end.

Fixpoint parseSets (branches : list string)
  : option (list (list comparator)) :=
  match branches with
  | [] => Some []
  | b :: bs => set ← parseSet b; rest ← parseSets bs; Some (set :: rest)
  end.

(** [new Range(range)]: the comparator sets of the [||]-branches; [None]
    when the constructor throws. *)
Definition parseRange (range : string) : option (list (list comparator)) :=
  parseSets (JsString.trim <$> JsString.split "||" (JsString.trim range)).

(** [satisfies(version, range)]: an invalid version or range gives
    [false]; otherwise some branch of the range admits the version. *)
Definition satisfies (version range : string) : bool :=
  match parseRange range with
  | None => false
  | Some sets =>
      match parse version with
      | None => false
      | Some v => existsb (λ set, testSet set v) sets
      end
  end.

End Semver.

(** ** [Date] and [Array] built-ins *)

Module JsDate.

Definition is_leap (y : Z) : bool :=
  ((y mod 4 =? 0) && negb (y mod 100 =? 0)) || (y mod 400 =? 0).

Definition days_in_month (y m : Z) : Z :=
  if m =? 2 then (if is_leap y then 29 else 28)
  else if (m =? 4) || (m =? 6) || (m =? 9) || (m =? 11) then 30
  else 31.

(** Days between 1970-01-01 and the given civil date. *)
Definition days_from_civil (y m d : Z) : Z :=
  let y' := if m <=? 2 then y - 1 else y in
  let era := y' / 400 in
  let yoe := y' - era * 400 in
  let mp := if 2 <? m then m - 3 else m + 9 in
  let doy := (153 * mp + 2) / 5 + d - 1 in
  let doe := yoe * 365 + yoe / 4 - yoe / 100 + doy in
  era * 146097 + doe - 719468.

Definition digit_value (c : ascii) : option Z :=
  if Regex.digit c then Some (Z.of_nat (nat_of_ascii c) - 48) else None.

(** Exactly [n] decimal digits at the head of [s]. *)
Fixpoint digits (n : nat) (acc : Z) (s : string) : option (Z * string) :=
  match n with
  | O => Some (acc, s)
  | S n' =>
      match s with
      | EmptyString => None
      | String c s' =>
          d ← digit_value c; digits n' (acc * 10 + d) s'
      end
  end.

Definition expect (c : ascii) (s : string) : option string :=
  match s with
  | String a s' => if Ascii.eqb a c then Some s' else None
  | EmptyString => None
  end.

(** The fraction of a second, in milliseconds: the digits after the
    point, of which the first three count. *)
Fixpoint fraction (weight : Z) (s : string) : Z * string :=
  match s with
  | String c s' =>
      match digit_value c with
      | Some d => let '(ms, r) := fraction (weight / 10) s' in
                  (d * weight + ms, r)
      | None => (0, s)
      end
  | EmptyString => (0, s)
  end.

Definition parse_date (s : string) : option (Z * string) :=
  '(y, s) ← digits 4 0 s; s ← expect "-" s;
  '(m, s) ← digits 2 0 s; s ← expect "-" s;
  '(d, s) ← digits 2 0 s;
  if (1 <=? m) && (m <=? 12) && (1 <=? d) && (d <=? days_in_month y m)
  then Some (days_from_civil y m d * 86400000, s)
  else None.

Definition parse_time (s : string) : option (Z * string) :=
  '(h, s) ← digits 2 0 s; s ← expect ":" s;
  '(mi, s) ← digits 2 0 s; s ← expect ":" s;
  '(sec, s) ← digits 2 0 s;
  let '(ms, s) :=
    match s with
    | String "." (String c r as s') =>
        if Regex.digit c then fraction 100 s' else (0, s)
    | _ => (0, s)
    end in
  if (h <=? 23) && (mi <=? 59) && (sec <=? 59)
  then Some (((h * 60 + mi) * 60 + sec) * 1000 + ms, s)
  else None.

(** [new Date(s).getTime()] for the ISO 8601 texts [YYYY-MM-DD] and
    [YYYY-MM-DDTHH:mm:ss(.fraction)Z], both in UTC, the second being how
    Docker Hub reports [last_updated]: milliseconds since the epoch.
    JavaScript reads more texts as dates than these two forms (a numeric
    time-zone offset, a time without seconds, the hour 24, a day past the
    end of its month, forms particular to the engine); they are not
    modelled and give [None] like the texts that are no date at all.  So
    a [Some] is the time the program computes, whereas a [None] is [NaN]
    only for a text that JavaScript does not read.  The statements below
    that depend on the time of a tag say so by a hypothesis that it is a
    [Some]. *)
Definition getTime (s : string) : option Z :=
  '(day, s) ← parse_date s;
  match s with
  | EmptyString => Some day
  | String "T" s =>
      '(t, s) ← parse_time s;
      match s with
      | String "Z" EmptyString => Some (day + t)
      | _ => None
      end
  | _ => None
  end.

End JsDate.

Module JsArray.

Section Sort.
Context {A : Type} (comparefn : A → A → Z).

(** [x] is placed before the first element it does not have to follow:
    a positive [comparefn x y] sends [x] behind [y]. *)
Fixpoint insert (x : A) (l : list A) : list A :=
  match l with
  | [] => [x]
  | y :: l' => if 0 <? comparefn x y then y :: insert x l' else x :: l
  end.

(** [[...l].sort(comparefn)].  ECMAScript fixes the outcome only for a
    [comparefn] that is consistent on the elements, that is, compares
    them as some ranking does: the outcome is then the one of a stable
    sort, which is unique and which this function computes.  For an
    inconsistent [comparefn] the standard leaves the order to the engine,
    and the order of the engine need not be the one computed here: V8
    looks for runs in order, reverses a descending run, extends a short
    run by binary insertion and merges the runs, which can put an element
    before an earlier one it ties with.  For a [comparefn] that changes
    sign when its arguments are swapped, as [compareLastUpdated] does, a
    list whose neighbours are all in order is one run and is returned as
    it is by V8 and by this function alike.  The statements below use the
    outcome for an inconsistent [comparefn] only through what holds of
    every permutation of the list, and the examples only on lists whose
    neighbours are in order. *)
Definition sort (l : list A) : list A := foldr insert [] l.
End Sort.

(** [l.slice(0, n)] for a positive integer [n]. *)
Definition slice_to {A} (n : Z) (l : list A) : list A := take (Z.to_nat n) l.

End JsArray.

(** ** Version selection ([src/version-filter.ts]) *)

(** The comparison function passed to [sort] in [getLatestVersions] and in
    [getLatestTag]: zero when a side has no timestamp, otherwise the time
    of [b] minus the time of [a]; a [NaN] difference counts as zero.  It
    is consistent on a list whose tags all have a time, and on a list in
    which no two tags have a [lastUpdated]; on a list that mixes tags with
    and without time it is not: a tag without time ties with two tags
    that do not tie with each other. *)
Definition compareLastUpdated (a b : DockerTag) : Z :=
  if JsString.falsy (lastUpdated a) || JsString.falsy (lastUpdated b) then 0
  else
    match JsDate.getTime (default EmptyString (lastUpdated b)),
          JsDate.getTime (default EmptyString (lastUpdated a)) with
    | Some tb, Some ta => tb - ta
    | _, _ => 0
    end.

Definition getLatestVersions (tags : list DockerTag) (count : Z)
  : list DockerTag :=
  let sorted := JsArray.sort compareLastUpdated tags in
  JsArray.slice_to count sorted.

Definition cleanVersionString (version : string) : string :=
  let cleaned :=
    if JsString.startsWith version "v" then JsString.slice_from 1 version
    else version in
  match Semver.coerce cleaned with
  | Some coerced => Semver.format coerced
  | None => cleaned
  end.

Definition filterBySemverRange (tags : list DockerTag) (range : string)
  : list DockerTag :=
  List.filter (λ tag,
    let version := cleanVersionString (name tag) in
    match Semver.valid version with
    | None => false
    | Some _ => Semver.satisfies version range
    end) tags.

(** The text [semverRange is required when strategy is "semver"]. *)
Definition semverRange_required : string :=
  "semverRange is required when strategy is "
    +:+ String "034" ("semver" +:+ String "034" EmptyString).

Definition filterVersions (tags : list DockerTag) (strategy : string)
    (semverRange : option string) (maxVersions : option Z)
  : result (list string) :=
  let selected : result (list DockerTag) :=
    if String.eqb strategy "latest" then Ok (getLatestVersions tags 1)
    else if String.eqb strategy "all" then Ok tags
    else if String.eqb strategy "semver" then
      if JsString.falsy semverRange
      then Err semverRange_required
      else Ok (filterBySemverRange tags (default EmptyString semverRange))
    else Err ("Invalid strategy: " +:+ strategy) in
  match selected with
  | Err e => Err e
  | Ok filtered =>
      let filtered :=
        match maxVersions with
        | Some n => if 0 <? n then JsArray.slice_to n filtered else filtered
        | None => filtered
        end in
      Ok (name <$> filtered)
  end.

Definition parsePipeDelimitedRange (rangeString : string) : string :=
  if negb (JsString.includes_char "|" rangeString) then rangeString
  else
    let ranges := JsString.trim <$> JsString.split "|" rangeString in
    JsString.join " || " ranges.

(** ** Latest tag ([src/docker-registry.ts]) *)

Definition getLatestTag (tags : list DockerTag) : option DockerTag :=
  match tags with
  | [] => None
  | _ => head (JsArray.sort compareLastUpdated tags)
  end.

(** ** Configuration ([src/config.ts]) *)

Definition getDefaultConfig : BaseImageVersionerConfig :=
  {| strategy := Some "latest";
     semverRange := None;
     maxVersions := None;
     builds := Some
       [ {| build_name := Some "default";
            build_dockerfilePath := Some "Dockerfile";
            build_contextPath := Some ".";
            build_buildArgs := Some ∅;
            build_tags := Some ["{version}"; "latest"] |} ] |}.

(** The callback of [builds.map] in [validateAndNormalizeConfig]. *)
Definition normalizeBuild (index : nat) (build : BuildConfig) : BuildConfig :=
  {| build_name := Some (JsString.or_default (build_name build)
                           ("build-" +:+ Semver.string_of_N (N.of_nat index)));
     build_dockerfilePath :=
       Some (JsString.or_default (build_dockerfilePath build) "Dockerfile");
     build_contextPath := Some (JsString.or_default (build_contextPath build) ".");
     build_buildArgs := Some (default ∅ (build_buildArgs build));
     build_tags := Some (default ["{version}"] (build_tags build)) |}.

Definition validateAndNormalizeConfig (config : BaseImageVersionerConfig)
  : result BaseImageVersionerConfig :=
  let normalized_strategy := JsString.or_default (strategy config) "latest" in
  let normalized_builds := default [] (builds config) in
  if negb (bool_decide (normalized_strategy ∈ ["latest"; "all"; "semver"])) then
    Err ("Invalid strategy: " +:+ normalized_strategy
         +:+ ". Must be one of: latest, all, semver")
  else if String.eqb normalized_strategy "semver"
          && JsString.falsy (semverRange config) then
    Err semverRange_required
  else if match maxVersions config with
          | Some n => n <? 1
          | None => false
          end then
    Err "maxVersions must be greater than 0"
  else
    let normalized_builds :=
      match normalized_builds with
      | [] => default [] (builds getDefaultConfig)
      | _ => normalized_builds
      end in
    Ok {| strategy := Some normalized_strategy;
          semverRange := semverRange config;
          maxVersions := maxVersions config;
          builds := Some (imap normalizeBuild normalized_builds) |}.

(** [loadConfig]: [file] is [None] when there is no file at [configPath],
    and otherwise the content of the file as [yaml.parse] returns it, taken
    to be a mapping whose fields have the types that
    [BaseImageVersionerConfig] declares.  The source casts the parsed
    value to that type without any check, so this is an assumption on the
    file: a file that cannot be read or parsed, an empty document, which
    parses to [null], and fields of other types (a number for
    [semverRange], [null] for [maxVersions]) are outside this model. *)
Definition loadConfig (configPath : string)
    (file : option BaseImageVersionerConfig) : result BaseImageVersionerConfig :=
  match file with
  | None => Ok getDefaultConfig
  | Some config =>
      match validateAndNormalizeConfig config with
      | Ok normalized => Ok normalized
      | Err message =>
          Err ("Failed to load configuration from " +:+ configPath +:+ ": "
               +:+ message)
      end
  end.

Definition mergeConfigWithVersionRange (config : BaseImageVersionerConfig)
    (versionRange : string) : BaseImageVersionerConfig :=
  if Semver.non_empty versionRange then
    if String.eqb versionRange "latest" then
      {| strategy := Some "latest"; semverRange := None;
         maxVersions := maxVersions config; builds := builds config |}
    else if String.eqb versionRange "all" then
      {| strategy := Some "all"; semverRange := None;
         maxVersions := maxVersions config; builds := builds config |}
    else
      {| strategy := Some "semver"; semverRange := Some versionRange;
         maxVersions := maxVersions config; builds := builds config |}
  else config.

(** ** Matrix builder and orchestration ([src/main.ts]) *)

(** The object literal [{ BASE_IMAGE_VERSION: version, BASE_IMAGE:
    baseImage, ...spread }]: the two properties are defined first, then
    every property of [spread] is set, overwriting a property of the same
    name. *)
Definition mergedBuildArgs (version baseImage : string)
    (spread : gmap string string) : gmap string string :=
  spread ∪ <["BASE_IMAGE" := baseImage]> (<["BASE_IMAGE_VERSION" := version]> ∅).

(** The entry built in the body of the inner loop of [buildMatrix]. *)
Definition matrixEntry (version baseImage : string) (build : BuildConfig)
  : MatrixEntry :=
  {| entry_version := version;
     entry_name := JsString.or_default (build_name build) "default";
     entry_dockerfilePath :=
       JsString.or_default (build_dockerfilePath build) "Dockerfile";
     entry_contextPath := JsString.or_default (build_contextPath build) ".";
     entry_buildArgs :=
       mergedBuildArgs version baseImage (default ∅ (build_buildArgs build));
     entry_tags :=
       (λ tag, JsString.replace tag "{version}" version)
         <$> default ["{version}"] (build_tags build) |}.

(** [buildMatrix]: the two nested [for] loops, each iteration pushing one
    entry at the end of [matrix]. *)
Definition buildMatrix (versions : list string)
    (config : BaseImageVersionerConfig) (baseImage : string)
  : list MatrixEntry :=
  fold_left
    (λ matrix version,
       fold_left
         (λ matrix build, matrix ++ [matrixEntry version baseImage build])
         (default [] (builds config)) matrix)
    versions [].

(** [run], from the point where its inputs have been read: [file] is the
    parsed configuration file, if any, with fields of the declared types
    as for [loadConfig], and [fetched] the outcome of [fetchDockerTags].  The result is the [include] list of the [matrix]
    output, or the message passed to [setFailed].  A configuration without
    strategy, which [loadConfig] never returns, would reach the [default]
    branch of the switch of [filterVersions] as [undefined]. *)
Definition run (baseImage configPathInput versionRangeInput : string)
    (file : option BaseImageVersionerConfig)
    (fetched : result (list DockerTag)) : result (list MatrixEntry) :=
  let configPath :=
    JsString.or_default (Some configPathInput) ".github/base-image-versioner.yml" in
  match loadConfig configPath file with
  | Err e => Err e
  | Ok config =>
      let config :=
        if Semver.non_empty versionRangeInput
        then mergeConfigWithVersionRange config versionRangeInput
        else config in
      match fetched with
      | Err e => Err e
      | Ok allTags =>
          match allTags with
          | [] => Err ("No tags found for Docker image: " +:+ baseImage)
          | _ =>
              let semverTags := filterSemanticVersionTags allTags in
              match semverTags with
              | [] =>
                  match getLatestTag allTags with
                  | None => Err "No tags available"
                  | Some latest => Ok (buildMatrix [name latest] config baseImage)
                  end
              | _ =>
                  let range :=
                    if bool_decide (strategy config = Some "semver")
                       && negb (JsString.falsy (semverRange config))
                    then parsePipeDelimitedRange <$> semverRange config
                    else semverRange config in
                  match filterVersions semverTags
                          (default "undefined" (strategy config))
                          range (maxVersions config) with
                  | Err e => Err e
                  | Ok [] => Err "No versions matched the specified criteria"
                  | Ok selectedVersions =>
                      Ok (buildMatrix selectedVersions config baseImage)
                  end
              end
          end
      end
  end.

(** ** Tag source client ([src/docker-registry.ts]) *)

(** One element of [results] in a page of the registry's answer;
    [last_updated] is optional because the registry may send [null]. *)
Record HubTag : Type := {
  hub_name : string;
  hub_last_updated : option string;
  hub_tag_status : string;
  hub_digest : string
}.

Record DockerHubTagsResponse : Type := {
  hub_count : Z;
  hub_next : option string;
  hub_previous : option string;
  hub_results : list HubTag
}.

(** [client.getJson(url)]: what the transport answers to a request, given
    the addresses requested before it.  [Err message] stands for a thrown
    [Error], [Ok None] for an answer without [result]. *)
Definition HttpClient : Type :=
  list string → string → result (option DockerHubTagsResponse).

Definition buildDockerHubUrl (imageName : string) : string :=
  let parts := JsString.split "/" imageName in
  let repository :=
    if (length parts =? 1)%nat
    then "library/" +:+ default EmptyString (head parts)
    else imageName in
  "https://hub.docker.com/v2/repositories/" +:+ repository
    +:+ "/tags?page_size=100".

(** The inner [for] loop of [fetchDockerTags]: the active tags of a page,
    pushed in the order of the page. *)
Definition activeTags (results : list HubTag) : list DockerTag :=
  (λ tag, {| name := hub_name tag; lastUpdated := hub_last_updated tag |})
    <$> List.filter (λ tag, String.eqb (hub_tag_status tag) "active") results.

(** The [while] loop of [fetchDockerTags]: [remaining] is [100 - page],
    [requested] the addresses requested so far, [tags] the tags collected
    so far.  The result comes with the addresses requested. *)
Fixpoint fetchPages (client : HttpClient) (remaining : nat)
    (requested : list string) (url : string) (tags : list DockerTag)
  : list string * result (list DockerTag) :=
  match remaining with
  | O => (requested, Ok tags)
  | S remaining' =>
      if JsString.falsy (Some url) then (requested, Ok tags)
      else
        match client requested url with
        | Err message => (requested ++ [url], Err message)
        | Ok None =>
            (requested ++ [url],
             Err "Failed to fetch tags: No result returned")
        | Ok (Some response) =>
            fetchPages client remaining' (requested ++ [url])
              (JsString.or_default (hub_next response) EmptyString)
              (tags ++ activeTags (hub_results response))
        end
  end.

(** [fetchDockerTags]: the addresses requested, and the tags or the message
    of the error thrown. *)
Definition fetchDockerTags (client : HttpClient) (imageName : string)
  : list string * result (list DockerTag) :=
  match fetchPages client 100 [] (buildDockerHubUrl imageName) [] with
  | (requested, Ok tags) => (requested, Ok tags)
  | (requested, Err message) =>
      (requested,
       Err ("Failed to fetch Docker tags for " +:+ imageName +:+ ": "
            +:+ message))
  end.

(** The pages a client serves from an address on: each page is the
    answer to the request for the current address, the next address is the
    cursor of the page, and after the last page there is no cursor. *)
Fixpoint serves (client : HttpClient) (requested : list string) (url : string)
    (pages : list DockerHubTagsResponse) : Prop :=
  match pages with
  | [] => JsString.falsy (Some url) = true
  | page :: rest =>
      JsString.falsy (Some url) = false
      ∧ client requested url = Ok (Some page)
      ∧ serves client (requested ++ [url])
          (JsString.or_default (hub_next page) EmptyString) rest
  end.

(** Where a tag of the result comes from. *)
Definition served_active (client : HttpClient) (requests : list string)
    (tag : DockerTag) : Prop :=
  ∃ requested url page entry,
    url ∈ requests
    ∧ client requested url = Ok (Some page)
    ∧ entry ∈ hub_results page
    ∧ hub_tag_status entry = "active"
    ∧ tag = {| name := hub_name entry; lastUpdated := hub_last_updated entry |}.

(** A build configuration with every field given, as the normalization
    leaves it. *)
Definition populated (build : BuildConfig) : Prop :=
  JsString.falsy (build_name build) = false
  ∧ JsString.falsy (build_dockerfilePath build) = false
  ∧ JsString.falsy (build_contextPath build) = false
  ∧ is_Some (build_buildArgs build)
  ∧ is_Some (build_tags build).

(** A configuration that passes every check of the validation and needs no
    default any more. *)
Definition well_formed (config : BaseImageVersionerConfig) : Prop :=
  (∃ s, strategy config = Some s ∧ s ∈ ["latest"; "all"; "semver"])
  ∧ (strategy config = Some "semver" →
     JsString.falsy (semverRange config) = false)
  ∧ (∀ n, maxVersions config = Some n → 1 ≤ n)
  ∧ ∃ bs, builds config = Some bs ∧ bs ≠ [] ∧ Forall populated bs.

(** ** Notions used in the statements *)

(** The time a tag carries: none when [lastUpdated] is missing or empty, or
    is not a date. *)
Definition timestamp (tag : DockerTag) : option Z :=
  if JsString.falsy (lastUpdated tag) then None
  else JsDate.getTime (default EmptyString (lastUpdated tag)).

Definition tag_time (tag : DockerTag) : Z := default 0 (timestamp tag).

(** Every element is in order with its right neighbour: the comparison
    function does not ask to put the neighbour first. *)
Fixpoint adjacent_ordered {A} (comparefn : A → A → Z) (l : list A) : Prop :=
  match l with
  | x :: (y :: _) as l' => comparefn x y ≤ 0 ∧ adjacent_ordered comparefn l'
  | _ => True
  end.

(** [x] stands before [y] in the list. *)
Definition before {A} (l : list A) (x y : A) : Prop :=
  ∃ i j, (i < j)%nat ∧ l !! i = Some x ∧ l !! j = Some y.

(** No two tags of the list have a [lastUpdated]: at most one has, so
    that the comparison of any two tags stops at its first test and is a
    tie. *)
Definition no_two_dated (tags : list DockerTag) : Prop :=
  ∀ i j a b,
    i ≠ j → tags !! i = Some a → tags !! j = Some b →
    JsString.falsy (lastUpdated a) = true
    ∨ JsString.falsy (lastUpdated b) = true.

(** The tag cannot be ranked first by an order of the list that puts the
    later of two times first and leaves ties in place: another tag of the
    list has a later time, or a tag stands before it and one of the two
    has no [lastUpdated]. *)
Definition outranked (tags : list DockerTag) (tag : DockerTag) : Prop :=
  (∃ later ta tl,
     later ∈ tags ∧ timestamp tag = Some ta ∧ timestamp later = Some tl
     ∧ ta < tl)
  ∨ (∃ earlier,
       before tags earlier tag
       ∧ (JsString.falsy (lastUpdated earlier) = true
          ∨ JsString.falsy (lastUpdated tag) = true)).

(** The comparators that [Semver.parseComparator] reads as the package
    does: one of the operators [^], [~], [>=], [<=], [>], [<], [=] or
    none, directly followed by one to three components separated by dots,
    each of them a wildcard [x], [X] or [*] or a numeric component. *)
Definition plain_component (id : string) : bool :=
  Semver.isX id
  || match Semver.component id with Some _ => true | None => false end.

Definition strip_operator (tok : string) : string :=
  if JsString.startsWith tok "^" then JsString.slice_from 1 tok
  else if JsString.startsWith tok "~" then JsString.slice_from 1 tok
  else if JsString.startsWith tok ">=" then JsString.slice_from 2 tok
  else if JsString.startsWith tok "<=" then JsString.slice_from 2 tok
  else if JsString.startsWith tok ">" then JsString.slice_from 1 tok
  else if JsString.startsWith tok "<" then JsString.slice_from 1 tok
  else if JsString.startsWith tok "=" then JsString.slice_from 1 tok
  else tok.

Definition plain_comparator (tok : string) : bool :=
  match JsString.split "." (strip_operator tok) with
  | [a] => plain_component a
  | [a; b] => plain_component a && plain_component b
  | [a; b; c] => plain_component a && plain_component b && plain_component c
  | _ => false
  end.

(** A range without [||] of the fragment that the model of the package
    covers: plain comparators separated by spaces, or nothing but
    spaces. *)
Definition plain_range (range : string) : bool :=
  forallb (λ tok, negb (Semver.non_empty tok) || plain_comparator tok)
    (JsString.split " " range).

(** The parts of the pattern [COERCE]: a number of one to sixteen digits,
    an optional dot and number captured as group [i], the end of the match,
    and the pattern after its first group. *)
Definition coerce_number : Regex.regex :=
  Regex.Repeat Regex.digit 1 (Some Semver.MAX_SAFE_COMPONENT_LENGTH).

Definition dot_number (i : nat) : Regex.regex :=
  Regex.opt (Regex.seq [Regex.chr "."; Regex.Group i coerce_number]).

Definition coerce_end : Regex.regex :=
  Regex.Alt Regex.Eol (Regex.Class Regex.non_digit).

Definition coerce_tail : Regex.regex :=
  Regex.Seq (Regex.Group 2 coerce_number)
    (Regex.Seq (dot_number 3)
       (Regex.Seq (dot_number 4) (Regex.Seq coerce_end Regex.Empty))).

(** The text starts with a character of the class. *)
Definition starts_with_class (p : ascii → bool) (s : string) : bool :=
  match s with String c _ => p c | EmptyString => false end.

(** The text does not go on with a dot and a digit. *)
Definition no_dot_digit (s : string) : bool :=
  match s with
  | String c s' => negb (Ascii.eqb "." c && starts_with_class Regex.digit s')
  | EmptyString => true
  end.

(** One to sixteen digits. *)
Definition digits_1_16 (d : string) : Prop :=
  Semver.all_chars Regex.digit d = true
  ∧ (1 ≤ String.length d ≤ Semver.MAX_SAFE_COMPONENT_LENGTH)%nat.

(** The characters of a dotted number. *)
Definition digit_or_dot (c : ascii) : bool := Regex.digit c || Ascii.eqb c ".".

(** Declarative reading of a pattern: [consumes r s tail] when [r],
    applied at the start of [s], matches a prefix of [s] that leaves
    [tail]. *)
Fixpoint consumes (r : Regex.regex) (s tail : string) : Prop :=
  match r with
  | Regex.Empty | Regex.Bol => tail = s
  | Regex.Eol => s = EmptyString ∧ tail = EmptyString
  | Regex.Class p => ∃ c, s = String c tail ∧ p c = true
  | Regex.Seq r1 r2 => ∃ mid, consumes r1 s mid ∧ consumes r2 mid tail
  | Regex.Alt r1 r2 => consumes r1 s tail ∨ consumes r2 s tail
  | Regex.Repeat p lo hi =>
      ∃ d, s = d +:+ tail
           ∧ Semver.all_chars p d = true
           ∧ (lo ≤ String.length d)%nat
           ∧ ∀ n, hi = Some n → (String.length d ≤ n)%nat
  | Regex.Group _ r' => consumes r' s tail
  end.

(** The pattern has no [^]. *)
Fixpoint bol_free (r : Regex.regex) : bool :=
  match r with
  | Regex.Bol => false
  | Regex.Seq r1 r2 | Regex.Alt r1 r2 => bol_free r1 && bol_free r2
  | Regex.Group _ r' => bol_free r'
  | _ => true
  end.

(** A number: one or more digits. *)
Definition number (d : string) : Prop :=
  Semver.all_chars Regex.digit d = true ∧ d ≠ EmptyString.

(** One, two or three numbers separated by dots. *)
Definition dotted_numbers (s : string) : Prop :=
  ∃ a, number a
       ∧ (s = a
          ∨ ∃ b, number b
                 ∧ (s = a +:+ "." +:+ b
                    ∨ ∃ c, number c ∧ s = a +:+ "." +:+ b +:+ "." +:+ c)).

(** Dotted numbers, with or without a [v] in front. *)
Definition version_like (s : string) : Prop :=
  dotted_numbers s ∨ ∃ t, s = String "v" t ∧ dotted_numbers t.

(** The characters of a Docker tag name: letters, digits, underscore,
    period and hyphen. *)
Definition tag_char (c : ascii) : bool :=
  Regex.word c || Ascii.eqb c "." || Ascii.eqb c "-".

(** ** Sample data

    Build configurations and tags in the style of the README, used to
    instantiate the statements below on concrete inputs. *)

Definition sample_default_build : BuildConfig :=
  {| build_name := Some "default";
     build_dockerfilePath := Some "Dockerfile";
     build_contextPath := Some ".";
     build_buildArgs := Some {["NODE_ENV" := "production"]};
     build_tags := Some ["{version}"; "latest"] |}.

Definition sample_alpine_build : BuildConfig :=
  {| build_name := Some "alpine";
     build_dockerfilePath := Some "Dockerfile.alpine";
     build_contextPath := Some ".";
     build_buildArgs := Some {["VARIANT" := "alpine"]};
     build_tags := Some ["{version}-alpine"; "alpine"] |}.

Definition sample_rc_tag : DockerTag :=
  {| name := "rc"; lastUpdated := Some "2024-01-01" |}.

Definition sample_stable_tag : DockerTag :=
  {| name := "stable"; lastUpdated := Some "2024-06-01" |}.


(** Three versions of which the second came without update time. *)
Definition sample_dated_1_0_0 : DockerTag :=
  {| name := "1.0.0"; lastUpdated := Some "2024-01-01" |}.

Definition sample_undated_1_1_0 : DockerTag :=
  {| name := "1.1.0"; lastUpdated := None |}.

Definition sample_dated_1_2_0 : DockerTag :=
  {| name := "1.2.0"; lastUpdated := Some "2024-06-01" |}.

(** Four versions in the order of their release, the third without update
    time. *)
Definition sample_mixed_tags : list DockerTag :=
  [ {| name := "2.0.0"; lastUpdated := Some "2024-02-01" |};
    {| name := "2.1.0"; lastUpdated := Some "2024-05-01" |};
    {| name := "2.2.0"; lastUpdated := None |};
    {| name := "2.3.0"; lastUpdated := Some "2024-06-01" |} ].

Definition sample_page_1 : DockerHubTagsResponse :=
  {| hub_count := 3;
     hub_next := Some "https://hub.docker.com/page2";
     hub_previous := None;
     hub_results :=
       [ {| hub_name := "2.0.0"; hub_last_updated := Some "2024-06-01";
            hub_tag_status := "active"; hub_digest := "sha256:a" |};
         {| hub_name := "1.9.0"; hub_last_updated := Some "2024-03-01";
            hub_tag_status := "inactive"; hub_digest := "sha256:b" |} ] |}.

Definition sample_page_2 : DockerHubTagsResponse :=
  {| hub_count := 3;
     hub_next := None;
     hub_previous := Some "https://hub.docker.com/page1";
     hub_results :=
       [ {| hub_name := "1.0.0"; hub_last_updated := Some "2024-01-01";
            hub_tag_status := "active"; hub_digest := "sha256:c" |} ] |}.

(** A registry with two pages of tags for [verdaccio/verdaccio], which
    knows no other address. *)
Definition sample_client : HttpClient :=
  λ _ url,
    if String.eqb url (buildDockerHubUrl "verdaccio/verdaccio")
    then Ok (Some sample_page_1)
    else if String.eqb url "https://hub.docker.com/page2"
    then Ok (Some sample_page_2)
    else Ok None.

(** A registry whose every page has a cursor. *)
Definition sample_endless_client : HttpClient :=
  λ _ _, Ok (Some sample_page_1).

Definition sample_config : BaseImageVersionerConfig :=
  {| strategy := Some "semver";
     semverRange := Some "^1|^2";
     maxVersions := Some 5;
     builds := Some [sample_default_build; sample_alpine_build] |}.

(** * Properties *)

(** ** Strings *)

Local Arguments String.append !_ _ / : simpl nomatch.

Lemma ascii_eqb_sym (a b : ascii) : Ascii.eqb a b = Ascii.eqb b a.
Proof.
  destruct (Ascii.eqb_spec a b) as [->|Hne].
  - by rewrite Ascii.eqb_refl.
  - symmetry. apply Ascii.eqb_neq. congruence.
Qed.

Lemma append_empty_r (s : string) : s +:+ EmptyString = s.
Proof. induction s as [|c s IH]; simpl; by rewrite ?IH. Qed.

(** One step of [split] for a separator of one character. *)
Lemma split_aux_char (c a : ascii) (s : string) :
  JsString.split_aux (String c EmptyString) 0 (String a s) =
  let '(seg, rest) := JsString.split_aux (String c EmptyString) 0 s in
  if Ascii.eqb c a then (EmptyString, seg :: rest) else (String a seg, rest).
Proof.
  simpl. rewrite andb_true_r.
  destruct (Ascii.eqb c a), (JsString.split_aux _ 0 s); reflexivity.
Qed.

Lemma split_char_cons (c a : ascii) (s : string) :
  JsString.split (String c EmptyString) (String a s) =
  if Ascii.eqb c a
  then EmptyString :: JsString.split (String c EmptyString) s
  else match JsString.split (String c EmptyString) s with
       | seg :: rest => String a seg :: rest
       | [] => []
       end.
Proof.
  unfold JsString.split. rewrite split_aux_char.
  destruct (JsString.split_aux _ 0 s), (Ascii.eqb c a); reflexivity.
Qed.

Lemma split_nonempty (sep s : string) : JsString.split sep s ≠ [].
Proof. unfold JsString.split. by destruct (JsString.split_aux sep 0 s). Qed.

(** Joining the segments with the separator gives the text back. *)
Lemma split_char_join (c : ascii) (s : string) :
  JsString.join (String c EmptyString) (JsString.split (String c EmptyString) s) = s.
Proof.
  induction s as [|a s IH]; [reflexivity|].
  rewrite split_char_cons.
  pose proof (split_nonempty (String c EmptyString) s) as Hne.
  destruct (Ascii.eqb_spec c a) as [->|Hca].
  - destruct (JsString.split _ s) as [|seg rest]; [done|].
    simpl in *. by rewrite IH.
  - destruct (JsString.split _ s) as [|seg rest]; [done|].
    destruct rest as [|seg' rest]; simpl in *; by rewrite <- IH.
Qed.

(** There is one segment more than there are separator characters. *)
Lemma split_char_length (c : ascii) (s : string) :
  length (JsString.split (String c EmptyString) s) = S (JsString.count_char c s).
Proof.
  induction s as [|a s IH]; [reflexivity|].
  rewrite split_char_cons. cbn [JsString.count_char].
  rewrite (ascii_eqb_sym a c).
  pose proof (split_nonempty (String c EmptyString) s) as Hne.
  destruct (Ascii.eqb c a); simpl.
  - by rewrite IH.
  - destruct (JsString.split _ s); [done|]. simpl in *. lia.
Qed.

(** No segment contains the separator character. *)
Lemma split_char_free (c : ascii) (s : string) :
  Forall (λ seg, JsString.includes_char c seg = false)
         (JsString.split (String c EmptyString) s).
Proof.
  induction s as [|a s IH]; [by repeat constructor|].
  rewrite split_char_cons.
  destruct (Ascii.eqb_spec c a) as [->|Hca].
  - by constructor.
  - destruct (JsString.split _ s) as [|seg rest]; [constructor|].
    inversion IH as [|? ? Hseg Hrest]; subst. constructor; [|done].
    simpl. rewrite Hseg, orb_false_r. apply Ascii.eqb_neq. congruence.
Qed.

(** The first segment is the text before the first separator character. *)
Lemma split_char_head (c : ascii) (s : string) :
  head (JsString.split (String c EmptyString) s) = Some (Semver.cut c s).1.
Proof.
  induction s as [|a s IH]; [reflexivity|].
  rewrite split_char_cons. cbn [Semver.cut]. rewrite (ascii_eqb_sym a c).
  destruct (Ascii.eqb c a); [reflexivity|].
  destruct (JsString.split _ s) as [|seg rest]; [done|].
  destruct (Semver.cut c s) as [l r]. simpl in *. congruence.
Qed.

(** ** Tag classification *)

Lemma isSemanticVersionName_cut (tagName : string) :
  isSemanticVersionName tagName =
  Regex.test semverRegex (Semver.cut "-" tagName).1
  || Regex.test semverRegex tagName.
Proof.
  unfold isSemanticVersionName.
  change "-"%string with (String "-"%char EmptyString).
  by rewrite split_char_head.
Qed.

(** C8 — The classifier tests the acceptance pattern on the text before the
    first hyphen of the raw name and on the whole raw name, and accepts when
    either matches.  It accepts the names 1, 1.2, 1.2.3, v1.2.3 and
    1.2.3-alpine, and rejects latest, alpine and slim. *)
Theorem classifier_accepts_versions_rejects_words :
  (∀ tagName,
     isSemanticVersionName tagName =
     Regex.test semverRegex (Semver.cut "-" tagName).1
     || Regex.test semverRegex tagName)
  ∧ (∀ tags tag,
       tag ∈ filterSemanticVersionTags tags ↔
       tag ∈ tags ∧ isSemanticVersionName (name tag) = true)
  ∧ isSemanticVersionName "1" = true
  ∧ isSemanticVersionName "1.2" = true
  ∧ isSemanticVersionName "1.2.3" = true
  ∧ isSemanticVersionName "v1.2.3" = true
  ∧ isSemanticVersionName "1.2.3-alpine" = true
  ∧ isSemanticVersionName "latest" = false
  ∧ isSemanticVersionName "alpine" = false
  ∧ isSemanticVersionName "slim" = false.
Proof.
  split; [exact isSemanticVersionName_cut|].
  split.
  - intros tags tag. unfold filterSemanticVersionTags.
    rewrite !list_elem_of_In, filter_In. reflexivity.
  - repeat split; vm_compute; reflexivity.
Qed.

(** ** Pipe-delimited ranges *)

Lemma parsePipeDelimitedRange_without_pipe (s : string) :
  JsString.includes_char "|" s = false → parsePipeDelimitedRange s = s.
Proof. intros H. unfold parsePipeDelimitedRange. by rewrite H. Qed.

Lemma parsePipeDelimitedRange_with_pipe (s : string) :
  JsString.includes_char "|" s = true →
  ∃ segments,
    JsString.join "|" segments = s
    ∧ length segments = S (JsString.count_char "|" s)
    ∧ Forall (λ seg, JsString.includes_char "|" seg = false) segments
    ∧ parsePipeDelimitedRange s
      = JsString.join " || " (JsString.trim <$> segments).
Proof.
  intros H. exists (JsString.split "|" s).
  change "|"%string with (String "|"%char EmptyString).
  split; [apply split_char_join|].
  split; [apply split_char_length|].
  split; [apply split_char_free|].
  unfold parsePipeDelimitedRange. by rewrite H.
Qed.

(** C10 — [parsePipeDelimitedRange] returns a text without any pipe
    character unchanged; otherwise every single pipe character separates
    two segments (there is one segment more than there are pipe characters,
    no segment contains a pipe, and the segments joined by pipes give the
    input back), and the result is the trimmed segments joined by the OR
    operator.  So the text ^1||^2 has an empty middle segment and is
    rewritten to a range whose middle OR-branch is empty. *)
Theorem parsePipeDelimitedRange_every_pipe_separates :
  (∀ s, JsString.includes_char "|" s = false → parsePipeDelimitedRange s = s)
  ∧ (∀ s, JsString.includes_char "|" s = true →
       ∃ segments,
         JsString.join "|" segments = s
         ∧ length segments = S (JsString.count_char "|" s)
         ∧ Forall (λ seg, JsString.includes_char "|" seg = false) segments
         ∧ parsePipeDelimitedRange s
           = JsString.join " || " (JsString.trim <$> segments))
  ∧ JsString.split "|" "^1||^2" = ["^1"; EmptyString; "^2"]
  ∧ parsePipeDelimitedRange "^1||^2" = "^1 ||  || ^2"
  ∧ JsString.trim <$> JsString.split "||" (parsePipeDelimitedRange "^1||^2")
    = ["^1"; EmptyString; "^2"].
Proof.
  split; [exact parsePipeDelimitedRange_without_pipe|].
  split; [exact parsePipeDelimitedRange_with_pipe|].
  repeat split; vm_compute; reflexivity.
Qed.

Lemma parsePipeDelimitedRange_every_pipe_separates_witness :
  parsePipeDelimitedRange ">=2.0.0 <3.0.0" = ">=2.0.0 <3.0.0"
  ∧ ∃ segments,
      JsString.join "|" segments = "^18|^20|^22"
      ∧ length segments = 3%nat
      ∧ Forall (λ seg, JsString.includes_char "|" seg = false) segments
      ∧ parsePipeDelimitedRange "^18|^20|^22"
        = JsString.join " || " (JsString.trim <$> segments).
Proof.
  split.
  - apply (proj1 parsePipeDelimitedRange_every_pipe_separates). reflexivity.
  - apply (proj1 (proj2 parsePipeDelimitedRange_every_pipe_separates)
             "^18|^20|^22").
    reflexivity.
Defined.

(** ** Matrix builder *)

Lemma mergedBuildArgs_lookup (version baseImage : string)
    (own : gmap string string) (key : string) :
  mergedBuildArgs version baseImage own !! key =
  match own !! key with
  | Some value => Some value
  | None =>
      if decide (key = "BASE_IMAGE") then Some baseImage
      else if decide (key = "BASE_IMAGE_VERSION") then Some version
      else None
  end.
Proof.
  unfold mergedBuildArgs.
  destruct (own !! key) as [value|] eqn:Hown.
  - by apply lookup_union_Some_l.
  - rewrite lookup_union_r by done.
    rewrite lookup_insert. case_decide as H1.
    + subst key. by rewrite decide_True.
    + rewrite decide_False by congruence.
      rewrite lookup_insert. case_decide as H2.
      * subst key. by rewrite decide_True.
      * rewrite decide_False by congruence. apply lookup_empty.
Qed.

(** C3 — For every version, base image and build configuration, the entry's
    [buildArgs] has the keys BASE_IMAGE_VERSION and BASE_IMAGE, it is the
    two injected bindings merged with the configuration's own [buildArgs],
    and where a name collides the configuration's value is the one kept. *)
Theorem matrixEntry_buildArgs_precedence
    (version baseImage : string) (build : BuildConfig) :
  is_Some (entry_buildArgs (matrixEntry version baseImage build)
             !! "BASE_IMAGE_VERSION")
  ∧ is_Some (entry_buildArgs (matrixEntry version baseImage build)
               !! "BASE_IMAGE")
  ∧ dom (entry_buildArgs (matrixEntry version baseImage build))
    = dom (default ∅ (build_buildArgs build))
        ∪ ({["BASE_IMAGE_VERSION"; "BASE_IMAGE"]} : gset string)
  ∧ (∀ key value,
       default ∅ (build_buildArgs build) !! key = Some value →
       entry_buildArgs (matrixEntry version baseImage build) !! key
       = Some value)
  ∧ (∀ key,
       default ∅ (build_buildArgs build) !! key = None →
       entry_buildArgs (matrixEntry version baseImage build) !! key
       = ({["BASE_IMAGE_VERSION" := version; "BASE_IMAGE" := baseImage]}
            : gmap string string) !! key).
Proof.
  cbn [matrixEntry entry_buildArgs].
  set (own := default ∅ (build_buildArgs build)).
  split; [|split; [|split; [|split]]].
  - rewrite mergedBuildArgs_lookup. destruct (own !! _); [by eexists|].
    repeat case_decide; by eauto.
  - rewrite mergedBuildArgs_lookup. destruct (own !! _); [by eexists|].
    repeat case_decide; by eauto.
  - unfold mergedBuildArgs. rewrite dom_union_L, !dom_insert_L, dom_empty_L.
    set_solver.
  - intros key value Hown. by rewrite mergedBuildArgs_lookup, Hown.
  - intros key Hown. rewrite mergedBuildArgs_lookup, Hown.
    destruct (decide (key = "BASE_IMAGE")) as [->|H1]; [by simplify_map_eq|].
    destruct (decide (key = "BASE_IMAGE_VERSION")) as [->|H2];
      by simplify_map_eq.
Qed.

Lemma matrixEntry_buildArgs_precedence_witness :
  entry_buildArgs
    (matrixEntry "1.2.3" "verdaccio/verdaccio"
       {| build_name := Some "default"; build_dockerfilePath := None;
          build_contextPath := None;
          build_buildArgs :=
            Some {["NODE_ENV" := "production"; "BASE_IMAGE" := "custom"]};
          build_tags := None |}) !! "BASE_IMAGE" = Some "custom".
Proof.
  apply (proj1 (proj2 (proj2 (proj2
           (matrixEntry_buildArgs_precedence "1.2.3" "verdaccio/verdaccio" _))))).
  reflexivity.
Defined.

(** The inner loop appends one entry per build configuration. *)
Lemma buildMatrix_inner_loop {A B} (f : A → B) (l : list A) (acc : list B) :
  fold_left (λ matrix x, matrix ++ [f x]) l acc = acc ++ (f <$> l).
Proof.
  revert acc. induction l as [|x l IH]; intros acc; simpl.
  - by rewrite app_nil_r.
  - rewrite IH. by rewrite <- app_assoc.
Qed.

Lemma buildMatrix_outer_loop {A B C} (f : A → B → C) (bs : list B)
    (vs : list A) (acc : list C) :
  fold_left (λ matrix v, fold_left (λ matrix b, matrix ++ [f v b]) bs matrix)
            vs acc
  = acc ++ (vs ≫= λ v, f v <$> bs).
Proof.
  revert acc. induction vs as [|v vs IH]; intros acc; simpl.
  - by rewrite app_nil_r.
  - rewrite IH, buildMatrix_inner_loop. by rewrite <- app_assoc.
Qed.

(** [buildMatrix] is the concatenation, version by version, of the entries
    of all build configurations. *)
Lemma buildMatrix_bind (versions : list string)
    (config : BaseImageVersionerConfig) (baseImage : string) :
  buildMatrix versions config baseImage
  = versions ≫= λ version,
      matrixEntry version baseImage <$> default [] (builds config).
Proof. unfold buildMatrix. by rewrite buildMatrix_outer_loop. Qed.

Lemma bind_blocks_length {A B} (g : A → list B) (n : nat) (l : list A) :
  (∀ x, length (g x) = n) → length (l ≫= g) = (length l * n)%nat.
Proof.
  intros Hg. induction l as [|x l IH]; [reflexivity|].
  cbn [mbind list_bind]. change (length (g x ++ (l ≫= g)) = (S (length l) * n)%nat).
  rewrite length_app, IH, Hg. lia.
Qed.

Lemma bind_blocks_lookup {A B} (g : A → list B) (n : nat) (l : list A)
    (i j : nat) (x : A) :
  (∀ x, length (g x) = n) → l !! i = Some x → (j < n)%nat →
  (l ≫= g) !! (i * n + j)%nat = g x !! j.
Proof.
  intros Hg. revert i. induction l as [|y l IH]; intros i Hi Hj; [done|].
  change ((g y ++ (l ≫= g)) !! (i * n + j)%nat = g x !! j).
  destruct i as [|i]; simpl in Hi.
  - injection Hi as ->. simpl. apply lookup_app_l. by rewrite Hg.
  - rewrite lookup_app_r by (rewrite Hg; lia).
    rewrite Hg. replace (S i * n + j - n)%nat with (i * n + j)%nat by lia.
    by apply IH.
Qed.

(** C4 — For every version list and list of build configurations, the
    matrix has one entry per pair, so its length is the product of the two
    lengths; the entries come version by version in the given order, and
    within a version build configuration by build configuration in the
    given order: the entry of the i-th version and j-th configuration is at
    index i * (number of configurations) + j. *)
Theorem buildMatrix_one_entry_per_pair_nested_order
    (versions : list string) (config : BaseImageVersionerConfig)
    (baseImage : string) :
  length (buildMatrix versions config baseImage)
  = (length versions * length (default [] (builds config)))%nat
  ∧ buildMatrix versions config baseImage
    = versions ≫= (λ version,
        matrixEntry version baseImage <$> default [] (builds config))
  ∧ (∀ i j version build,
       versions !! i = Some version →
       default [] (builds config) !! j = Some build →
       buildMatrix versions config baseImage
         !! (i * length (default [] (builds config)) + j)%nat
       = Some (matrixEntry version baseImage build))
  ∧ (∀ k entry,
       buildMatrix versions config baseImage !! k = Some entry →
       ∃ version build,
         versions !! (k / length (default [] (builds config)))%nat = Some version
         ∧ default [] (builds config)
             !! (k mod length (default [] (builds config)))%nat = Some build
         ∧ entry = matrixEntry version baseImage build).
Proof.
  set (bs := default [] (builds config)).
  rewrite buildMatrix_bind. fold bs.
  assert (Hlen : ∀ v : string,
            length (matrixEntry v baseImage <$> bs) = length bs)
    by (intros; apply length_fmap).
  assert (Hat : ∀ i j version build,
            versions !! i = Some version → bs !! j = Some build →
            (versions ≫= λ v, matrixEntry v baseImage <$> bs)
              !! (i * length bs + j)%nat
            = Some (matrixEntry version baseImage build)).
  { intros i j version build Hi Hj.
    rewrite (bind_blocks_lookup _ (length bs) versions i j version Hlen Hi)
      by (by eapply lookup_lt_Some).
    by rewrite list_lookup_fmap, Hj. }
  split; [by apply bind_blocks_length|].
  split; [reflexivity|].
  split; [exact Hat|].
  intros k entry Hk.
  assert (Hk' : (k < length versions * length bs)%nat).
  { apply lookup_lt_Some in Hk.
    by rewrite (bind_blocks_length _ (length bs)) in Hk. }
  assert (Hpos : (0 < length bs)%nat) by (destruct (length bs); lia).
  assert (Hi : (k / length bs < length versions)%nat)
    by (apply Nat.Div0.div_lt_upper_bound; lia).
  assert (Hj : (k mod length bs < length bs)%nat)
    by (apply Nat.mod_upper_bound; lia).
  apply lookup_lt_is_Some in Hi as [version Hv].
  apply lookup_lt_is_Some in Hj as [build Hb].
  exists version, build. split; [done|]. split; [done|].
  specialize (Hat _ _ _ _ Hv Hb).
  replace (k `div` length bs * length bs + k `mod` length bs)%nat with k in Hat
    by (rewrite (Nat.div_mod_eq k (length bs)) at 1; lia).
  congruence.
Qed.

Lemma buildMatrix_one_entry_per_pair_nested_order_witness :
  buildMatrix ["1.0.0"; "1.5.0"; "2.0.0"] sample_config "node" !! 3%nat
  = Some (matrixEntry "1.5.0" "node" sample_alpine_build).
Proof.
  exact (proj1 (proj2 (proj2
           (buildMatrix_one_entry_per_pair_nested_order
              ["1.0.0"; "1.5.0"; "2.0.0"] sample_config "node")))
           1%nat 1%nat "1.5.0" sample_alpine_build eq_refl eq_refl).
Defined.

(** ** Tag templates *)

Lemma startsWith_slice (s p : string) :
  JsString.startsWith s p = true →
  s = p +:+ JsString.slice_from (String.length p) s.
Proof.
  revert s. induction p as [|a p IH]; intros s H; [reflexivity|].
  destruct s as [|b s]; [discriminate|]. simpl in H.
  apply andb_true_iff in H as [Hab Hp].
  apply Ascii.eqb_eq in Hab as ->. simpl. f_equal. by apply IH.
Qed.

Lemma startsWith_append (p r : string) : JsString.startsWith (p +:+ r) p = true.
Proof.
  induction p as [|a p IH]; [reflexivity|].
  simpl. by rewrite Ascii.eqb_refl.
Qed.

Lemma find_first_unfold (pat s : string) :
  JsString.find_first pat s =
  if JsString.startsWith s pat
  then Some (EmptyString, JsString.slice_from (String.length pat) s)
  else match s with
       | EmptyString => None
       | String c s' =>
           match JsString.find_first pat s' with
           | Some (before, after) => Some (String c before, after)
           | None => None
           end
       end.
Proof. destruct s; reflexivity. Qed.

(** What [find_first] returns is an occurrence, and no occurrence starts
    earlier. *)
Lemma find_first_Some (pat s before after : string) :
  JsString.find_first pat s = Some (before, after) →
  s = before +:+ pat +:+ after
  ∧ ∀ l r, s = l +:+ pat +:+ r → (String.length before ≤ String.length l)%nat.
Proof.
  revert before. induction s as [|c s IH]; intros before;
    rewrite find_first_unfold;
    destruct (JsString.startsWith _ pat) eqn:Hsw; try discriminate.
  - intros [= <- <-]. split; [by apply startsWith_slice|simpl; lia].
  - intros [= <- <-]. split; [by apply startsWith_slice|simpl; lia].
  - destruct (JsString.find_first pat s) as [[b a]|]; [|discriminate].
    intros [= <- <-]. destruct (IH b eq_refl) as [Hs Hmin]. split.
    + simpl. by rewrite <- Hs.
    + intros l r Hl. destruct l as [|x l]; simpl in Hl.
      * rewrite Hl, startsWith_append in Hsw. discriminate.
      * injection Hl as -> Hl. simpl. specialize (Hmin l r Hl). lia.
Qed.

Lemma find_first_None (pat s : string) :
  JsString.find_first pat s = None → ∀ l r, s ≠ l +:+ pat +:+ r.
Proof.
  induction s as [|c s IH]; rewrite find_first_unfold;
    destruct (JsString.startsWith _ pat) eqn:Hsw; try discriminate.
  - intros _ l r Hl. destruct l; simpl in Hl.
    + rewrite Hl, startsWith_append in Hsw. discriminate.
    + discriminate.
  - destruct (JsString.find_first pat s) as [[b a]|]; [discriminate|].
    intros _ l r Hl. destruct l as [|x l]; simpl in Hl.
    + rewrite Hl, startsWith_append in Hsw. discriminate.
    + injection Hl as -> Hl. by eapply IH.
Qed.

Lemma append_inj_length (a b x y : string) :
  String.length a = String.length b → a +:+ x = b +:+ y → a = b ∧ x = y.
Proof.
  revert b. induction a as [|c a IH]; intros [|d b] Hlen H; try discriminate.
  - done.
  - simpl in *. injection H as -> H. injection Hlen as Hlen.
    destruct (IH b Hlen H) as [-> ->]. done.
Qed.

(** The earliest occurrence is the one [find_first] returns. *)
Lemma find_first_earliest (pat before after : string) :
  (∀ l r, before +:+ pat +:+ after = l +:+ pat +:+ r →
          (String.length before ≤ String.length l)%nat) →
  JsString.find_first pat (before +:+ pat +:+ after) = Some (before, after).
Proof.
  intros Hmin.
  destruct (JsString.find_first pat (before +:+ pat +:+ after))
    as [[b a]|] eqn:Hf.
  - destruct (find_first_Some _ _ _ _ Hf) as [Hs Hb].
    specialize (Hb before after eq_refl). specialize (Hmin b a Hs).
    destruct (append_inj_length before b (pat +:+ after) (pat +:+ a))
      as [-> Ha]; [lia|done|].
    destruct (append_inj_length pat pat after a) as [_ ->]; done.
  - by destruct (find_first_None _ _ Hf before after).
Qed.

(** A replacement text without dollar sign is inserted as it is. *)
Lemma getSubstitution_plain (matched before after template : string) :
  JsString.includes_char "$" template = false →
  JsString.getSubstitution matched before after template = template.
Proof.
  induction template as [|c r IH]; [reflexivity|].
  cbn [JsString.includes_char]. intros H.
  apply orb_false_iff in H as [Hc Hr].
  cbn [JsString.getSubstitution]. rewrite Hc. f_equal. by apply IH.
Qed.

Lemma replace_absent (template pat replacement : string) :
  (∀ l r, template ≠ l +:+ pat +:+ r) →
  JsString.replace template pat replacement = template.
Proof.
  intros Habs. unfold JsString.replace.
  destruct (JsString.find_first pat template) as [[b a]|] eqn:Hf; [|done].
  destruct (find_first_Some _ _ _ _ Hf) as [Hs _]. by destruct (Habs b a).
Qed.

Lemma replace_first_plain (before after pat replacement : string) :
  JsString.includes_char "$" replacement = false →
  (∀ l r, before +:+ pat +:+ after = l +:+ pat +:+ r →
          (String.length before ≤ String.length l)%nat) →
  JsString.replace (before +:+ pat +:+ after) pat replacement
  = before +:+ replacement +:+ after.
Proof.
  intros Hplain Hmin. unfold JsString.replace.
  rewrite find_first_earliest by done.
  by rewrite getSubstitution_plain.
Qed.

(** A replacement text with a dollar sign is not inserted as it is: [$&]
    stands for the matched text, so the placeholder is replaced by itself,
    and of two dollar signs one is left.  No run meets this case, because
    a version is a tag name of the registry and a tag name has no dollar
    sign. *)
Lemma replace_expands_dollar_patterns :
  entry_tags (matrixEntry "$&" "node"
                {| build_name := None; build_dockerfilePath := None;
                   build_contextPath := None; build_buildArgs := None;
                   build_tags := Some ["{version}"] |})
  = ["{version}"]
  ∧ ["{version}"] ≠ ["$&"]
  ∧ JsString.replace "{version}" "{version}" "1.0$$" = "1.0$".
Proof. split; [reflexivity|split; [discriminate|reflexivity]]. Qed.

(** C5 — Substitution replaces only the first occurrence of the
    placeholder [{version}] of each tag template by the version: a
    template without the placeholder is unchanged, and a template with two
    placeholders keeps the second.  The version is a tag name of the
    registry, made of letters, digits, underscores, periods and hyphens;
    the statement is for every version without dollar sign, and every
    text made of these characters is one.  For the tags [{version}] and
    [latest] and the version 2.3.0 the output tags are exactly 2.3.0 and
    latest. *)
Theorem tag_substitution_first_occurrence_only :
  (∀ version,
     Semver.all_chars tag_char version = true →
     JsString.includes_char "$" version = false)
  ∧ (∀ version,
     JsString.includes_char "$" version = false →
     (∀ template,
        (∀ l r, template ≠ l +:+ "{version}" +:+ r) →
        JsString.replace template "{version}" version = template)
     ∧ (∀ before after,
          (∀ l r, before +:+ "{version}" +:+ after = l +:+ "{version}" +:+ r →
                  (String.length before ≤ String.length l)%nat) →
          JsString.replace (before +:+ "{version}" +:+ after) "{version}" version
          = before +:+ version +:+ after)
     ∧ JsString.replace "{version}-{version}" "{version}" version
       = version +:+ "-{version}")
  ∧ (∀ version baseImage build,
       entry_tags (matrixEntry version baseImage build)
       = (λ template, JsString.replace template "{version}" version)
           <$> default ["{version}"] (build_tags build))
  ∧ (∀ baseImage build,
       build_tags build = Some ["{version}"; "latest"] →
       entry_tags (matrixEntry "2.3.0" baseImage build) = ["2.3.0"; "latest"]).
Proof.
  split; [|split; [|split]].
  - intros version. induction version as [|c version IH]; [done|].
    cbn [Semver.all_chars JsString.includes_char]. intros Hall.
    apply andb_true_iff in Hall as [Hc Hall]. rewrite (IH Hall), orb_false_r.
    destruct (Ascii.eqb c "$") eqn:Heq; [|done].
    apply Ascii.eqb_eq in Heq as ->. discriminate.
  - intros version Hplain. split; [|split].
    + intros template Habs. by apply replace_absent.
    + intros before after Hmin. by apply replace_first_plain.
    + apply (replace_first_plain EmptyString "-{version}" "{version}" version
               Hplain).
      intros l r _. simpl. lia.
  - reflexivity.
  - intros baseImage build Htags. cbn [matrixEntry entry_tags].
    rewrite Htags. reflexivity.
Qed.

Lemma tag_substitution_first_occurrence_only_witness :
  JsString.replace "v{version}-{version}" "{version}" "2.3.0" = "v2.3.0-{version}"
  ∧ entry_tags (matrixEntry "2.3.0" "node" sample_default_build)
    = ["2.3.0"; "latest"].
Proof.
  split.
  - apply (proj1 (proj2 (proj1 (proj2 tag_substitution_first_occurrence_only)
                           "2.3.0"
                           (proj1 tag_substitution_first_occurrence_only
                              "2.3.0" eq_refl)))
             "v" "-{version}").
    intros [|a l] r H; [discriminate|simpl; lia].
  - apply (proj2 (proj2 (proj2 tag_substitution_first_occurrence_only))).
    reflexivity.
Defined.

(** ** The cap [maxVersions] *)

(** The strategy branch of [filterVersions], before the cap. *)
Lemma filterVersions_cap (tags : list DockerTag) (strategy : string)
    (range : option string) (cap : option Z) :
  filterVersions tags strategy range cap =
  match filterVersions tags strategy range None with
  | Ok selected =>
      Ok match cap with
         | Some n => if 0 <? n then take (Z.to_nat n) selected else selected
         | None => selected
         end
  | Err e => Err e
  end.
Proof.
  unfold filterVersions.
  destruct (String.eqb strategy "latest"); [|
  destruct (String.eqb strategy "all"); [|
  destruct (String.eqb strategy "semver"); [
  destruct (JsString.falsy range)|]]];
    try reflexivity;
    destruct cap as [n|]; try reflexivity;
    destruct (0 <? n); try reflexivity;
    unfold JsArray.slice_to; by rewrite fmap_take.
Qed.

(** The checks of [validateAndNormalizeConfig] that come before the one
    on [maxVersions]. *)
Lemma strategy_checks_pass (config : BaseImageVersionerConfig) :
  JsString.or_default (strategy config) "latest" ∈ ["latest"; "all"; "semver"] →
  (JsString.or_default (strategy config) "latest" = "semver" →
   JsString.falsy (semverRange config) = false) →
  negb (bool_decide (JsString.or_default (strategy config) "latest"
                       ∈ ["latest"; "all"; "semver"])) = false
  ∧ String.eqb (JsString.or_default (strategy config) "latest") "semver"
    && JsString.falsy (semverRange config) = false.
Proof.
  intros Hs Hr. split.
  - by rewrite bool_decide_eq_true_2.
  - destruct (String.eqb_spec (JsString.or_default (strategy config) "latest")
                "semver") as [Heq|Hne]; [|done].
    by rewrite (Hr Heq).
Qed.

Lemma validateAndNormalizeConfig_maxVersions_below_one
    (config : BaseImageVersionerConfig) (n : Z) :
  maxVersions config = Some n → n < 1 →
  ∃ message, validateAndNormalizeConfig config = Err message.
Proof.
  intros Hmax Hn. unfold validateAndNormalizeConfig.
  destruct (negb _); [by eexists|].
  destruct (_ && _); [by eexists|].
  rewrite Hmax. apply Z.ltb_lt in Hn. rewrite Hn. by eexists.
Qed.

Lemma validateAndNormalizeConfig_Ok (config normalized : BaseImageVersionerConfig) :
  validateAndNormalizeConfig config = Ok normalized →
  maxVersions normalized = maxVersions config
  ∧ ∀ n, maxVersions config = Some n → 1 ≤ n.
Proof.
  unfold validateAndNormalizeConfig.
  destruct (negb _); [discriminate|].
  destruct (_ && _); [discriminate|].
  destruct (maxVersions config) as [n|] eqn:Hmax.
  - destruct (n <? 1) eqn:Hn; [discriminate|].
    intros [= <-]. split; [done|]. intros ? [= <-].
    apply Z.ltb_ge in Hn. lia.
  - intros [= <-]. split; [done|]. intros ? [=].
Qed.

(** C1, as stated, fails: a configuration with [maxVersions: 0] is not run
    without a cap, it is refused by the validation with the same message
    as [maxVersions: -1], and the run fails with that message. *)
Lemma maxVersions_zero_rejected_counterexample :
  validateAndNormalizeConfig
    {| strategy := Some "all"; semverRange := None; maxVersions := Some 0;
       builds := None |}
  = Err "maxVersions must be greater than 0"
  ∧ validateAndNormalizeConfig
      {| strategy := Some "all"; semverRange := None; maxVersions := Some (-1);
         builds := None |}
    = Err "maxVersions must be greater than 0"
  ∧ run "node" EmptyString EmptyString
      (Some {| strategy := Some "all"; semverRange := None;
               maxVersions := Some 0; builds := None |})
      (Ok [ {| name := "1.0.0"; lastUpdated := None |};
            {| name := "2.0.0"; lastUpdated := None |} ])
    = Err ("Failed to load configuration from "
           +:+ ".github/base-image-versioner.yml"
           +:+ ": maxVersions must be greater than 0").
Proof. repeat split; vm_compute; reflexivity. Qed.

(** C1 (amended) — In the selector, for every tag list and strategy, a
    positive [maxVersions] truncates the strategy-filtered result to its
    first [maxVersions] elements, in the order the strategy produced them,
    and a missing [maxVersions] imposes no cap, nor does a value the
    selector receives that is not positive.  The configuration validation
    refuses every given [maxVersions] below 1, so [maxVersions: 0] as well
    as [maxVersions: -1], and accepts a missing one and every value from 1
    on, which it hands on unchanged. *)
Theorem maxVersions_cap_and_validation :
  (∀ tags strategy range n,
     0 < n →
     match filterVersions tags strategy range None with
     | Ok selected =>
         filterVersions tags strategy range (Some n)
         = Ok (take (Z.to_nat n) selected)
         ∧ Z.of_nat (length (take (Z.to_nat n) selected)) ≤ n
     | Err e => filterVersions tags strategy range (Some n) = Err e
     end)
  ∧ (∀ tags strategy range n,
       n ≤ 0 →
       filterVersions tags strategy range (Some n)
       = filterVersions tags strategy range None)
  ∧ (∀ config n,
       maxVersions config = Some n → n < 1 →
       ∃ message, validateAndNormalizeConfig config = Err message)
  ∧ (∀ config n,
       JsString.or_default (strategy config) "latest"
         ∈ ["latest"; "all"; "semver"] →
       (JsString.or_default (strategy config) "latest" = "semver" →
        JsString.falsy (semverRange config) = false) →
       maxVersions config = Some n → n < 1 →
       validateAndNormalizeConfig config
       = Err "maxVersions must be greater than 0")
  ∧ (∀ config,
       JsString.or_default (strategy config) "latest"
         ∈ ["latest"; "all"; "semver"] →
       (JsString.or_default (strategy config) "latest" = "semver" →
        JsString.falsy (semverRange config) = false) →
       (∀ n, maxVersions config = Some n → 1 ≤ n) →
       ∃ normalized,
         validateAndNormalizeConfig config = Ok normalized
         ∧ maxVersions normalized = maxVersions config)
  ∧ (∀ config normalized,
       validateAndNormalizeConfig config = Ok normalized →
       maxVersions normalized = maxVersions config
       ∧ ∀ n, maxVersions config = Some n → 1 ≤ n).
Proof.
  split; [|split; [|split; [|split; [|split]]]].
  - intros tags strategy range n Hn.
    rewrite (filterVersions_cap _ _ _ (Some n)).
    destruct (filterVersions tags strategy range None) as [selected|e]; [|done].
    apply Z.ltb_lt in Hn as Hn'. rewrite Hn'. split; [done|].
    rewrite length_take. lia.
  - intros tags strategy range n Hn.
    rewrite (filterVersions_cap _ _ _ (Some n)).
    destruct (filterVersions tags strategy range None) as [selected|e]; [|done].
    apply Z.ltb_ge in Hn. by rewrite Hn.
  - exact validateAndNormalizeConfig_maxVersions_below_one.
  - intros config n Hs Hr Hmax Hn. unfold validateAndNormalizeConfig.
    destruct (strategy_checks_pass config Hs Hr) as [-> ->].
    rewrite Hmax. apply Z.ltb_lt in Hn. by rewrite Hn.
  - intros config Hs Hr Hmax. unfold validateAndNormalizeConfig.
    destruct (strategy_checks_pass config Hs Hr) as [-> ->].
    destruct (maxVersions config) as [n|] eqn:Hn.
    + specialize (Hmax n eq_refl).
      replace (n <? 1) with false by (symmetry; apply Z.ltb_ge; lia).
      by eexists.
    + by eexists.
  - exact validateAndNormalizeConfig_Ok.
Qed.

Lemma maxVersions_cap_and_validation_witness :
  (filterVersions
     [ {| name := "1.0.0"; lastUpdated := None |};
       {| name := "1.5.0"; lastUpdated := None |};
       {| name := "2.0.0"; lastUpdated := None |} ] "all" None (Some 2)
   = Ok (take 2 ["1.0.0"; "1.5.0"; "2.0.0"])
   ∧ Z.of_nat (length (take 2 ["1.0.0"; "1.5.0"; "2.0.0"])) ≤ 2)
  ∧ ∃ message,
      validateAndNormalizeConfig
        {| strategy := Some "all"; semverRange := None;
           maxVersions := Some 0; builds := None |} = Err message.
Proof.
  split.
  - exact (proj1 maxVersions_cap_and_validation
             [ {| name := "1.0.0"; lastUpdated := None |};
               {| name := "1.5.0"; lastUpdated := None |};
               {| name := "2.0.0"; lastUpdated := None |} ]
             "all" None 2 eq_refl).
  - apply (proj1 (proj2 (proj2 maxVersions_cap_and_validation)) _ 0);
      [reflexivity|lia].
Defined.

(** ** Sorting *)

Section SortFacts.
Context {A : Type} (comparefn : A → A → Z).

Lemma insert_Permutation (x : A) (l : list A) :
  JsArray.insert comparefn x l ≡ₚ x :: l.
Proof.
  induction l as [|y l IH]; simpl; [done|].
  destruct (0 <? comparefn x y); [|done].
  rewrite IH. apply Permutation_swap.
Qed.

Lemma sort_Permutation (l : list A) : JsArray.sort comparefn l ≡ₚ l.
Proof.
  induction l as [|x l IH]; simpl; [done|].
  change (JsArray.insert comparefn x (JsArray.sort comparefn l) ≡ₚ x :: l).
  by rewrite insert_Permutation, IH.
Qed.

Lemma sort_cons (x : A) (l : list A) :
  JsArray.sort comparefn (x :: l)
  = JsArray.insert comparefn x (JsArray.sort comparefn l).
Proof. reflexivity. Qed.

(** A list already in order is left as it is: elements that compare as
    equal keep their relative order. *)
Lemma sort_adjacent_ordered_id (l : list A) :
  adjacent_ordered comparefn l → JsArray.sort comparefn l = l.
Proof.
  induction l as [|x l IH]; [done|].
  intros Hord. rewrite sort_cons.
  destruct l as [|y l]; [done|].
  destruct Hord as [Hxy Hord]. rewrite (IH Hord). simpl.
  by replace (0 <? comparefn x y) with false by (symmetry; apply Z.ltb_ge; lia).
Qed.

Lemma insert_adjacent_ordered (x : A) (l : list A) :
  (∀ a b, comparefn b a = - comparefn a b) →
  adjacent_ordered comparefn l →
  adjacent_ordered comparefn (JsArray.insert comparefn x l).
Proof.
  intros Hanti. induction l as [|y l IH]; [done|].
  intros Hord. simpl.
  destruct (0 <? comparefn x y) eqn:Hxy.
  - apply Z.ltb_lt in Hxy.
    assert (Hl : adjacent_ordered comparefn l)
      by (destruct l; [done|apply Hord]).
    specialize (IH Hl).
    destruct l as [|z l]; simpl in *.
    + split; [|done]. rewrite Hanti. lia.
    + destruct (0 <? comparefn x z).
      * split; [apply Hord|apply IH].
      * split; [rewrite Hanti; lia|apply IH].
  - apply Z.ltb_ge in Hxy. split; [lia|done].
Qed.

(** For a comparison function that changes sign when its arguments are
    swapped, the outcome is in order. *)
Lemma sort_adjacent_ordered (l : list A) :
  (∀ a b, comparefn b a = - comparefn a b) →
  adjacent_ordered comparefn (JsArray.sort comparefn l).
Proof.
  intros Hanti. induction l as [|x l IH]; [done|].
  rewrite sort_cons. by apply insert_adjacent_ordered.
Qed.

(** When the comparison function orders the elements of the list by a key,
    largest first, the first element of the outcome has the largest key,
    and among the elements with that key it is the first of the input. *)
Lemma sort_head_max (key : A → Z) (l : list A) (first : A) :
  (∀ a b, a ∈ l → b ∈ l → comparefn a b = key b - key a) →
  head (JsArray.sort comparefn l) = Some first →
  ∃ pre post,
    l = pre ++ first :: post
    ∧ (∀ a, a ∈ pre → key a < key first)
    ∧ (∀ a, a ∈ post → key a ≤ key first).
Proof.
  revert first. induction l as [|x l IH]; intros first Hkey; [done|].
  rewrite sort_cons.
  assert (Hkey' : ∀ a b, a ∈ l → b ∈ l → comparefn a b = key b - key a)
    by (intros a b Ha Hb; apply Hkey; by right).
  destruct (JsArray.sort comparefn l) as [|h rest] eqn:Hsort.
  - intros [= <-].
    assert (l = []) as ->.
    { apply Permutation_nil_r. by rewrite <- (sort_Permutation l), Hsort. }
    exists [], []. split; [done|]. split; intros a Ha; by inversion Ha.
  - assert (Hh : h ∈ l).
    { rewrite <- (sort_Permutation l), Hsort. by left. }
    destruct (IH h Hkey' eq_refl) as (pre & post & Hl & Hpre & Hpost).
    simpl. rewrite (Hkey x h) by (by constructor).
    destruct (0 <? key h - key x) eqn:Hcmp.
    + apply Z.ltb_lt in Hcmp. intros [= <-].
      exists (x :: pre), post. split; [by rewrite Hl|]. split; [|done].
      intros a Ha. apply elem_of_cons in Ha as [->|Ha]; [lia|by apply Hpre].
    + apply Z.ltb_ge in Hcmp. intros [= <-].
      exists [], l. split; [done|]. split; [intros a Ha; by inversion Ha|].
      intros a Ha. rewrite Hl in Ha.
      apply elem_of_app in Ha as [Ha|Ha].
      * specialize (Hpre a Ha). lia.
      * apply elem_of_cons in Ha as [->|Ha]; [lia|].
        specialize (Hpost a Ha). lia.
Qed.

End SortFacts.

(** ** The [latest] strategy *)

Lemma compareLastUpdated_timestamp (a b : DockerTag) :
  compareLastUpdated a b =
  match timestamp a, timestamp b with
  | Some ta, Some tb => tb - ta
  | _, _ => 0
  end.
Proof.
  unfold compareLastUpdated, timestamp.
  destruct (JsString.falsy (lastUpdated a)), (JsString.falsy (lastUpdated b));
    cbn [orb]; try reflexivity.
  - by destruct (JsDate.getTime _).
  - by destruct (JsDate.getTime (default _ (lastUpdated b))),
               (JsDate.getTime (default _ (lastUpdated a))).
Qed.

Lemma compareLastUpdated_swap (a b : DockerTag) :
  compareLastUpdated b a = - compareLastUpdated a b.
Proof.
  rewrite !compareLastUpdated_timestamp.
  destruct (timestamp a), (timestamp b); lia.
Qed.

Lemma compareLastUpdated_tag_time (a b : DockerTag) :
  is_Some (timestamp a) → is_Some (timestamp b) →
  compareLastUpdated a b = tag_time b - tag_time a.
Proof.
  intros [ta Ha] [tb Hb]. rewrite compareLastUpdated_timestamp.
  unfold tag_time. by rewrite Ha, Hb.
Qed.

Lemma sort_head_is_Some {A} (comparefn : A → A → Z) (l : list A) :
  l ≠ [] → ∃ first rest, JsArray.sort comparefn l = first :: rest.
Proof.
  intros Hne. destruct (JsArray.sort comparefn l) as [|first rest] eqn:Hs.
  - destruct Hne. apply Permutation_nil_r.
    by rewrite <- (sort_Permutation comparefn l), Hs.
  - by eauto.
Qed.

(** When every comparison is a tie the list is in order as it stands. *)
Lemma ties_adjacent_ordered {A} (comparefn : A → A → Z) (l : list A) :
  (∀ a b, a ∈ l → b ∈ l → comparefn a b = 0) →
  adjacent_ordered comparefn l.
Proof.
  induction l as [|x l IH]; [done|]. intros Hties.
  destruct l as [|y l]; [done|]. split.
  - rewrite Hties; [lia|by left|by right; left].
  - apply IH. intros a b Ha Hb. apply Hties; by right.
Qed.

Lemma no_two_dated_ties (tags : list DockerTag) (a b : DockerTag) :
  no_two_dated tags → a ∈ tags → b ∈ tags → compareLastUpdated a b = 0.
Proof.
  intros Hno Ha Hb.
  apply list_elem_of_lookup_1 in Ha as [i Hi].
  apply list_elem_of_lookup_1 in Hb as [j Hj].
  destruct (decide (i = j)) as [->|Hij].
  - rewrite Hi in Hj. injection Hj as <-.
    rewrite compareLastUpdated_timestamp. destruct (timestamp a); lia.
  - unfold compareLastUpdated.
    destruct (Hno i j a b Hij Hi Hj) as [-> | ->];
      [done|by rewrite orb_true_r].
Qed.

(** A list in which no two tags have a [lastUpdated] is sorted as it
    stands. *)
Lemma sort_no_two_dated (tags : list DockerTag) :
  no_two_dated tags → JsArray.sort compareLastUpdated tags = tags.
Proof.
  intros Hno. apply sort_adjacent_ordered_id, ties_adjacent_ordered.
  intros a b. by apply no_two_dated_ties.
Qed.

(** When all tags have a time, the tag sorted first has the latest one and
    is the first such tag of the list. *)
Lemma sort_head_latest (tags : list DockerTag) (first : DockerTag) :
  (∀ tag, tag ∈ tags → is_Some (timestamp tag)) →
  head (JsArray.sort compareLastUpdated tags) = Some first →
  ∃ pre post,
    tags = pre ++ first :: post
    ∧ (∀ tag, tag ∈ pre → tag_time tag < tag_time first)
    ∧ (∀ tag, tag ∈ post → tag_time tag ≤ tag_time first).
Proof.
  intros Htime. apply (sort_head_max compareLastUpdated tag_time).
  intros a b Ha Hb. apply compareLastUpdated_tag_time; by apply Htime.
Qed.

(** C6, as stated, fails for a list that mixes tags with and without
    timestamp.  Of the tags 1.0.0 (2024-01-01), 1.1.0 (no [lastUpdated])
    and 1.2.0 (2024-06-01), in this order, every tag ties with its
    neighbour, the sort leaves the list as it is and the strategy selects
    1.0.0, although 1.2.0 carries the later timestamp.  No other choice
    meets the claim either: each of the three tags has a tag with a later
    time in the list, or stands behind a tag it ties with, so that no
    order of this list puts the later time first and keeps the ties in
    their original order.  The same holds of the tags 2.0.0 (2024-02-01),
    2.1.0 (2024-05-01), 2.2.0 (no [lastUpdated]) and 2.3.0 (2024-06-01):
    whichever of them a sort ranks first, 2.3.0 with the latest time
    included, which stands behind 2.2.0 and ties with it, is older than
    another tag or has been moved before a tag it ties with. *)
Lemma latest_strategy_mixed_timestamps_counterexample :
  filterVersions
    [sample_dated_1_0_0; sample_undated_1_1_0; sample_dated_1_2_0]
    "latest" None None
  = Ok ["1.0.0"]
  ∧ timestamp sample_dated_1_0_0 = Some 1704067200000
  ∧ timestamp sample_undated_1_1_0 = None
  ∧ timestamp sample_dated_1_2_0 = Some 1717200000000
  ∧ (∀ tag,
       tag ∈ [sample_dated_1_0_0; sample_undated_1_1_0; sample_dated_1_2_0] →
       outranked
         [sample_dated_1_0_0; sample_undated_1_1_0; sample_dated_1_2_0] tag)
  ∧ (∀ tag, tag ∈ sample_mixed_tags → outranked sample_mixed_tags tag).
Proof.
  split; [reflexivity|]. split; [reflexivity|]. split; [reflexivity|].
  split; [reflexivity|]. split; last first.
  { intros tag Htag. unfold sample_mixed_tags in Htag.
    apply elem_of_cons in Htag as [->|Htag]; [|
      apply elem_of_cons in Htag as [->|Htag]; [|
        apply elem_of_cons in Htag as [->|Htag]; [|
          apply elem_of_cons in Htag as [->|Htag];
            [|by apply elem_of_nil in Htag]]]].
    - left. eexists _, _, _. split; [by do 3 right; left|].
      split; [reflexivity|]. split; [reflexivity|]. vm_compute. reflexivity.
    - left. eexists _, _, _. split; [by do 3 right; left|].
      split; [reflexivity|]. split; [reflexivity|]. vm_compute. reflexivity.
    - right. eexists. split; [|by right].
      exists 0%nat, 2%nat. split; [lia|]. split; reflexivity.
    - right. exists {| name := "2.2.0"; lastUpdated := None |}.
      split; [|by left].
      exists 2%nat, 3%nat. split; [lia|]. split; reflexivity. }
  intros tag Htag.
  apply elem_of_cons in Htag as [->|Htag]; [|
    apply elem_of_cons in Htag as [->|Htag]; [|
      apply elem_of_cons in Htag as [->|Htag]; [|by apply elem_of_nil in Htag]]].
  - left. exists sample_dated_1_2_0, 1704067200000, 1717200000000.
    split; [by do 2 right; left|]. split; [reflexivity|].
    split; [reflexivity|lia].
  - right. exists sample_dated_1_0_0. split; [|by right].
    exists 0%nat, 1%nat. split; [lia|]. split; reflexivity.
  - right. exists sample_undated_1_1_0. split; [|by left].
    exists 1%nat, 2%nat. split; [lia|]. split; reflexivity.
Qed.

(** C6 (amended) — For every tag list the [latest] strategy returns at
    most one name, none only for the empty list, and a name it returns is
    the name of a tag of the list.  When all tags carry a timestamp, the
    tag selected has the largest one and is the first such tag of the
    list, so that tags with equal timestamps keep their original order.
    When no two tags have a [lastUpdated], every comparison is a tie and
    the tag selected is the first of the list.  For a list that mixes
    tags with and without timestamp nothing more is stated: there the
    choice is that of the sort of the engine. *)
Theorem latest_strategy_selects_first_ranked
    (tags : list DockerTag) (range : option string) (cap : option Z) :
  ∃ selected,
    filterVersions tags "latest" range cap = Ok selected
    ∧ (length selected ≤ 1)%nat
    ∧ (length selected = 0%nat ↔ tags = [])
    ∧ (∀ version, version ∈ selected → ∃ tag, tag ∈ tags ∧ name tag = version)
    ∧ ((∀ tag, tag ∈ tags → is_Some (timestamp tag)) →
       tags ≠ [] →
       ∃ pre first post,
         tags = pre ++ first :: post
         ∧ selected = [name first]
         ∧ (∀ tag, tag ∈ pre → tag_time tag < tag_time first)
         ∧ (∀ tag, tag ∈ post → tag_time tag ≤ tag_time first))
    ∧ (no_two_dated tags → selected = name <$> take 1 tags).
Proof.
  set (sorted := JsArray.sort compareLastUpdated tags).
  exists (name <$> take 1 sorted).
  assert (Hperm : sorted ≡ₚ tags) by apply sort_Permutation.
  split; [|split; [|split; [|split; [|split]]]].
  - rewrite filterVersions_cap.
    change (filterVersions tags "latest" range None)
      with (Ok (name <$> take 1 sorted) : result (list string)).
    destruct cap as [n|]; [|done]. destruct (0 <? n) eqn:Hn; [|done].
    apply Z.ltb_lt in Hn. f_equal. apply take_ge.
    rewrite length_fmap, length_take. lia.
  - rewrite length_fmap, length_take. lia.
  - rewrite length_fmap, length_take. split.
    + intros Hlen. apply Permutation_length in Hperm.
      destruct tags; [done|simpl in Hperm; lia].
    + intros ->. reflexivity.
  - intros version Hversion.
    apply list_elem_of_fmap in Hversion as (tag & -> & Htag).
    exists tag. split; [|done].
    rewrite <- Hperm. by apply (subseteq_take 1 sorted).
  - intros Htime Hne.
    destruct (sort_head_is_Some compareLastUpdated tags Hne)
      as (first & rest & Hsort).
    destruct (sort_head_latest tags first Htime) as (pre & post & Hsplit);
      [by rewrite Hsort|].
    exists pre, first, post. split; [apply Hsplit|].
    split; [|apply Hsplit]. unfold sorted. by rewrite Hsort.
  - intros Hno. unfold sorted. by rewrite sort_no_two_dated.
Qed.

Lemma latest_strategy_selects_first_ranked_witness :
  ∃ selected,
    filterVersions [sample_rc_tag; sample_stable_tag] "latest" None None
    = Ok selected
    ∧ ∃ pre first post,
        [sample_rc_tag; sample_stable_tag] = pre ++ first :: post
        ∧ selected = [name first]
        ∧ (∀ tag, tag ∈ pre → tag_time tag < tag_time first)
        ∧ (∀ tag, tag ∈ post → tag_time tag ≤ tag_time first).
Proof.
  destruct (latest_strategy_selects_first_ranked
              [sample_rc_tag; sample_stable_tag] None None)
    as (selected & Hrun & _ & _ & _ & Hmax & _).
  exists selected. split; [exact Hrun|].
  apply Hmax; [|discriminate].
  intros tag Htag.
  repeat (apply elem_of_cons in Htag as [->|Htag];
          [by vm_compute; eexists|]).
  by apply elem_of_nil in Htag.
Defined.

(** ** Fallback to the latest tag *)

Lemma mergeConfigWithVersionRange_builds (config : BaseImageVersionerConfig)
    (versionRange : string) :
  builds (mergeConfigWithVersionRange config versionRange) = builds config.
Proof.
  unfold mergeConfigWithVersionRange.
  destruct (Semver.non_empty versionRange); [|done].
  destruct (String.eqb versionRange "latest"); [done|].
  by destruct (String.eqb versionRange "all").
Qed.

Lemma getLatestTag_head (tags : list DockerTag) :
  getLatestTag tags = head (JsArray.sort compareLastUpdated tags).
Proof. by destruct tags. Qed.

Lemma buildMatrix_single (version baseImage : string)
    (config : BaseImageVersionerConfig) :
  buildMatrix [version] config baseImage
  = matrixEntry version baseImage <$> default [] (builds config).
Proof. rewrite buildMatrix_bind. cbn. apply app_nil_r. Qed.

(** The run when the configuration has loaded, the fetch has returned a
    non-empty list and no tag of it is classified as a version. *)
Lemma run_fallback (baseImage configPathInput versionRangeInput : string)
    (file : option BaseImageVersionerConfig)
    (config : BaseImageVersionerConfig) (allTags : list DockerTag)
    (latest : DockerTag) :
  loadConfig (JsString.or_default (Some configPathInput)
                ".github/base-image-versioner.yml") file = Ok config →
  filterSemanticVersionTags allTags = [] →
  getLatestTag allTags = Some latest →
  run baseImage configPathInput versionRangeInput file (Ok allTags)
  = Ok (matrixEntry (name latest) baseImage <$> default [] (builds config)).
Proof.
  intros Hload Hnone Hlatest. unfold run. rewrite Hload.
  destruct allTags as [|tag allTags]; [done|].
  rewrite Hnone, Hlatest, buildMatrix_single.
  destruct (Semver.non_empty versionRangeInput); [|done].
  by rewrite mergeConfigWithVersionRange_builds.
Qed.

Lemma run_config_error (baseImage configPathInput versionRangeInput : string)
    (file : option BaseImageVersionerConfig)
    (fetched : result (list DockerTag)) (e : string) :
  loadConfig (JsString.or_default (Some configPathInput)
                ".github/base-image-versioner.yml") file = Err e →
  run baseImage configPathInput versionRangeInput file fetched = Err e.
Proof. intros Hload. unfold run. by rewrite Hload. Qed.




(** ** Pipe-delimited ranges select unions *)

Lemma satisfies_caret_1_or_2 (version : string) :
  Semver.satisfies version "^1 || ^2"
  = Semver.satisfies version "^1" || Semver.satisfies version "^2".
Proof.
  unfold Semver.satisfies.
  replace (Semver.parseRange "^1 || ^2")
    with (Some [ default [] (Semver.parseSet "^1");
                 default [] (Semver.parseSet "^2") ])
    by (vm_compute; reflexivity).
  replace (Semver.parseRange "^1")
    with (Some [ default [] (Semver.parseSet "^1") ])
    by (vm_compute; reflexivity).
  replace (Semver.parseRange "^2")
    with (Some [ default [] (Semver.parseSet "^2") ])
    by (vm_compute; reflexivity).
  destruct (Semver.parse version) as [v|]; [|reflexivity].
  cbn [existsb]. by rewrite !orb_false_r.
Qed.

Lemma filterBySemverRange_elem (tags : list DockerTag) (range : string)
    (tag : DockerTag) :
  tag ∈ filterBySemverRange tags range ↔
  tag ∈ tags
  ∧ is_Some (Semver.valid (cleanVersionString (name tag)))
  ∧ Semver.satisfies (cleanVersionString (name tag)) range = true.
Proof.
  unfold filterBySemverRange. rewrite !list_elem_of_In, filter_In.
  destruct (Semver.valid _) as [normalized|].
  - split; [intros [Hin H]|intros (Hin & _ & H)]; by eauto.
  - split; [by intros [_ [=]]|by intros (_ & [? [=]] & _)].
Qed.

Lemma filterVersions_semver (tags : list DockerTag) (range : string) :
  Semver.non_empty range = true →
  filterVersions tags "semver" (Some range) None
  = Ok (name <$> filterBySemverRange tags range).
Proof. intros H. by destruct range. Qed.

(** C7 — For every tag list, the pipe-delimited range ^1|^2 is rewritten to
    the OR of its trimmed segments, and the semver strategy run with the
    rewritten range selects exactly the versions selected with ^1 or with
    ^2: the union of the two selections. *)
Theorem pipe_range_selects_union (tags : list DockerTag) :
  parsePipeDelimitedRange "^1|^2" = "^1 || ^2"
  ∧ parsePipeDelimitedRange " ^1 | ^2 " = "^1 || ^2"
  ∧ (∀ tag,
       tag ∈ filterBySemverRange tags (parsePipeDelimitedRange "^1|^2") ↔
       tag ∈ filterBySemverRange tags "^1"
       ∨ tag ∈ filterBySemverRange tags "^2")
  ∧ ∃ both first second,
      filterVersions tags "semver" (Some (parsePipeDelimitedRange "^1|^2")) None
      = Ok both
      ∧ filterVersions tags "semver" (Some (parsePipeDelimitedRange "^1")) None
        = Ok first
      ∧ filterVersions tags "semver" (Some (parsePipeDelimitedRange "^2")) None
        = Ok second
      ∧ ∀ version, version ∈ both ↔ version ∈ first ∨ version ∈ second.
Proof.
  assert (Htags : ∀ tag,
            tag ∈ filterBySemverRange tags "^1 || ^2" ↔
            tag ∈ filterBySemverRange tags "^1"
            ∨ tag ∈ filterBySemverRange tags "^2").
  { intros tag. rewrite !filterBySemverRange_elem, satisfies_caret_1_or_2.
    rewrite orb_true_iff. tauto. }
  split; [reflexivity|]. split; [reflexivity|].
  change (parsePipeDelimitedRange "^1|^2") with "^1 || ^2"%string.
  change (parsePipeDelimitedRange "^1") with "^1"%string.
  change (parsePipeDelimitedRange "^2") with "^2"%string.
  split; [exact Htags|].
  exists (name <$> filterBySemverRange tags "^1 || ^2"),
         (name <$> filterBySemverRange tags "^1"),
         (name <$> filterBySemverRange tags "^2").
  rewrite !filterVersions_semver by reflexivity.
  split; [done|]. split; [done|]. split; [done|].
  intros version. rewrite !list_elem_of_fmap. split.
  - intros (tag & -> & Htag). apply Htags in Htag as [Htag|Htag];
      [left|right]; by exists tag.
  - intros [(tag & -> & Htag)|(tag & -> & Htag)]; exists tag;
      (split; [done|]); apply Htags; by eauto.
Qed.

(** ** Normalization of version names *)

Lemma repeat_class_greedy {R} (p : ascii → bool) (d tail : string)
    (lo : nat) (hi : option nat) (pos : nat)
    (k : nat → string → option R) (x : R) :
  Semver.all_chars p d = true →
  starts_with_class p tail = false →
  (lo ≤ String.length d)%nat →
  (∀ n, hi = Some n → String.length d ≤ n)%nat →
  k (pos + String.length d)%nat tail = Some x →
  Regex.repeat_class p lo hi pos (d +:+ tail) k = Some x.
Proof.
  revert lo hi pos. induction d as [|c d IH]; intros lo hi pos Hd Ht Hlo Hhi Hk.
  - simpl in *. rewrite Nat.add_0_r in Hk.
    assert (lo = 0%nat) as -> by lia.
    destruct tail as [|c t]; simpl; [done|].
    simpl in Ht. by rewrite Ht.
  - simpl in Hd. apply andb_true_iff in Hd as [Hc Hd].
    cbn [String.append Regex.repeat_class]. rewrite Hc.
    assert (Hmore : match hi with Some O => false | _ => true end = true).
    { destruct hi as [[|n]|]; try done. specialize (Hhi 0%nat eq_refl). simpl in Hhi. lia. }
    rewrite Hmore. cbn [andb].
    rewrite (IH (Nat.pred lo) (Nat.pred <$> hi) (S pos)); try done.
    + simpl in Hlo. lia.
    + intros n Hn. destruct hi as [m|]; [|done]. injection Hn as <-.
      specialize (Hhi m eq_refl). simpl in Hhi. lia.
    + simpl in Hk. replace (S pos + String.length d)%nat with (pos + S (String.length d))%nat by lia. done.
Qed.

Lemma repeat_class_fail {R} (p : ascii → bool) (s : string)
    (lo : nat) (hi : option nat) (pos : nat) (k : nat → string → option R) :
  starts_with_class p s = false → (0 < lo)%nat →
  Regex.repeat_class p lo hi pos s k = None.
Proof.
  intros Hs Hlo. destruct lo as [|lo]; [lia|].
  destruct s as [|c s]; simpl; [done|]. simpl in Hs. by rewrite Hs.
Qed.

Lemma slice_to_append (a b : string) :
  JsString.slice_to (String.length a) (a +:+ b) = a.
Proof. induction a as [|c a IH]; simpl; [by destruct b|by rewrite IH]. Qed.

Lemma rmatch_group_number {R} (i : nat) (d tail : string) (pos : nat)
    (cs : Regex.captures) (k : nat → string → Regex.captures → option R) (x : R) :
  digits_1_16 d →
  starts_with_class Regex.digit tail = false →
  k (pos + String.length d)%nat tail ((i, d) :: cs) = Some x →
  Regex.rmatch (Regex.Group i coerce_number) pos (d +:+ tail) cs k = Some x.
Proof.
  intros [Hd [Hlo Hhi]] Ht Hk. cbn [Regex.rmatch coerce_number].
  apply repeat_class_greedy; try done.
  - by intros n [= <-].
  - replace (pos + String.length d - pos)%nat with (String.length d) by lia.
    by rewrite slice_to_append.
Qed.

Lemma rmatch_dot_number_take {R} (i : nat) (d tail : string) (pos : nat)
    (cs : Regex.captures) (k : nat → string → Regex.captures → option R) (x : R) :
  digits_1_16 d →
  starts_with_class Regex.digit tail = false →
  k (S pos + String.length d)%nat tail ((i, d) :: cs) = Some x →
  Regex.rmatch (dot_number i) pos (String "." (d +:+ tail)) cs k = Some x.
Proof.
  intros Hd Ht Hk.
  change (Regex.rmatch (dot_number i) pos (String "." (d +:+ tail)) cs k)
    with (match Regex.rmatch (Regex.Group i coerce_number) (S pos)
                  (d +:+ tail) cs
                  (λ pos' s' cs', Regex.rmatch Regex.Empty pos' s' cs' k) with
          | Some y => Some y
          | None => k pos (String "." (d +:+ tail)) cs
          end).
  by rewrite (rmatch_group_number i d tail (S pos) cs _ x).
Qed.

Lemma rmatch_dot_number_skip {R} (i : nat) (s : string) (pos : nat)
    (cs : Regex.captures) (k : nat → string → Regex.captures → option R) :
  no_dot_digit s = true →
  Regex.rmatch (dot_number i) pos s cs k = k pos s cs.
Proof.
  intros Hs.
  cbn [dot_number coerce_number Regex.opt Regex.seq foldr Regex.rmatch Regex.chr].
  destruct s as [|c s]; [done|]. cbn [no_dot_digit] in Hs.
  destruct (Ascii.eqb "." c); [|done]. cbn [andb] in Hs.
  apply negb_true_iff in Hs. by rewrite repeat_class_fail by (done || lia).
Qed.

Lemma COERCE_unfold :
  Semver.COERCE =
  Regex.Seq (Regex.Group 1 (Regex.Alt Regex.Bol (Regex.Class Regex.non_digit)))
            coerce_tail.
Proof. reflexivity. Qed.

Lemma rmatch_Seq {R} (r1 r2 : Regex.regex) (pos : nat) (s : string)
    (cs : Regex.captures) (k : nat → string → Regex.captures → option R) :
  Regex.rmatch (Regex.Seq r1 r2) pos s cs k
  = Regex.rmatch r1 pos s cs (λ pos' s' cs', Regex.rmatch r2 pos' s' cs' k).
Proof. reflexivity. Qed.

Lemma search_unfold (r : Regex.regex) (pos : nat) (s : string) :
  Regex.search r pos s =
  match Regex.rmatch r pos s [] (λ _ _ cs, Some cs) with
  | Some cs => Some cs
  | None =>
      match s with
      | EmptyString => None
      | String _ s' => Regex.search r (S pos) s'
      end
  end.
Proof. by destruct s. Qed.

(** The rest of the pattern after the numbers. *)
Lemma rmatch_coerce_rest (s : string) (pos : nat) (cs : Regex.captures) :
  starts_with_class Regex.digit s = false →
  Regex.rmatch (Regex.Seq coerce_end Regex.Empty) pos s cs (λ _ _ cs', Some cs')
  = Some cs.
Proof.
  intros Hs. destruct s as [|c s]; [done|]. cbn in *.
  unfold Regex.non_digit. by rewrite Hs.
Qed.

Lemma rmatch_coerce_tail_one (a rest : string) (pos : nat) (cs : Regex.captures) :
  digits_1_16 a →
  starts_with_class Regex.digit rest = false →
  no_dot_digit rest = true →
  Regex.rmatch coerce_tail pos (a +:+ rest) cs (λ _ _ cs', Some cs')
  = Some ((2%nat, a) :: cs).
Proof.
  intros Ha Hr Hdot. unfold coerce_tail. rewrite rmatch_Seq.
  apply rmatch_group_number; [done..|].
  rewrite rmatch_Seq, rmatch_dot_number_skip by done.
  rewrite rmatch_Seq, rmatch_dot_number_skip by done.
  by apply rmatch_coerce_rest.
Qed.

Lemma rmatch_coerce_tail_two (a b rest : string) (pos : nat)
    (cs : Regex.captures) :
  digits_1_16 a → digits_1_16 b →
  starts_with_class Regex.digit rest = false →
  no_dot_digit rest = true →
  Regex.rmatch coerce_tail pos (a +:+ String "." (b +:+ rest)) cs
    (λ _ _ cs', Some cs')
  = Some ((3%nat, b) :: (2%nat, a) :: cs).
Proof.
  intros Ha Hb Hr Hdot. unfold coerce_tail. rewrite rmatch_Seq.
  apply rmatch_group_number; [done..|].
  rewrite rmatch_Seq. apply rmatch_dot_number_take; [done..|].
  rewrite rmatch_Seq, rmatch_dot_number_skip by done.
  by apply rmatch_coerce_rest.
Qed.

Lemma rmatch_coerce_tail_three (a b c rest : string) (pos : nat)
    (cs : Regex.captures) :
  digits_1_16 a → digits_1_16 b → digits_1_16 c →
  starts_with_class Regex.digit rest = false →
  Regex.rmatch coerce_tail pos
    (a +:+ String "." (b +:+ String "." (c +:+ rest))) cs
    (λ _ _ cs', Some cs')
  = Some ((4%nat, c) :: (3%nat, b) :: (2%nat, a) :: cs).
Proof.
  intros Ha Hb Hc Hr. unfold coerce_tail. rewrite rmatch_Seq.
  apply rmatch_group_number; [done..|].
  rewrite rmatch_Seq. apply rmatch_dot_number_take; [done..|].
  rewrite rmatch_Seq. apply rmatch_dot_number_take; [done..|].
  by apply rmatch_coerce_rest.
Qed.

(** At the start of the text the pattern is tried first without a
    character in front of the numbers. *)
Lemma exec_COERCE_at_start (s : string) (cs : Regex.captures) :
  Regex.rmatch coerce_tail 0 s [(1%nat, EmptyString)] (λ _ _ cs', Some cs')
  = Some cs →
  Regex.exec Semver.COERCE s = Some cs.
Proof.
  intros H. unfold Regex.exec. rewrite search_unfold, COERCE_unfold, rmatch_Seq.
  cbn [Regex.rmatch Nat.eqb Nat.sub JsString.slice_to]. by rewrite H.
Qed.

(** *** Parsing what [coerce] builds *)

Lemma all_chars_app (p : ascii → bool) (a b : string) :
  Semver.all_chars p (a +:+ b) = Semver.all_chars p a && Semver.all_chars p b.
Proof. induction a as [|c a IH]; simpl; [done|]. by rewrite IH, andb_assoc. Qed.

Lemma all_chars_impl (p q : ascii → bool) (s : string) :
  (∀ c, p c = true → q c = true) →
  Semver.all_chars p s = true → Semver.all_chars q s = true.
Proof.
  intros Hpq. induction s as [|c s IH]; simpl; [done|].
  intros [Hc Hs]%andb_true_iff. by rewrite (Hpq c Hc), IH.
Qed.

Lemma digit_or_dot_not_space (c : ascii) :
  digit_or_dot c = true → negb (JsString.is_white_space c) = true.
Proof. by destruct c as [[] [] [] [] [] [] [] []]. Qed.

Lemma digit_or_dot_not_plus (c : ascii) :
  digit_or_dot c = true → negb (Ascii.eqb c "+") = true.
Proof. by destruct c as [[] [] [] [] [] [] [] []]. Qed.

Lemma digit_or_dot_not_dash (c : ascii) :
  digit_or_dot c = true → negb (Ascii.eqb c "-") = true.
Proof. by destruct c as [[] [] [] [] [] [] [] []]. Qed.

Lemma digit_not_dot (c : ascii) :
  Regex.digit c = true → negb (Ascii.eqb c ".") = true.
Proof. by destruct c as [[] [] [] [] [] [] [] []]. Qed.

Lemma digit_not_v (c : ascii) : Regex.digit c = true → Ascii.eqb "v" c = false.
Proof. by destruct c as [[] [] [] [] [] [] [] []]. Qed.

Lemma trimEnd_id (s : string) :
  Semver.all_chars (λ c, negb (JsString.is_white_space c)) s = true →
  JsString.trimEnd s = s.
Proof.
  induction s as [|c s IH]; [done|]. cbn [Semver.all_chars JsString.trimEnd].
  intros [Hc Hs]%andb_true_iff. rewrite (IH Hs).
  apply negb_true_iff in Hc. rewrite Hc. by destruct s.
Qed.

Lemma trim_id (s : string) :
  Semver.all_chars (λ c, negb (JsString.is_white_space c)) s = true →
  JsString.trim s = s.
Proof.
  intros Hs. unfold JsString.trim.
  replace (JsString.trimStart s) with s; [by apply trimEnd_id|].
  destruct s as [|c s]; [done|]. simpl in *.
  apply andb_true_iff in Hs as [Hc _]. apply negb_true_iff in Hc.
  by rewrite Hc.
Qed.

Lemma cut_absent (c : ascii) (s : string) :
  Semver.all_chars (λ x, negb (Ascii.eqb x c)) s = true →
  Semver.cut c s = (s, None).
Proof.
  induction s as [|a s IH]; [done|]. cbn [Semver.all_chars Semver.cut].
  intros [Ha Hs]%andb_true_iff. apply negb_true_iff in Ha.
  by rewrite Ha, (IH Hs).
Qed.

Lemma split_char_absent (c : ascii) (s : string) :
  Semver.all_chars (λ x, negb (Ascii.eqb x c)) s = true →
  JsString.split (String c EmptyString) s = [s].
Proof.
  induction s as [|a s IH]; [done|]. cbn [Semver.all_chars].
  intros [Ha Hs]%andb_true_iff. apply negb_true_iff in Ha.
  rewrite split_char_cons, (ascii_eqb_sym c a), Ha. by rewrite (IH Hs).
Qed.

Lemma split_char_app (c : ascii) (a rest : string) :
  Semver.all_chars (λ x, negb (Ascii.eqb x c)) a = true →
  JsString.split (String c EmptyString) (a +:+ String c rest)
  = a :: JsString.split (String c EmptyString) rest.
Proof.
  induction a as [|x a IH]; cbn [Semver.all_chars String.append].
  - intros _. by rewrite split_char_cons, Ascii.eqb_refl.
  - intros [Hx Ha]%andb_true_iff. apply negb_true_iff in Hx.
    rewrite split_char_cons, (ascii_eqb_sym c x), Hx. by rewrite (IH Ha).
Qed.

Lemma append_length (a b : string) :
  String.length (a +:+ b) = (String.length a + String.length b)%nat.
Proof. induction a as [|c a IH]; simpl; [done|]. by rewrite IH. Qed.

Lemma component_digits (s : string) (n : N) :
  Semver.component s = Some n →
  Semver.all_chars Regex.digit s = true ∧ (1 ≤ String.length s)%nat.
Proof.
  unfold Semver.component.
  destruct (Semver.numeric_identifier s) eqn:Hs; [|done]. intros _.
  destruct s as [|c s]; [done|]. cbn in Hs |- *.
  apply andb_true_iff in Hs as [[-> ->]%andb_true_iff _]. split; [done|lia].
Qed.

Lemma parse_dotted (a b c : string) (M m p : N) :
  Semver.component a = Some M →
  Semver.component b = Some m →
  Semver.component c = Some p →
  (String.length a + String.length b + String.length c ≤ 254)%nat →
  Semver.parse (a +:+ String "." (b +:+ String "." c))
  = Some {| Semver.major := M; Semver.minor := m; Semver.patch := p;
            Semver.prerelease := [] |}.
Proof.
  intros HM Hm Hp Hlen.
  destruct (component_digits _ _ HM) as [Ha Ha'].
  destruct (component_digits _ _ Hm) as [Hb _].
  destruct (component_digits _ _ Hp) as [Hc _].
  set (s := a +:+ String "." (b +:+ String "." c)).
  assert (Hs : Semver.all_chars digit_or_dot s = true).
  { unfold s. rewrite all_chars_app. cbn [Semver.all_chars].
    rewrite all_chars_app. cbn [Semver.all_chars].
    rewrite !(all_chars_impl Regex.digit digit_or_dot)
      by (done || (intros x Hx; unfold digit_or_dot; by rewrite Hx)).
    done. }
  unfold Semver.parse.
  replace (Semver.MAX_LENGTH <? String.length s)%nat with false.
  2:{ symmetry. apply Nat.ltb_ge. unfold s, Semver.MAX_LENGTH.
      rewrite append_length. cbn [String.length].
      rewrite append_length. cbn [String.length]. lia. }
  rewrite trim_id by (by apply (all_chars_impl digit_or_dot), Hs;
                      apply digit_or_dot_not_space).
  replace (JsString.startsWith s "v") with false.
  2:{ unfold s. destruct a as [|x a]; [simpl in Ha'; lia|].
      cbn [Semver.all_chars] in Ha. cbn [String.append JsString.startsWith].
      apply andb_true_iff in Ha as [Hx _]. by rewrite digit_not_v. }
  rewrite cut_absent by (by apply (all_chars_impl digit_or_dot), Hs;
                         apply digit_or_dot_not_plus).
  rewrite cut_absent by (by apply (all_chars_impl digit_or_dot), Hs;
                         apply digit_or_dot_not_dash).
  unfold s. change "."%string with (String "."%char EmptyString).
  rewrite split_char_app
    by (by apply (all_chars_impl Regex.digit), Ha; apply digit_not_dot).
  rewrite split_char_app
    by (by apply (all_chars_impl Regex.digit), Hb; apply digit_not_dot).
  rewrite split_char_absent
    by (by apply (all_chars_impl Regex.digit), Hc; apply digit_not_dot).
  by rewrite HM, Hm, Hp.
Qed.

(** Printing the value of a numeric component gives the component back. *)
Lemma component_roundtrip (s : string) (n : N) :
  Semver.component s = Some n → Semver.string_of_N n = s.
Proof.
  unfold Semver.component, Semver.N_of_string, Semver.string_of_N.
  destruct (Semver.numeric_identifier s) eqn:Hid; [|done].
  destruct (NilZero.uint_of_string s) as [d|] eqn:Hd; [|done].
  cbn [fmap option_fmap option_map].
  destruct (N.of_uint d <=? Semver.MAX_SAFE_INTEGER)%N; [|done].
  intros [= <-]. rewrite DecimalN.Unsigned.to_of.
  assert (Hnorm : Decimal.unorm d = d).
  { destruct s as [|c s]; [done|].
    cbn [Semver.numeric_identifier] in Hid.
    apply andb_true_iff in Hid as [_ Hlead].
    cbn [NilZero.uint_of_string NilEmpty.uint_of_string] in Hd.
    destruct (NilEmpty.uint_of_string s) as [d'|] eqn:Hd'; [|done].
    apply uint_of_char_spec in Hd.
    destruct Hd as [[-> ->]|Hd].
    - destruct s as [|c' s]; [|done]. by injection Hd' as <-.
    - by destruct Hd as [[_ ->]|[[_ ->]|[[_ ->]|[[_ ->]|[[_ ->]|[[_ ->]|
                        [[_ ->]|[[_ ->]|[_ ->]]]]]]]]]. }
  rewrite Hnorm. by apply NilZero.sus.
Qed.

Lemma format_dotted (a b c : string) (M m p : N) :
  Semver.component a = Some M →
  Semver.component b = Some m →
  Semver.component c = Some p →
  Semver.format {| Semver.major := M; Semver.minor := m; Semver.patch := p;
                   Semver.prerelease := [] |}
  = a +:+ String "." (b +:+ String "." c).
Proof.
  intros HM Hm Hp. unfold Semver.format. cbn [Semver.major Semver.minor Semver.patch Semver.prerelease].
  rewrite (component_roundtrip _ _ HM), (component_roundtrip _ _ Hm),
    (component_roundtrip _ _ Hp).
  simpl. by rewrite append_empty_r.
Qed.

Lemma startsWith_v_digits (a rest : string) :
  Semver.all_chars Regex.digit a = true → (1 ≤ String.length a)%nat →
  JsString.startsWith (a +:+ rest) "v" = false.
Proof.
  intros Hd Hpos. destruct a as [|x a]; [simpl in Hpos; lia|].
  cbn [Semver.all_chars] in Hd. cbn [String.append JsString.startsWith].
  apply andb_true_iff in Hd as [Hx _]. by rewrite digit_not_v.
Qed.

(** What [coerce] returns once the pattern has matched the numbers [a],
    [b] and [c] at the start of the text. *)
Lemma cleanVersionString_matched (name a b c : string) (M m p : N)
    (cs : Regex.captures) :
  JsString.startsWith name "v" = false →
  Regex.rmatch coerce_tail 0 name [(1%nat, EmptyString)] (λ _ _ cs', Some cs')
  = Some cs →
  Regex.capture 2 cs = Some a →
  default "0" (Regex.capture 3 cs) = b →
  default "0" (Regex.capture 4 cs) = c →
  Semver.component a = Some M →
  Semver.component b = Some m →
  Semver.component c = Some p →
  (String.length a + String.length b + String.length c ≤ 254)%nat →
  cleanVersionString name = a +:+ String "." (b +:+ String "." c).
Proof.
  intros Hv Hmatch Ha Hb Hc HM Hm Hp Hlen.
  unfold cleanVersionString, Semver.coerce.
  rewrite Hv, (exec_COERCE_at_start _ _ Hmatch), Ha, Hb, Hc.
  change (a +:+ "." +:+ b +:+ "." +:+ c)
    with (a +:+ String "." (b +:+ String "." c)).
  rewrite (parse_dotted a b c M m p) by done.
  by apply format_dotted.
Qed.

Lemma cleanVersionString_one (a rest : string) (M : N) :
  Semver.component a = Some M → (String.length a ≤ 16)%nat →
  starts_with_class Regex.digit rest = false →
  no_dot_digit rest = true →
  cleanVersionString (a +:+ rest) = a +:+ ".0.0".
Proof.
  intros HM Hlen Hr Hdot. destruct (component_digits _ _ HM) as [Hd Hpos].
  apply (cleanVersionString_matched _ a "0" "0" M 0 0
           [(2%nat, a); (1%nat, EmptyString)]); try done.
  - by apply startsWith_v_digits.
  - by apply rmatch_coerce_tail_one.
  - simpl. lia.
Qed.

Lemma cleanVersionString_two (a b rest : string) (M m : N) :
  Semver.component a = Some M → (String.length a ≤ 16)%nat →
  Semver.component b = Some m → (String.length b ≤ 16)%nat →
  starts_with_class Regex.digit rest = false →
  no_dot_digit rest = true →
  cleanVersionString (a +:+ String "." (b +:+ rest))
  = a +:+ String "." (b +:+ ".0").
Proof.
  intros HM Hlen Hm Hlen' Hr Hdot.
  destruct (component_digits _ _ HM) as [Hd Hpos].
  destruct (component_digits _ _ Hm) as [Hd' Hpos'].
  apply (cleanVersionString_matched _ a b "0" M m 0
           [(3%nat, b); (2%nat, a); (1%nat, EmptyString)]); try done.
  - by apply startsWith_v_digits.
  - by apply rmatch_coerce_tail_two.
  - simpl. lia.
Qed.

Lemma cleanVersionString_three (a b c rest : string) (M m p : N) :
  Semver.component a = Some M → (String.length a ≤ 16)%nat →
  Semver.component b = Some m → (String.length b ≤ 16)%nat →
  Semver.component c = Some p → (String.length c ≤ 16)%nat →
  starts_with_class Regex.digit rest = false →
  cleanVersionString (a +:+ String "." (b +:+ String "." (c +:+ rest)))
  = a +:+ String "." (b +:+ String "." c).
Proof.
  intros HM Hlen Hm Hlen' Hp Hlen'' Hr.
  destruct (component_digits _ _ HM) as [Hd Hpos].
  destruct (component_digits _ _ Hm) as [Hd' Hpos'].
  destruct (component_digits _ _ Hp) as [Hd'' Hpos''].
  apply (cleanVersionString_matched _ a b c M m p
           [(4%nat, c); (3%nat, b); (2%nat, a); (1%nat, EmptyString)]);
    try done.
  - by apply startsWith_v_digits.
  - by apply rmatch_coerce_tail_three.
  - lia.
Qed.

(** A text without digit is not coerced. *)
Lemma rmatch_coerce_tail_fail {R} (s : string) (pos : nat)
    (cs : Regex.captures) (k : nat → string → Regex.captures → option R) :
  starts_with_class Regex.digit s = false →
  Regex.rmatch coerce_tail pos s cs k = None.
Proof.
  intros Hs. unfold coerce_tail. rewrite rmatch_Seq.
  cbn [Regex.rmatch coerce_number]. by apply repeat_class_fail; [|lia].
Qed.

Lemma any_char_starts_with (p : ascii → bool) (s : string) :
  Semver.any_char p s = false → starts_with_class p s = false.
Proof.
  destruct s as [|c s]; [done|]. cbn [Semver.any_char starts_with_class].
  by intros [-> _]%orb_false_iff.
Qed.

Lemma search_COERCE_no_digit (s : string) (pos : nat) :
  Semver.any_char Regex.digit s = false →
  Regex.search Semver.COERCE pos s = None.
Proof.
  revert pos. induction s as [|c s IH]; intros pos Hs.
  - rewrite search_unfold, COERCE_unfold, rmatch_Seq.
    cbn [Regex.rmatch]. destruct (pos =? 0)%nat; [|done].
    by rewrite rmatch_coerce_tail_fail.
  - pose proof (any_char_starts_with _ _ Hs) as Hstart.
    cbn [Semver.any_char] in Hs. apply orb_false_iff in Hs as [Hc Hs].
    rewrite search_unfold, COERCE_unfold, rmatch_Seq.
    cbn [Regex.rmatch].
    rewrite (rmatch_coerce_tail_fail (String c s)) by done.
    rewrite (rmatch_coerce_tail_fail s) by (by apply any_char_starts_with).
    rewrite <- COERCE_unfold.
    destruct (pos =? 0)%nat, (Regex.non_digit c); by apply IH.
Qed.

Lemma cleanVersionString_no_digit (name : string) :
  Semver.any_char Regex.digit name = false →
  cleanVersionString name
  = if JsString.startsWith name "v" then JsString.slice_from 1 name else name.
Proof.
  intros Hs. unfold cleanVersionString, Semver.coerce, Regex.exec.
  rewrite search_COERCE_no_digit; [done|].
  destruct name as [|c name]; [done|]. cbn [JsString.startsWith].
  destruct (Ascii.eqb "v" c); cbn [andb]; [|done].
  cbn [Semver.any_char] in Hs. by apply orb_false_iff in Hs as [_ Hs].
Qed.

(** C2, as stated, fails: the name 1.2.3-alpine is already a strict
    version with a prerelease part ([valid] returns it as it is), and its
    normalization is 1.2.3, without the prerelease part. *)
Lemma cleanVersionString_drops_prerelease_counterexample :
  Semver.valid "1.2.3-alpine" = Some "1.2.3-alpine"
  ∧ cleanVersionString "1.2.3-alpine" = "1.2.3"
  ∧ cleanVersionString "v1.2.3-alpine" = "1.2.3".
Proof. repeat split; vm_compute; reflexivity. Qed.

(** C2 (amended) — Normalization strips one leading v and then coerces:
    when the name starts with one to three dot-separated numbers (written
    without leading zeros, at most sixteen digits each and not above the
    largest safe integer), the result is exactly these numbers as
    MAJOR.MINOR.PATCH, a missing minor or patch being filled with zero (1
    gives 1.0.0, 1.2 gives 1.2.0), and whatever follows the numbers, a
    prerelease suffix included, is dropped (1.2.3-alpine gives 1.2.3); a
    strict MAJOR.MINOR.PATCH name is left unchanged and is a valid version.
    A name without any digit is returned with only the v stripped. *)
Theorem cleanVersionString_coerces_to_three_numbers :
  (∀ name,
     JsString.startsWith name "v" = false →
     cleanVersionString (String "v" name) = cleanVersionString name)
  ∧ (∀ a rest M,
       Semver.component a = Some M → (String.length a ≤ 16)%nat →
       starts_with_class Regex.digit rest = false →
       no_dot_digit rest = true →
       cleanVersionString (a +:+ rest) = a +:+ ".0.0")
  ∧ (∀ a b rest M m,
       Semver.component a = Some M → (String.length a ≤ 16)%nat →
       Semver.component b = Some m → (String.length b ≤ 16)%nat →
       starts_with_class Regex.digit rest = false →
       no_dot_digit rest = true →
       cleanVersionString (a +:+ "." +:+ b +:+ rest)
       = a +:+ "." +:+ b +:+ ".0")
  ∧ (∀ a b c rest M m p,
       Semver.component a = Some M → (String.length a ≤ 16)%nat →
       Semver.component b = Some m → (String.length b ≤ 16)%nat →
       Semver.component c = Some p → (String.length c ≤ 16)%nat →
       starts_with_class Regex.digit rest = false →
       cleanVersionString (a +:+ "." +:+ b +:+ "." +:+ c +:+ rest)
       = a +:+ "." +:+ b +:+ "." +:+ c
       ∧ Semver.valid (a +:+ "." +:+ b +:+ "." +:+ c)
         = Some (a +:+ "." +:+ b +:+ "." +:+ c))
  ∧ (∀ name,
       Semver.any_char Regex.digit name = false →
       cleanVersionString name
       = if JsString.startsWith name "v" then JsString.slice_from 1 name
         else name)
  ∧ cleanVersionString "1" = "1.0.0"
  ∧ cleanVersionString "1.2" = "1.2.0"
  ∧ cleanVersionString "v1.2.3" = "1.2.3"
  ∧ cleanVersionString "1.2.3-alpine" = "1.2.3".
Proof.
  split; [|split; [|split; [|split; [|split]]]].
  - intros name Hv. unfold cleanVersionString.
    change (JsString.startsWith (String "v" name) "v") with true.
    cbn [JsString.slice_from]. by rewrite Hv.
  - intros a rest M. apply cleanVersionString_one.
  - intros a b rest M m. apply cleanVersionString_two.
  - intros a b c rest M m p HM Hlen Hm Hlen' Hp Hlen'' Hr.
    split; [by apply (cleanVersionString_three a b c rest M m p)|].
    unfold Semver.valid.
    change (a +:+ "." +:+ b +:+ "." +:+ c)
      with (a +:+ String "." (b +:+ String "." c)).
    rewrite (parse_dotted a b c M m p) by (done || lia).
    cbn [fmap option_fmap option_map]. f_equal. by apply format_dotted.
  - exact cleanVersionString_no_digit.
  - repeat split; vm_compute; reflexivity.
Qed.

Lemma cleanVersionString_coerces_to_three_numbers_witness :
  cleanVersionString "18.20" = "18.20.0"
  ∧ cleanVersionString "1.2.3-alpine3.18" = "1.2.3".
Proof.
  split.
  - exact (proj1 (proj2 (proj2 cleanVersionString_coerces_to_three_numbers))
             "18" "20" EmptyString 18%N 20%N
             eq_refl ltac:(simpl; lia) eq_refl ltac:(simpl; lia)
             eq_refl eq_refl).
  - exact (proj1 (proj1 (proj2 (proj2 (proj2
                    cleanVersionString_coerces_to_three_numbers)))
                    "1" "2" "3" "-alpine3.18" 1%N 2%N 3%N
                    eq_refl ltac:(simpl; lia) eq_refl ltac:(simpl; lia)
                    eq_refl ltac:(simpl; lia) eq_refl)).
Defined.

(** ** Scenarios *)

(** The tags 1.0.0, 1.5.0, 2.0.0 and latest with the strategy [semver] and
    the range ^1 give a matrix of two entries, for 1.0.0 and 1.5.0. *)
Example run_semver_caret_scenario :
  match
    run "verdaccio/verdaccio" EmptyString EmptyString
      (Some {| strategy := Some "semver"; semverRange := Some "^1";
               maxVersions := None;
               builds := Some
                 [ {| build_name := Some "default";
                      build_dockerfilePath := None; build_contextPath := None;
                      build_buildArgs := None;
                      build_tags := Some ["{version}"] |} ] |})
      (Ok [ {| name := "1.0.0"; lastUpdated := None |};
            {| name := "1.5.0"; lastUpdated := None |};
            {| name := "2.0.0"; lastUpdated := None |};
            {| name := "latest"; lastUpdated := None |} ])
  with
  | Ok matrix =>
      (λ entry, (entry_version entry, entry_name entry, entry_tags entry))
        <$> matrix
      = [ ("1.0.0", "default", ["1.0.0"]); ("1.5.0", "default", ["1.5.0"]) ]
  | Err _ => False
  end.
Proof. vm_compute. reflexivity. Qed.

(** The range override ^1|^2 on the default configuration: the names are
    kept as published, in the order of the source. *)
Example run_pipe_override_scenario :
  match
    run "node" EmptyString "^1|^2" None
      (Ok [ {| name := "3.1.0"; lastUpdated := None |};
            {| name := "2.0.0"; lastUpdated := None |};
            {| name := "v1.5"; lastUpdated := None |};
            {| name := "1.0.0-alpine"; lastUpdated := None |};
            {| name := "latest"; lastUpdated := None |} ])
  with
  | Ok matrix =>
      entry_version <$> matrix = ["2.0.0"; "v1.5"; "1.0.0-alpine"]
  | Err _ => False
  end.
Proof. vm_compute. reflexivity. Qed.

(** ** Tag source client *)

Lemma count_char_includes (c : ascii) (s : string) :
  JsString.includes_char c s = false ↔ JsString.count_char c s = O.
Proof.
  induction s as [|a s IH]; simpl; [done|].
  destruct (Ascii.eqb a c); simpl; [split; [done|lia]|done].
Qed.

(** X1 — A repository name without slash is an official image and is
    looked up in the namespace [library]; a name with a slash is used as it
    is. *)
Theorem buildDockerHubUrl_namespace (imageName : string) :
  buildDockerHubUrl imageName
  = "https://hub.docker.com/v2/repositories/"
      +:+ (if JsString.includes_char "/" imageName then imageName
           else "library/" +:+ imageName)
      +:+ "/tags?page_size=100".
Proof.
  unfold buildDockerHubUrl.
  change "/"%string with (String "/"%char EmptyString).
  pose proof (split_char_length "/" imageName) as Hlen.
  pose proof (split_char_join "/" imageName) as Hjoin.
  destruct (JsString.includes_char "/" imageName) eqn:Hinc.
  - destruct (JsString.count_char "/" imageName) as [|n] eqn:Hcount.
    + apply count_char_includes in Hcount. congruence.
    + rewrite Hlen. reflexivity.
  - apply count_char_includes in Hinc. rewrite Hinc in Hlen.
    destruct (JsString.split _ imageName) as [|part [|part' parts]];
      try discriminate.
    simpl in Hjoin. subst part. reflexivity.
Qed.

Lemma buildDockerHubUrl_truthy (imageName : string) :
  JsString.falsy (Some (buildDockerHubUrl imageName)) = false.
Proof. reflexivity. Qed.

(** The requests of the loop: the ones made before, then at most
    [remaining] new ones. *)
Lemma fetchPages_requested (client : HttpClient) (remaining : nat)
    (requested : list string) (url : string) (tags : list DockerTag) :
  ∃ new,
    (fetchPages client remaining requested url tags).1 = requested ++ new
    ∧ (length new ≤ remaining)%nat
    ∧ (JsString.falsy (Some url) = false → (0 < remaining)%nat →
       head new = Some url).
Proof.
  revert requested url tags.
  induction remaining as [|n IH]; intros requested url tags.
  - exists []. rewrite app_nil_r. split; [done|]. split; [done|]. lia.
  - cbn [fetchPages]. destruct (JsString.falsy (Some url)) eqn:Hurl.
    + exists []. rewrite app_nil_r. split; [done|]. split; [simpl; lia|done].
    + destruct (client requested url) as [[response|]|message].
      * destruct (IH (requested ++ [url])
                     (JsString.or_default (hub_next response) EmptyString)
                     (tags ++ activeTags (hub_results response)))
          as (new & -> & Hlen & _).
        exists (url :: new). rewrite <- app_assoc. split; [done|].
        split; [simpl; lia|done].
      * exists [url]. split; [done|]. split; [simpl; lia|done].
      * exists [url]. split; [done|]. split; [simpl; lia|done].
Qed.

Lemma fetchDockerTags_requested (client : HttpClient) (imageName : string) :
  (fetchDockerTags client imageName).1
  = (fetchPages client 100 [] (buildDockerHubUrl imageName) []).1.
Proof.
  unfold fetchDockerTags.
  by destruct (fetchPages client 100 [] _ []) as [requested [tags|message]].
Qed.

(** X2 — Whatever the registry answers, [fetchDockerTags] makes at least
    one and at most 100 requests, and the first one goes to the address
    built from the image name. *)
Theorem fetchDockerTags_request_bound (client : HttpClient)
    (imageName : string) :
  (1 ≤ length (fetchDockerTags client imageName).1 ≤ 100)%nat
  ∧ head (fetchDockerTags client imageName).1
    = Some (buildDockerHubUrl imageName).
Proof.
  rewrite fetchDockerTags_requested.
  destruct (fetchPages_requested client 100 [] (buildDockerHubUrl imageName) [])
    as (new & -> & Hlen & Hhead).
  specialize (Hhead (buildDockerHubUrl_truthy imageName) ltac:(lia)).
  rewrite app_nil_l. split; [|done].
  destruct new; [done|]. simpl in *. lia.
Qed.

(** The loop on a registry whose every answer is a page with a cursor. *)
Lemma fetchPages_endless (client : HttpClient) (remaining : nat)
    (requested : list string) (url : string) (tags : list DockerTag) :
  (∀ requested url, ∃ page,
     client requested url = Ok (Some page)
     ∧ JsString.falsy (hub_next page) = false) →
  JsString.falsy (Some url) = false →
  ∃ new found,
    fetchPages client remaining requested url tags
    = (requested ++ new, Ok (tags ++ found))
    ∧ length new = remaining.
Proof.
  intros Hclient. revert requested url tags.
  induction remaining as [|n IH]; intros requested url tags Hurl.
  - exists [], []. by rewrite !app_nil_r.
  - cbn [fetchPages]. rewrite Hurl.
    destruct (Hclient requested url) as (page & -> & Hnext).
    destruct (IH (requested ++ [url])
                 (JsString.or_default (hub_next page) EmptyString)
                 (tags ++ activeTags (hub_results page)))
      as (new & found & -> & Hlen).
    { destruct (hub_next page) as [[|c next]|]; done. }
    exists (url :: new), (activeTags (hub_results page) ++ found).
    rewrite <- !app_assoc. split; [done|]. simpl. by rewrite Hlen.
Qed.

(** X3 — Against a registry that never stops paginating (every answer is
    a page with a cursor), [fetchDockerTags] stops after exactly 100
    requests and returns the tags collected so far; it does not fail. *)
Theorem fetchDockerTags_stops_after_100_pages (client : HttpClient)
    (imageName : string) :
  (∀ requested url, ∃ page,
     client requested url = Ok (Some page)
     ∧ JsString.falsy (hub_next page) = false) →
  ∃ requested tags,
    fetchDockerTags client imageName = (requested, Ok tags)
    ∧ length requested = 100%nat.
Proof.
  intros Hclient. unfold fetchDockerTags.
  destruct (fetchPages_endless client 100 [] (buildDockerHubUrl imageName) []
              Hclient (buildDockerHubUrl_truthy imageName))
    as (new & found & -> & Hlen).
  by exists new, found.
Qed.

Lemma fetchDockerTags_stops_after_100_pages_witness :
  ∃ requested tags,
    fetchDockerTags sample_endless_client "node" = (requested, Ok tags)
    ∧ length requested = 100%nat.
Proof.
  apply fetchDockerTags_stops_after_100_pages.
  intros requested url. exists sample_page_1. split; reflexivity.
Defined.

Lemma activeTags_elem (results : list HubTag) (tag : DockerTag) :
  tag ∈ activeTags results ↔
  ∃ entry,
    entry ∈ results ∧ hub_tag_status entry = "active"
    ∧ tag = {| name := hub_name entry; lastUpdated := hub_last_updated entry |}.
Proof.
  unfold activeTags. rewrite list_elem_of_fmap. split.
  - intros (entry & -> & Hentry).
    apply list_elem_of_In, filter_In in Hentry as [Hin Hactive].
    exists entry. split; [by apply list_elem_of_In|].
    split; [by apply String.eqb_eq|done].
  - intros (entry & Hin & Hactive & ->). exists entry. split; [done|].
    apply list_elem_of_In, filter_In. split; [by apply list_elem_of_In|].
    by apply String.eqb_eq.
Qed.

Lemma fetchPages_sound (client : HttpClient) (remaining : nat)
    (requested : list string) (url : string) (tags found : list DockerTag)
    (requests : list string) :
  fetchPages client remaining requested url tags = (requests, Ok found) →
  ∀ tag, tag ∈ found → tag ∈ tags ∨ served_active client requests tag.
Proof.
  revert requested url tags.
  induction remaining as [|n IH]; intros requested url tags.
  - intros [= <- <-] tag Htag. by left.
  - cbn [fetchPages]. destruct (JsString.falsy (Some url)).
    + intros [= <- <-] tag Htag. by left.
    + destruct (client requested url) as [[page|]|message] eqn:Hclient;
        [|discriminate..].
      intros Hfetch tag Htag.
      destruct (IH _ _ _ Hfetch tag Htag) as [Hold|Hnew]; [|by right].
      apply elem_of_app in Hold as [Hold|Hpage]; [by left|right].
      apply activeTags_elem in Hpage as (entry & Hentry & Hactive & ->).
      exists requested, url, page, entry. split; [|done].
      destruct (fetchPages_requested client n (requested ++ [url])
                  (JsString.or_default (hub_next page) EmptyString)
                  (tags ++ activeTags (hub_results page)))
        as (new & Hreq & _).
      rewrite Hfetch in Hreq. simpl in Hreq. rewrite Hreq.
      apply elem_of_app. left. apply elem_of_app. right. by left.
Qed.

(** X4 — Every tag that [fetchDockerTags] returns is an entry with status
    active of a page the registry answered to one of the requests made,
    with the name and the update time of that entry. *)
Theorem fetchDockerTags_only_active_tags (client : HttpClient)
    (imageName : string) (requests : list string) (tags : list DockerTag) :
  fetchDockerTags client imageName = (requests, Ok tags) →
  ∀ tag, tag ∈ tags → served_active client requests tag.
Proof.
  unfold fetchDockerTags.
  destruct (fetchPages client 100 [] _ []) as [requested [found|message]]
    eqn:Hfetch; [|discriminate].
  intros [= <- <-] tag Htag.
  destruct (fetchPages_sound _ _ _ _ _ _ _ Hfetch tag Htag) as [Hnil|Hserved];
    [by apply elem_of_nil in Hnil|done].
Qed.

Lemma fetchDockerTags_only_active_tags_witness :
  served_active sample_client
    [ buildDockerHubUrl "verdaccio/verdaccio"; "https://hub.docker.com/page2" ]
    {| name := "1.0.0"; lastUpdated := Some "2024-01-01" |}.
Proof.
  apply (fetchDockerTags_only_active_tags sample_client "verdaccio/verdaccio"
           _ _ eq_refl).
  apply elem_of_cons. right. apply elem_of_cons. by left.
Defined.

Lemma fetchPages_serves (client : HttpClient) (remaining : nat)
    (requested : list string) (url : string) (tags : list DockerTag)
    (pages : list DockerHubTagsResponse) :
  serves client requested url pages →
  ∃ new,
    fetchPages client remaining requested url tags
    = (requested ++ new,
       Ok (tags ++ (take remaining pages ≫= λ page,
                      activeTags (hub_results page))))
    ∧ length new = (remaining `min` length pages)%nat.
Proof.
  revert requested url tags pages.
  induction remaining as [|n IH]; intros requested url tags pages Hserves.
  - exists []. by rewrite !app_nil_r.
  - cbn [fetchPages]. destruct pages as [|page rest]; cbn [serves] in Hserves.
    + rewrite Hserves. exists []. by rewrite !app_nil_r.
    + destruct Hserves as (-> & -> & Hrest).
      destruct (IH _ _ (tags ++ activeTags (hub_results page)) _ Hrest)
        as (new & -> & Hlen).
      exists (url :: new). rewrite <- !app_assoc. split; [done|].
      simpl. by rewrite Hlen.
Qed.

(** X5 — When the registry serves a chain of pages linked by their
    cursors, [fetchDockerTags] requests one page after the other and
    returns the active tags of the pages, page by page and within a page
    in the order of the page; of a chain longer than 100 pages only the
    first 100 pages are requested and returned. *)
Theorem fetchDockerTags_all_pages_in_order (client : HttpClient)
    (imageName : string) (pages : list DockerHubTagsResponse) :
  serves client [] (buildDockerHubUrl imageName) pages →
  ∃ requests,
    fetchDockerTags client imageName
    = (requests,
       Ok (take 100 pages ≫= λ page, activeTags (hub_results page)))
    ∧ length requests = (100 `min` length pages)%nat.
Proof.
  intros Hserves. unfold fetchDockerTags.
  destruct (fetchPages_serves client 100 [] _ [] pages Hserves)
    as (new & -> & Hlen).
  by exists new.
Qed.

Lemma fetchDockerTags_all_pages_in_order_witness :
  ∃ requests,
    fetchDockerTags sample_client "verdaccio/verdaccio"
    = (requests,
       Ok (take 100 [sample_page_1; sample_page_2]
             ≫= λ page, activeTags (hub_results page)))
    ∧ length requests = (100 `min` 2)%nat.
Proof.
  apply (fetchDockerTags_all_pages_in_order sample_client
           "verdaccio/verdaccio" [sample_page_1; sample_page_2]).
  repeat split; reflexivity.
Defined.




(** ** Configuration *)

Lemma or_default_truthy (x : option string) (d : string) :
  JsString.falsy (Some d) = false →
  JsString.falsy (Some (JsString.or_default x d)) = false.
Proof. by destruct x as [[|c s]|], d. Qed.

Lemma or_default_given (x : option string) (d : string) :
  JsString.falsy x = false → Some (JsString.or_default x d) = x.
Proof. by destruct x as [[|c s]|]. Qed.

Lemma normalizeBuild_populated (index : nat) (build : BuildConfig) :
  populated (normalizeBuild index build).
Proof.
  unfold populated, normalizeBuild. cbn.
  repeat split; try (by apply or_default_truthy); by eexists.
Qed.



Lemma imap_Forall {A B} (P : B → Prop) (f : nat → A → B) (l : list A) :
  (∀ i x, P (f i x)) → Forall P (imap f l).
Proof.
  revert f. induction l as [|x l IH]; intros f Hf; cbn; [done|].
  constructor; [done|]. apply IH. intros i y. apply Hf.
Qed.


(** The builds that [validateAndNormalizeConfig] normalizes. *)
Lemma validateAndNormalizeConfig_Ok_inv
    (config normalized : BaseImageVersionerConfig) :
  validateAndNormalizeConfig config = Ok normalized →
  JsString.or_default (strategy config) "latest" ∈ ["latest"; "all"; "semver"]
  ∧ (JsString.or_default (strategy config) "latest" = "semver" →
     JsString.falsy (semverRange config) = false)
  ∧ (∀ n, maxVersions config = Some n → 1 ≤ n)
  ∧ normalized
    = {| strategy := Some (JsString.or_default (strategy config) "latest");
         semverRange := semverRange config;
         maxVersions := maxVersions config;
         builds := Some (imap normalizeBuild
                           match default [] (builds config) with
                           | [] => default [] (builds getDefaultConfig)
                           | bs => bs
                           end) |}.
Proof.
  unfold validateAndNormalizeConfig.
  destruct (bool_decide _) eqn:Hs; cbn [negb]; [|discriminate].
  apply bool_decide_eq_true in Hs.
  destruct (String.eqb _ "semver" && JsString.falsy (semverRange config))
    eqn:Hr; [discriminate|].
  destruct (match maxVersions config with Some n => n <? 1 | None => false end)
    eqn:Hmax; [discriminate|].
  intros [= <-]. split; [done|]. split; [|split].
  - intros Heq. rewrite Heq in Hr. exact Hr.
  - intros n Hn. rewrite Hn in Hmax. apply Z.ltb_ge in Hmax. lia.
  - by destruct (default [] (builds config)).
Qed.

Lemma normalized_builds_populated (given : list BuildConfig) :
  imap normalizeBuild
    match given with
    | [] => default [] (builds getDefaultConfig)
    | b :: bs => b :: bs
    end ≠ []
  ∧ Forall populated
      (imap normalizeBuild
         match given with
         | [] => default [] (builds getDefaultConfig)
         | b :: bs => b :: bs
         end).
Proof.
  split; [by destruct given|].
  apply imap_Forall. intros i b. apply normalizeBuild_populated.
Qed.

Lemma validateAndNormalizeConfig_well_formed
    (config normalized : BaseImageVersionerConfig) :
  validateAndNormalizeConfig config = Ok normalized → well_formed normalized.
Proof.
  intros H.
  destruct (validateAndNormalizeConfig_Ok_inv _ _ H) as (Hs & Hr & Hmax & ->).
  destruct (normalized_builds_populated (default [] (builds config)))
    as [Hne Hpop].
  unfold well_formed. cbn [strategy semverRange maxVersions builds].
  split; [by eexists|]. split; [|split; [done|]].
  - intros [= Heq]. by apply Hr.
  - eexists. split; [done|]. by split.
Qed.

Lemma getDefaultConfig_well_formed : well_formed getDefaultConfig.
Proof.
  unfold well_formed. cbn. split; [eexists; split; [done|by left]|].
  split; [done|]. split; [done|]. eexists. split; [done|]. split; [done|].
  repeat constructor; by eexists.
Qed.

Lemma loadConfig_Ok_well_formed (configPath : string)
    (file : option BaseImageVersionerConfig)
    (config : BaseImageVersionerConfig) :
  loadConfig configPath file = Ok config → well_formed config.
Proof.
  unfold loadConfig. destruct file as [given|].
  - destruct (validateAndNormalizeConfig given) as [normalized|message] eqn:H;
      [|discriminate].
    intros [= <-]. by eapply validateAndNormalizeConfig_well_formed.
  - intros [= <-]. apply getDefaultConfig_well_formed.
Qed.




(** The checks of [validateAndNormalizeConfig], in their order. *)
Lemma validateAndNormalizeConfig_Err (config : BaseImageVersionerConfig)
    (cause : string) :
  validateAndNormalizeConfig config = Err cause
  ↔ ((JsString.or_default (strategy config) "latest"
        ∉ ["latest"; "all"; "semver"])
     ∧ cause
       = "Invalid strategy: "
           +:+ JsString.or_default (strategy config) "latest"
           +:+ ". Must be one of: latest, all, semver")
    ∨ (JsString.or_default (strategy config) "latest" = "semver"
       ∧ JsString.falsy (semverRange config) = true
       ∧ cause = semverRange_required)
    ∨ (JsString.or_default (strategy config) "latest"
         ∈ ["latest"; "all"; "semver"]
       ∧ (JsString.or_default (strategy config) "latest" = "semver" →
          JsString.falsy (semverRange config) = false)
       ∧ (∃ n, maxVersions config = Some n ∧ n < 1)
       ∧ cause = "maxVersions must be greater than 0").
Proof.
  split.
  - unfold validateAndNormalizeConfig.
    destruct (bool_decide _) eqn:Hs; cbn [negb].
    2:{ apply bool_decide_eq_false in Hs. intros [= <-]. by left. }
    apply bool_decide_eq_true in Hs.
    destruct (String.eqb_spec (JsString.or_default (strategy config) "latest")
                "semver") as [Hsem|Hsem]; cbn [andb].
    + destruct (JsString.falsy (semverRange config)) eqn:Hr.
      { intros [= <-]. right. by left. }
      destruct (maxVersions config) as [n|]; [|done].
      destruct (n <? 1) eqn:Hn; [|done]. apply Z.ltb_lt in Hn.
      intros [= <-]. right. right. split; [done|]. split; [done|].
      split; [by exists n|done].
    + destruct (maxVersions config) as [n|]; [|done].
      destruct (n <? 1) eqn:Hn; [|done]. apply Z.ltb_lt in Hn.
      intros [= <-]. right. right. split; [done|]. split; [done|].
      split; [by exists n|done].
  - intros [(Hnot & ->)|[(Hsem & Hr & ->)|(Hin & Hr & (n & Hmax & Hn) & ->)]];
      unfold validateAndNormalizeConfig.
    + by rewrite bool_decide_eq_false_2.
    + rewrite Hsem, Hr. reflexivity.
    + destruct (strategy_checks_pass config Hin Hr) as [-> ->].
      rewrite Hmax. apply Z.ltb_lt in Hn. by rewrite Hn.
Qed.

(** X8 — [loadConfig] does not fail when there is no file: it returns
    the defaults.  With a file whose content is a mapping with fields of
    the declared types (the files that [loadConfig] is modelled for; the
    source does not check the types, and an empty or otherwise typed file
    is outside this statement) it fails exactly when the strategy, latest
    when none is given, is not one of latest, all and semver; or else the
    strategy is semver and the range is missing or empty; or else a cap
    below 1 is given.  The checks are made in this order, the first that
    fails gives the cause, and the message is the cause behind the path of
    the file. *)
Theorem loadConfig_failure_causes (configPath : string)
    (file : option BaseImageVersionerConfig) (message : string) :
  loadConfig configPath None = Ok getDefaultConfig
  ∧ (loadConfig configPath file = Err message
  ↔ ∃ config cause,
      file = Some config
      ∧ message
        = "Failed to load configuration from " +:+ configPath +:+ ": "
            +:+ cause
      ∧ (((JsString.or_default (strategy config) "latest"
             ∉ ["latest"; "all"; "semver"])
          ∧ cause
            = "Invalid strategy: "
                +:+ JsString.or_default (strategy config) "latest"
                +:+ ". Must be one of: latest, all, semver")
         ∨ (JsString.or_default (strategy config) "latest" = "semver"
            ∧ JsString.falsy (semverRange config) = true
            ∧ cause = semverRange_required)
         ∨ (JsString.or_default (strategy config) "latest"
              ∈ ["latest"; "all"; "semver"]
            ∧ (JsString.or_default (strategy config) "latest" = "semver" →
               JsString.falsy (semverRange config) = false)
            ∧ (∃ n, maxVersions config = Some n ∧ n < 1)
            ∧ cause = "maxVersions must be greater than 0"))).
Proof.
  split; [reflexivity|].
  unfold loadConfig. destruct file as [config|].
  2:{ split; [done|]. by intros (? & ? & [=] & _). }
  split.
  - destruct (validateAndNormalizeConfig config) as [normalized|cause] eqn:H;
      [done|].
    intros [= <-]. exists config, cause. split; [done|]. split; [done|].
    by apply validateAndNormalizeConfig_Err.
  - intros (? & cause & [= <-] & -> & H).
    apply validateAndNormalizeConfig_Err in H. by rewrite H.
Qed.

Lemma mergeConfigWithVersionRange_cases (config : BaseImageVersionerConfig)
    (versionRange : string) :
  Semver.non_empty versionRange = true →
  ∃ s r,
    mergeConfigWithVersionRange config versionRange
    = {| strategy := Some s; semverRange := r;
         maxVersions := maxVersions config; builds := builds config |}
    ∧ (s = "latest" ∧ r = None ∧ versionRange = "latest"
       ∨ s = "all" ∧ r = None ∧ versionRange = "all"
       ∨ s = "semver" ∧ r = Some versionRange
         ∧ versionRange ≠ "latest" ∧ versionRange ≠ "all").
Proof.
  intros Hv. unfold mergeConfigWithVersionRange. rewrite Hv.
  destruct (String.eqb_spec versionRange "latest") as [->|Hl].
  { exists "latest", None. split; [done|]. by left. }
  destruct (String.eqb_spec versionRange "all") as [->|Ha].
  { exists "all", None. split; [done|]. right. by left. }
  exists "semver", (Some versionRange). split; [done|]. right. by right.
Qed.

Lemma non_empty_falsy (s : string) :
  Semver.non_empty s = negb (JsString.falsy (Some s)).
Proof. by destruct s. Qed.

Lemma mergeConfigWithVersionRange_keeps_well_formed
    (config : BaseImageVersionerConfig) (versionRange : string) :
  well_formed config →
  well_formed (mergeConfigWithVersionRange config versionRange).
Proof.
  intros Hwf.
  destruct (Semver.non_empty versionRange) eqn:Hv.
  2:{ unfold mergeConfigWithVersionRange. by rewrite Hv. }
  destruct (mergeConfigWithVersionRange_cases config _ Hv)
    as (s & r & -> & Hcases).
  destruct Hwf as (_ & _ & Hmax & Hbuilds).
  unfold well_formed. cbn [strategy semverRange maxVersions builds].
  split; [|split; [|done]].
  - exists s. split; [done|].
    rewrite !elem_of_cons.
    destruct Hcases as [(-> & _)|[(-> & _)|(-> & _)]]; auto.
  - intros [= ->].
    destruct Hcases as [([=] & _)|[([=] & _)|(_ & -> & _)]].
    rewrite non_empty_falsy in Hv. by destruct (JsString.falsy _).
Qed.



Lemma mergeConfigWithVersionRange_maxVersions
    (config : BaseImageVersionerConfig) (versionRange : string) :
  maxVersions (mergeConfigWithVersionRange config versionRange)
  = maxVersions config.
Proof.
  unfold mergeConfigWithVersionRange.
  destruct (Semver.non_empty versionRange); [|done].
  destruct (String.eqb versionRange "latest"); [done|].
  by destruct (String.eqb versionRange "all").
Qed.

(** X10 — Of two overrides applied one after the other, a later override
    that is not empty decides alone, and an empty one changes nothing; an
    override never touches the cap and the builds. *)
Theorem mergeConfigWithVersionRange_last_wins
    (config : BaseImageVersionerConfig) (first second : string) :
  mergeConfigWithVersionRange
    (mergeConfigWithVersionRange config first) second
  = (if Semver.non_empty second
     then mergeConfigWithVersionRange config second
     else mergeConfigWithVersionRange config first)
  ∧ maxVersions (mergeConfigWithVersionRange config first)
    = maxVersions config
  ∧ builds (mergeConfigWithVersionRange config first) = builds config.
Proof.
  split;
    [|split; [apply mergeConfigWithVersionRange_maxVersions
             |apply mergeConfigWithVersionRange_builds]].
  destruct (Semver.non_empty second) eqn:Hsecond.
  2:{ unfold mergeConfigWithVersionRange at 1. by rewrite Hsecond. }
  unfold mergeConfigWithVersionRange at 1 3. rewrite Hsecond.
  rewrite mergeConfigWithVersionRange_maxVersions,
    mergeConfigWithVersionRange_builds.
  reflexivity.
Qed.

(** ** Selection *)

Lemma List_filter_sublist {A} (p : A → bool) (l : list A) :
  sublist (List.filter p l) l.
Proof.
  induction l as [|x l IH]; simpl; [constructor|].
  destruct (p x); by constructor.
Qed.

Lemma filterVersions_Ok_inv (tags : list DockerTag) (strategy : string)
    (range : option string) (cap : option Z) (names : list string) :
  filterVersions tags strategy range cap = Ok names →
  ∃ selected k,
    names = name <$> take k selected
    ∧ (strategy = "latest" ∧ selected = getLatestVersions tags 1
       ∨ strategy = "all" ∧ selected = tags
       ∨ strategy = "semver" ∧ JsString.falsy range = false
         ∧ selected = filterBySemverRange tags (default EmptyString range)).
Proof.
  rewrite filterVersions_cap. unfold filterVersions.
  destruct (String.eqb_spec strategy "latest") as [->|Hl].
  { intros [= <-]. exists (getLatestVersions tags 1).
    destruct cap as [n|]; [destruct (0 <? n)|].
    - exists (Z.to_nat n). rewrite fmap_take. auto.
    - exists (length (getLatestVersions tags 1)). rewrite firstn_all. auto.
    - exists (length (getLatestVersions tags 1)). rewrite firstn_all. auto. }
  destruct (String.eqb_spec strategy "all") as [->|Ha].
  { intros [= <-]. exists tags.
    destruct cap as [n|]; [destruct (0 <? n)|].
    - exists (Z.to_nat n). rewrite fmap_take. auto.
    - exists (length tags). rewrite firstn_all. auto.
    - exists (length tags). rewrite firstn_all. auto. }
  destruct (String.eqb_spec strategy "semver") as [->|Hs]; [|discriminate].
  destruct (JsString.falsy range) eqn:Hr; [discriminate|].
  intros [= <-]. eexists.
  destruct cap as [n|]; [destruct (0 <? n)|].
  - exists (Z.to_nat n). rewrite fmap_take. auto 6.
  - eexists. rewrite firstn_all. auto 6.
  - eexists. rewrite firstn_all. auto 6.
Qed.

(** X11 — Every name [filterVersions] returns is the name of one of the
    tags it was given, no tag is returned more often than it was given,
    and under the strategies all and semver the names come in the order
    of the given tags. *)
Theorem filterVersions_selects_given_names (tags : list DockerTag)
    (strategy : string) (range : option string) (cap : option Z)
    (names : list string) :
  filterVersions tags strategy range cap = Ok names →
  names ⊆+ name <$> tags
  ∧ (strategy ≠ "latest" → sublist names (name <$> tags)).
Proof.
  intros H.
  destruct (filterVersions_Ok_inv _ _ _ _ _ H) as (selected & k & -> & Hsel).
  assert (Htake : sublist (name <$> take k selected) (name <$> selected)).
  { apply fmap_sublist, sublist_take. }
  destruct Hsel as [(-> & ->)|[(-> & ->)|(-> & _ & ->)]].
  - split; [|done].
    etrans; [apply sublist_submseteq, Htake|].
    apply fmap_submseteq. unfold getLatestVersions, JsArray.slice_to.
    etrans; [apply sublist_submseteq, sublist_take|].
    apply Permutation_submseteq, sort_Permutation.
  - split; [by apply sublist_submseteq|done].
  - assert (sublist (name <$> take k (filterBySemverRange tags
                                        (default EmptyString range)))
              (name <$> tags)).
    { etrans; [apply Htake|]. apply fmap_sublist, List_filter_sublist. }
    split; [by apply sublist_submseteq|done].
Qed.

Lemma filterVersions_selects_given_names_witness :
  ["1.5.0"; "v2.1"]
    ⊆+ name <$> [ sample_rc_tag; {| name := "1.5.0"; lastUpdated := None |};
                  {| name := "v2.1"; lastUpdated := None |} ]
  ∧ sublist ["1.5.0"; "v2.1"]
      (name <$> [ sample_rc_tag; {| name := "1.5.0"; lastUpdated := None |};
                  {| name := "v2.1"; lastUpdated := None |} ]).
Proof.
  destruct (filterVersions_selects_given_names
              [ sample_rc_tag; {| name := "1.5.0"; lastUpdated := None |};
                {| name := "v2.1"; lastUpdated := None |} ]
              "semver" (Some "^1 || ^2") None ["1.5.0"; "v2.1"] eq_refl)
    as [Hmset Hsub].
  split; [exact Hmset|]. apply Hsub. discriminate.
Defined.

(** ** Outcome of a run *)

Lemma merge_if (config : BaseImageVersionerConfig) (versionRange : string) :
  (if Semver.non_empty versionRange
   then mergeConfigWithVersionRange config versionRange else config)
  = mergeConfigWithVersionRange config versionRange.
Proof.
  unfold mergeConfigWithVersionRange. by destruct (Semver.non_empty _).
Qed.

Lemma join_two_nonempty (sep : string) (parts : list string) :
  (2 ≤ length parts)%nat → Semver.non_empty sep = true →
  Semver.non_empty (JsString.join sep parts) = true.
Proof.
  destruct parts as [|a [|b rest]]; simpl; try lia. intros _ Hsep.
  destruct a; [|done]. simpl. by destruct sep.
Qed.

Lemma parsePipeDelimitedRange_truthy (range : string) :
  JsString.falsy (Some range) = false →
  JsString.falsy (Some (parsePipeDelimitedRange range)) = false.
Proof.
  intros Hr. unfold parsePipeDelimitedRange.
  destruct (JsString.includes_char "|" range) eqn:Hpipe; cbn [negb]; [|done].
  pose proof (join_two_nonempty " || "
                (JsString.trim <$> JsString.split "|" range)) as Hjoin.
  rewrite length_fmap in Hjoin.
  change "|"%string with (String "|"%char EmptyString) in Hjoin at 1.
  rewrite split_char_length in Hjoin.
  assert (JsString.count_char "|" range ≠ O) as Hcount.
  { intros Hzero. apply count_char_includes in Hzero. congruence. }
  specialize (Hjoin ltac:(lia) eq_refl).
  by destruct (JsString.join _ _).
Qed.

(** The selection of a run on a complete configuration: it does not
    fail, and it is a non-empty prefix of what the strategy selects. *)
Lemma filterVersions_well_formed (config : BaseImageVersionerConfig)
    (tags : list DockerTag) :
  well_formed config →
  ∃ selected k,
    (0 < k)%nat
    ∧ filterVersions tags (default "undefined" (strategy config))
        (if bool_decide (strategy config = Some "semver")
            && negb (JsString.falsy (semverRange config))
         then parsePipeDelimitedRange <$> semverRange config
         else semverRange config)
        (maxVersions config)
      = Ok (name <$> take k selected)
    ∧ (strategy config = Some "latest" ∧ selected = getLatestVersions tags 1
       ∨ strategy config = Some "all" ∧ selected = tags
       ∨ ∃ range,
           strategy config = Some "semver" ∧ semverRange config = Some range
           ∧ selected
             = filterBySemverRange tags (parsePipeDelimitedRange range)).
Proof.
  intros ((s & Hs & Hin) & Hr & Hmax & _).
  assert (Hcap : ∀ selected : list DockerTag, ∃ k,
    (0 < k)%nat
    ∧ match maxVersions config with
      | Some n => if 0 <? n then take (Z.to_nat n) (name <$> selected)
                  else name <$> selected
      | None => name <$> selected
      end = name <$> take k selected).
  { intros selected. destruct (maxVersions config) as [n|] eqn:Hn.
    - specialize (Hmax n eq_refl).
      replace (0 <? n) with true by (symmetry; apply Z.ltb_lt; lia).
      exists (Z.to_nat n). split; [lia|]. by rewrite fmap_take.
    - exists (S (length selected)). split; [lia|].
      rewrite take_ge by lia. done. }
  rewrite filterVersions_cap, Hs. cbn [default].
  rewrite !elem_of_cons, elem_of_nil in Hin.
  destruct Hin as [->|[->|[->|[]]]].
  - destruct (Hcap (getLatestVersions tags 1)) as (k & Hk & Heq).
    exists (getLatestVersions tags 1), k. split; [done|].
    split; [|by left]. unfold filterVersions. cbn. by rewrite Heq.
  - destruct (Hcap tags) as (k & Hk & Heq).
    exists tags, k. split; [done|].
    split; [|right; by left]. unfold filterVersions. cbn. by rewrite Heq.
  - specialize (Hr Hs). destruct (semverRange config) as [range|] eqn:Hrange;
      [|done].
    destruct (Hcap (filterBySemverRange tags (parsePipeDelimitedRange range)))
      as (k & Hk & Heq).
    eexists _, k. split; [done|]. split; [|right; right; by eexists].
    rewrite bool_decide_eq_true_2 by done. rewrite Hr. cbn [negb andb].
    change (parsePipeDelimitedRange <$> Some range)
      with (Some (parsePipeDelimitedRange range)).
    unfold filterVersions. rewrite (parsePipeDelimitedRange_truthy _ Hr).
    cbn. by rewrite Heq.
Qed.

Lemma getLatestVersions_1_nonempty (tags : list DockerTag) (k : nat) :
  tags ≠ [] → (0 < k)%nat → take k (getLatestVersions tags 1) ≠ [].
Proof.
  intros Hne Hk. unfold getLatestVersions, JsArray.slice_to.
  destruct (sort_head_is_Some compareLastUpdated tags Hne)
    as (first & rest & ->).
  destruct k; [lia|done].
Qed.

(** The outcome of a run whose configuration has loaded and whose fetch
    has returned tags of which some are classified as versions. *)
Lemma run_selection (baseImage configPathInput versionRangeInput : string)
    (file : option BaseImageVersionerConfig)
    (config : BaseImageVersionerConfig) (allTags : list DockerTag) :
  loadConfig (JsString.or_default (Some configPathInput)
                ".github/base-image-versioner.yml") file = Ok config →
  filterSemanticVersionTags allTags ≠ [] →
  ∃ selected k,
    (0 < k)%nat
    ∧ run baseImage configPathInput versionRangeInput file (Ok allTags)
      = match name <$> take k selected with
        | [] => Err "No versions matched the specified criteria"
        | versions =>
            Ok (buildMatrix versions
                  (mergeConfigWithVersionRange config versionRangeInput)
                  baseImage)
        end
    ∧ (strategy (mergeConfigWithVersionRange config versionRangeInput)
       = Some "latest"
       ∧ selected = getLatestVersions (filterSemanticVersionTags allTags) 1
       ∨ strategy (mergeConfigWithVersionRange config versionRangeInput)
         = Some "all"
         ∧ selected = filterSemanticVersionTags allTags
       ∨ ∃ range,
           strategy (mergeConfigWithVersionRange config versionRangeInput)
           = Some "semver"
           ∧ semverRange (mergeConfigWithVersionRange config versionRangeInput)
             = Some range
           ∧ selected
             = filterBySemverRange (filterSemanticVersionTags allTags)
                 (parsePipeDelimitedRange range)).
Proof.
  intros Hload Hsemver.
  pose proof (mergeConfigWithVersionRange_keeps_well_formed config
                versionRangeInput (loadConfig_Ok_well_formed _ _ _ Hload))
    as Hwf.
  destruct (filterVersions_well_formed _ (filterSemanticVersionTags allTags) Hwf)
    as (selected & k & Hk & Hfilter & Hcases).
  exists selected, k. split; [done|]. split; [|done].
  unfold run. rewrite Hload, merge_if.
  destruct allTags as [|tag allTags]; [done|].
  destruct (filterSemanticVersionTags (tag :: allTags)) as [|v vs] eqn:Hv;
    [done|].
  rewrite Hfilter. by destruct (name <$> take k selected).
Qed.

(** X12 — Once its inputs are read, and with a configuration file whose
    content is a mapping with fields of the declared types, if there is a
    file (the files that [run] is modelled for; the source does not check
    the types, and an empty or otherwise typed file is outside this
    statement), a run fails for one of four reasons only: the
    configuration does not load, the fetch fails, the fetch returns no
    tag, or the strategy semver selects none of the tags classified as
    versions.  The strategies latest and all never leave the run without
    a version, and a run never reaches the selector's own complaints about
    the strategy or a missing range, nor the failure [No tags
    available]. *)
Theorem run_failure_causes
    (baseImage configPathInput versionRangeInput : string)
    (file : option BaseImageVersionerConfig)
    (fetched : result (list DockerTag)) (message : string) :
  run baseImage configPathInput versionRangeInput file fetched = Err message →
  loadConfig (JsString.or_default (Some configPathInput)
                ".github/base-image-versioner.yml") file = Err message
  ∨ fetched = Err message
  ∨ fetched = Ok []
    ∧ message = "No tags found for Docker image: " +:+ baseImage
  ∨ ∃ config allTags range,
      loadConfig (JsString.or_default (Some configPathInput)
                    ".github/base-image-versioner.yml") file = Ok config
      ∧ fetched = Ok allTags
      ∧ filterSemanticVersionTags allTags ≠ []
      ∧ strategy (mergeConfigWithVersionRange config versionRangeInput)
        = Some "semver"
      ∧ semverRange (mergeConfigWithVersionRange config versionRangeInput)
        = Some range
      ∧ filterBySemverRange (filterSemanticVersionTags allTags)
          (parsePipeDelimitedRange range) = []
      ∧ message = "No versions matched the specified criteria".
Proof.
  intros Hrun.
  destruct (loadConfig _ file) as [config|e] eqn:Hload.
  2:{ left. rewrite (run_config_error _ _ _ _ _ e Hload) in Hrun. congruence. }
  right. destruct fetched as [allTags|e].
  2:{ left. unfold run in Hrun. rewrite Hload in Hrun. congruence. }
  right. destruct allTags as [|tag allTags].
  { left. unfold run in Hrun. rewrite Hload in Hrun.
    injection Hrun as <-. by split. }
  right. set (tags := tag :: allTags) in *.
  destruct (filterSemanticVersionTags tags) as [|v vs] eqn:Hv.
  - destruct (sort_head_is_Some compareLastUpdated tags ltac:(done))
      as (latest & rest & Hsort).
    rewrite (run_fallback _ _ _ _ config _ latest Hload Hv) in Hrun; [done|].
    by rewrite getLatestTag_head, Hsort.
  - destruct (run_selection baseImage configPathInput versionRangeInput file
                config tags Hload ltac:(by rewrite Hv))
      as (selected & k & Hk & Hrun' & Hcases).
    rewrite Hrun' in Hrun. rewrite Hv in *.
    destruct (take k selected) as [|x xs] eqn:Htake; [|done].
    injection Hrun as <-.
    destruct Hcases as [(_ & ->)|[(_ & ->)|(range & Hs & Hr & ->)]].
    + by apply getLatestVersions_1_nonempty in Htake.
    + destruct k; [lia|done].
    + exists config, tags, range. rewrite Hv.
      repeat (split; [done|]). split; [|done].
      destruct k; [lia|]. by destruct (filterBySemverRange _ _).
Qed.

Lemma run_failure_causes_witness :
  loadConfig (JsString.or_default (Some EmptyString)
                ".github/base-image-versioner.yml") None
  = Err "No versions matched the specified criteria"
  ∨ Ok [ {| name := "1.0.0"; lastUpdated := None |} ]
    = Err "No versions matched the specified criteria"
  ∨ Ok [ {| name := "1.0.0"; lastUpdated := None |} ] = Ok []
    ∧ "No versions matched the specified criteria"
      = "No tags found for Docker image: " +:+ "node"
  ∨ ∃ config allTags range,
      loadConfig (JsString.or_default (Some EmptyString)
                    ".github/base-image-versioner.yml") None = Ok config
      ∧ Ok [ {| name := "1.0.0"; lastUpdated := None |} ] = Ok allTags
      ∧ filterSemanticVersionTags allTags ≠ []
      ∧ strategy (mergeConfigWithVersionRange config "^9") = Some "semver"
      ∧ semverRange (mergeConfigWithVersionRange config "^9") = Some range
      ∧ filterBySemverRange (filterSemanticVersionTags allTags)
          (parsePipeDelimitedRange range) = []
      ∧ "No versions matched the specified criteria"
        = "No versions matched the specified criteria".
Proof.
  exact (run_failure_causes "node" EmptyString "^9" None
           (Ok [ {| name := "1.0.0"; lastUpdated := None |} ])
           "No versions matched the specified criteria" eq_refl).
Defined.

Lemma filterSemanticVersionTags_sublist (tags : list DockerTag) :
  sublist (filterSemanticVersionTags tags) tags.
Proof. apply List_filter_sublist. Qed.

Lemma getLatestVersions_submseteq (tags : list DockerTag) (count : Z) :
  getLatestVersions tags count ⊆+ tags.
Proof.
  unfold getLatestVersions, JsArray.slice_to.
  etrans; [apply sublist_submseteq, sublist_take|].
  apply Permutation_submseteq, sort_Permutation.
Qed.

Lemma run_Ok_inv (baseImage configPathInput versionRangeInput : string)
    (file : option BaseImageVersionerConfig) (allTags : list DockerTag)
    (matrix : list MatrixEntry) :
  run baseImage configPathInput versionRangeInput file (Ok allTags)
  = Ok matrix →
  ∃ config versions,
    loadConfig (JsString.or_default (Some configPathInput)
                  ".github/base-image-versioner.yml") file = Ok config
    ∧ versions ≠ []
    ∧ versions ⊆+ name <$> allTags
    ∧ matrix
      = versions ≫= λ version,
          matrixEntry version baseImage <$> default [] (builds config).
Proof.
  intros Hrun.
  destruct (loadConfig (JsString.or_default (Some configPathInput)
              ".github/base-image-versioner.yml") file) as [config|e] eqn:Hload.
  2:{ by rewrite (run_config_error _ _ _ _ _ e Hload) in Hrun. }
  exists config.
  destruct allTags as [|tag allTags].
  { unfold run in Hrun. by rewrite Hload in Hrun. }
  set (tags := tag :: allTags) in *.
  destruct (filterSemanticVersionTags tags) as [|v vs] eqn:Hv.
  - destruct (sort_head_is_Some compareLastUpdated tags ltac:(done))
      as (latest & rest & Hsort).
    rewrite (run_fallback _ _ _ _ config _ latest Hload Hv) in Hrun.
    2:{ by rewrite getLatestTag_head, Hsort. }
    injection Hrun as <-. exists [name latest]. do 2 (split; [done|]).
    split; [|by rewrite <- buildMatrix_bind, buildMatrix_single].
    apply (fmap_submseteq name [latest] tags), singleton_submseteq_l.
    rewrite <- (sort_Permutation compareLastUpdated tags), Hsort. by left.
  - destruct (run_selection baseImage configPathInput versionRangeInput file
                config tags Hload ltac:(by rewrite Hv))
      as (selected & k & Hk & Hrun' & Hcases).
    rewrite Hrun' in Hrun.
    exists (name <$> take k selected).
    destruct (name <$> take k selected) as [|x xs] eqn:Hnames; [done|].
    injection Hrun as <-. do 2 (split; [done|]). split.
    + rewrite <- Hnames. apply fmap_submseteq.
      etrans; [apply sublist_submseteq, sublist_take|].
      etrans; [|apply sublist_submseteq, (filterSemanticVersionTags_sublist tags)].
      destruct Hcases as [(_ & ->)|[(_ & ->)|(range & _ & _ & ->)]].
      * apply getLatestVersions_submseteq.
      * done.
      * apply sublist_submseteq, List_filter_sublist.
    + by rewrite buildMatrix_bind, mergeConfigWithVersionRange_builds.
Qed.

(** X13 — A run that succeeds never puts out an empty matrix: the
    configuration has loaded with at least one build, at least one version
    is selected, every selected version is the name of a fetched tag (no
    tag counted more often than it was fetched), and the matrix holds, for
    each selected version in turn, one entry per build of the loaded
    configuration; the version-range override does not touch the builds. *)
Theorem run_matrix_of_fetched_names_and_loaded_builds
    (baseImage configPathInput versionRangeInput : string)
    (file : option BaseImageVersionerConfig) (allTags : list DockerTag)
    (matrix : list MatrixEntry) :
  run baseImage configPathInput versionRangeInput file (Ok allTags)
  = Ok matrix →
  matrix ≠ []
  ∧ ∃ config loaded versions,
      loadConfig (JsString.or_default (Some configPathInput)
                    ".github/base-image-versioner.yml") file = Ok config
      ∧ builds config = Some loaded
      ∧ loaded ≠ []
      ∧ versions ≠ []
      ∧ versions ⊆+ name <$> allTags
      ∧ matrix
        = versions ≫= λ version, matrixEntry version baseImage <$> loaded.
Proof.
  intros Hrun.
  destruct (run_Ok_inv _ _ _ _ _ _ Hrun)
    as (config & versions & Hload & Hne & Hsub & ->).
  destruct (loadConfig_Ok_well_formed _ _ _ Hload)
    as (_ & _ & _ & loaded & Hloaded & Hbuilds & _).
  rewrite Hloaded. cbn [default]. split.
  - destruct versions as [|version versions]; [done|].
    by destruct loaded.
  - by exists config, loaded, versions.
Qed.

Lemma run_matrix_of_fetched_names_and_loaded_builds_witness :
  buildMatrix ["2.1.0"] getDefaultConfig "node" ≠ []
  ∧ ∃ config loaded versions,
      loadConfig (JsString.or_default (Some EmptyString)
                    ".github/base-image-versioner.yml") None = Ok config
      ∧ builds config = Some loaded
      ∧ loaded ≠ []
      ∧ versions ≠ []
      ∧ versions ⊆+ name <$> [ {| name := "1.0.0"; lastUpdated := None |};
                               {| name := "2.1.0"; lastUpdated := None |} ]
      ∧ buildMatrix ["2.1.0"] getDefaultConfig "node"
        = versions ≫= λ version, matrixEntry version "node" <$> loaded.
Proof.
  exact (run_matrix_of_fetched_names_and_loaded_builds "node" EmptyString "^2"
           None [ {| name := "1.0.0"; lastUpdated := None |};
                  {| name := "2.1.0"; lastUpdated := None |} ]
           (buildMatrix ["2.1.0"] getDefaultConfig "node") eq_refl).
Defined.

(** X14 — In the matrix of a run, every entry carries the name, the
    Dockerfile path and the context path of a build of the loaded
    configuration as they are: the fallback values of [buildMatrix] for a
    build without name or path never apply to a loaded configuration. *)
Theorem run_entries_carry_loaded_build
    (baseImage configPathInput versionRangeInput : string)
    (file : option BaseImageVersionerConfig) (allTags : list DockerTag)
    (matrix : list MatrixEntry) (entry : MatrixEntry) :
  run baseImage configPathInput versionRangeInput file (Ok allTags)
  = Ok matrix →
  entry ∈ matrix →
  ∃ config loaded build,
    loadConfig (JsString.or_default (Some configPathInput)
                  ".github/base-image-versioner.yml") file = Ok config
    ∧ builds config = Some loaded
    ∧ build ∈ loaded
    ∧ build_name build = Some (entry_name entry)
    ∧ build_dockerfilePath build = Some (entry_dockerfilePath entry)
    ∧ build_contextPath build = Some (entry_contextPath entry)
    ∧ entry_name entry ≠ EmptyString.
Proof.
  intros Hrun Hentry.
  destruct (run_Ok_inv _ _ _ _ _ _ Hrun)
    as (config & versions & Hload & Hne & Hsub & ->).
  destruct (loadConfig_Ok_well_formed _ _ _ Hload)
    as (_ & _ & _ & loaded & Hloaded & _ & Hpop).
  rewrite Hloaded in Hentry. cbn [default] in Hentry.
  apply list_elem_of_bind in Hentry as (version & Hentry & _).
  apply list_elem_of_fmap in Hentry as (build & -> & Hbuild).
  exists config, loaded, build. do 3 (split; [done|]).
  eapply Forall_forall in Hpop as (Hn & Hd & Hc & _); [|done].
  cbn [matrixEntry entry_name entry_dockerfilePath entry_contextPath].
  rewrite !or_default_given by done. do 3 (split; [done|]).
  by destruct (build_name build) as [[|c s]|].
Qed.

Lemma run_entries_carry_loaded_build_witness :
  ∃ config loaded build,
    loadConfig (JsString.or_default (Some EmptyString)
                  ".github/base-image-versioner.yml")
      (Some {| strategy := None; semverRange := None; maxVersions := None;
               builds := Some
                 [ {| build_name := None; build_dockerfilePath := None;
                      build_contextPath := None; build_buildArgs := None;
                      build_tags := None |} ] |}) = Ok config
    ∧ builds config = Some loaded
    ∧ build ∈ loaded
    ∧ build_name build = Some "build-0"
    ∧ build_dockerfilePath build = Some "Dockerfile"
    ∧ build_contextPath build = Some "."
    ∧ "build-0" ≠ EmptyString.
Proof.
  refine (run_entries_carry_loaded_build "node" EmptyString EmptyString
            (Some {| strategy := None; semverRange := None;
                     maxVersions := None;
                     builds := Some
                       [ {| build_name := None; build_dockerfilePath := None;
                            build_contextPath := None; build_buildArgs := None;
                            build_tags := None |} ] |})
            [ {| name := "1.0.0"; lastUpdated := None |} ]
            _ (matrixEntry "1.0.0" "node"
                 {| build_name := Some "build-0";
                    build_dockerfilePath := Some "Dockerfile";
                    build_contextPath := Some ".";
                    build_buildArgs := Some ∅;
                    build_tags := Some ["{version}"] |})
            eq_refl _).
  by left.
Defined.

Lemma mergeConfigWithVersionRange_reads_cap_and_builds
    (config1 config2 : BaseImageVersionerConfig) (versionRange : string) :
  Semver.non_empty versionRange = true →
  maxVersions config1 = maxVersions config2 →
  builds config1 = builds config2 →
  mergeConfigWithVersionRange config1 versionRange
  = mergeConfigWithVersionRange config2 versionRange.
Proof.
  intros Hv Hmax Hbuilds. unfold mergeConfigWithVersionRange.
  by rewrite Hv, Hmax, Hbuilds.
Qed.

(** X15 — With a version-range override that is not empty, the strategy
    and the range written in the configuration file play no part in the
    outcome: two files that load and agree on the cap and on the builds
    give the same run. *)
Theorem run_override_replaces_file_strategy
    (baseImage configPathInput versionRangeInput : string)
    (file1 file2 : option BaseImageVersionerConfig)
    (config1 config2 : BaseImageVersionerConfig)
    (fetched : result (list DockerTag)) :
  Semver.non_empty versionRangeInput = true →
  loadConfig (JsString.or_default (Some configPathInput)
                ".github/base-image-versioner.yml") file1 = Ok config1 →
  loadConfig (JsString.or_default (Some configPathInput)
                ".github/base-image-versioner.yml") file2 = Ok config2 →
  maxVersions config1 = maxVersions config2 →
  builds config1 = builds config2 →
  run baseImage configPathInput versionRangeInput file1 fetched
  = run baseImage configPathInput versionRangeInput file2 fetched.
Proof.
  intros Hv Hload1 Hload2 Hmax Hbuilds. unfold run.
  rewrite Hload1, Hload2, Hv.
  by rewrite (mergeConfigWithVersionRange_reads_cap_and_builds
                config1 config2).
Qed.

Lemma run_override_replaces_file_strategy_witness :
  run "node" EmptyString "^2"
    (Some {| strategy := Some "all"; semverRange := None;
             maxVersions := Some 3; builds := None |})
    (Ok [ {| name := "1.0.0"; lastUpdated := None |};
          {| name := "2.1.0"; lastUpdated := None |} ])
  = run "node" EmptyString "^2"
      (Some {| strategy := Some "semver"; semverRange := Some "^1";
               maxVersions := Some 3; builds := None |})
      (Ok [ {| name := "1.0.0"; lastUpdated := None |};
            {| name := "2.1.0"; lastUpdated := None |} ]).
Proof.
  by eapply (run_override_replaces_file_strategy "node" EmptyString "^2").
Defined.




(** ** Names of the builds *)

Lemma string_of_N_inj (n m : N) :
  Semver.string_of_N n = Semver.string_of_N m → n = m.
Proof.
  unfold Semver.string_of_N. intros H.
  assert (Hnil : ∀ k, N.to_uint k ≠ Decimal.Nil).
  { intros k. rewrite <- (DecimalN.Unsigned.of_to k) at 1.
    rewrite DecimalN.Unsigned.to_of. apply unorm_nonnil. }
  apply (f_equal NilZero.uint_of_string) in H.
  rewrite !NilZero.usu in H by apply Hnil.
  injection H as H. by apply DecimalN.Unsigned.to_uint_inj.
Qed.

(** X17 — Builds written without a name are named after their position,
    build-0, build-1 and so on, counted over all builds of the file, so
    two builds without a name never end up with the same name. *)
Theorem unnamed_builds_named_by_position
    (config normalized : BaseImageVersionerConfig)
    (given : list BuildConfig) (i j : nat) (bi bj : BuildConfig) :
  validateAndNormalizeConfig config = Ok normalized →
  builds config = Some given →
  given !! i = Some bi → given !! j = Some bj →
  JsString.falsy (build_name bi) = true →
  JsString.falsy (build_name bj) = true →
  i ≠ j →
  ∃ loaded ni nj,
    builds normalized = Some loaded
    ∧ loaded !! i = Some ni ∧ loaded !! j = Some nj
    ∧ build_name ni = Some ("build-" +:+ Semver.string_of_N (N.of_nat i))
    ∧ build_name nj = Some ("build-" +:+ Semver.string_of_N (N.of_nat j))
    ∧ build_name ni ≠ build_name nj.
Proof.
  intros H Hgiven Hi Hj Hni Hnj Hij.
  destruct (validateAndNormalizeConfig_Ok_inv _ _ H) as (_ & _ & _ & ->).
  rewrite Hgiven. cbn [builds].
  change (default [] (Some given)) with given.
  assert (match given with
          | [] => default [] (builds getDefaultConfig)
          | b :: l => b :: l
          end = given) as -> by (by destruct given).
  exists (imap normalizeBuild given), (normalizeBuild i bi),
    (normalizeBuild j bj).
  split; [done|]. rewrite !list_lookup_imap, Hi, Hj.
  split; [done|]. split; [done|].
  assert (Hname : ∀ k b, JsString.falsy (build_name b) = true →
    build_name (normalizeBuild k b)
    = Some ("build-" +:+ Semver.string_of_N (N.of_nat k))).
  { intros k b Hb. cbn [normalizeBuild build_name].
    by destruct (build_name b) as [[|c s]|]. }
  rewrite !Hname by done. split; [done|]. split; [done|].
  intros [= Heq]. apply string_of_N_inj in Heq. lia.
Qed.

Lemma unnamed_builds_named_by_position_witness :
  ∃ loaded ni nj,
    Some (imap normalizeBuild
            [ {| build_name := None; build_dockerfilePath := None;
                 build_contextPath := None; build_buildArgs := None;
                 build_tags := None |};
              sample_alpine_build;
              {| build_name := Some EmptyString;
                 build_dockerfilePath := Some "Dockerfile.slim";
                 build_contextPath := None; build_buildArgs := None;
                 build_tags := None |} ]) = Some loaded
    ∧ loaded !! 0%nat = Some ni ∧ loaded !! 2%nat = Some nj
    ∧ build_name ni = Some "build-0"
    ∧ build_name nj = Some "build-2"
    ∧ build_name ni ≠ build_name nj.
Proof.
  refine (unnamed_builds_named_by_position
            {| strategy := None; semverRange := None; maxVersions := None;
               builds := Some
                 [ {| build_name := None; build_dockerfilePath := None;
                      build_contextPath := None; build_buildArgs := None;
                      build_tags := None |};
                   sample_alpine_build;
                   {| build_name := Some EmptyString;
                      build_dockerfilePath := Some "Dockerfile.slim";
                      build_contextPath := None; build_buildArgs := None;
                      build_tags := None |} ] |}
            _ _ 0 2 _ _ eq_refl eq_refl eq_refl eq_refl eq_refl eq_refl _).
  lia.
Defined.

(** ** The most recent tags *)

Section KeyedOrder.
Context {A : Type} (comparefn : A → A → Z) (key : A → Z).

Lemma adjacent_ordered_tail (x : A) (l : list A) :
  adjacent_ordered comparefn (x :: l) → adjacent_ordered comparefn l.
Proof. destruct l as [|y l]; [done|]. by intros [_ H]. Qed.

Lemma adjacent_ordered_head_max (x : A) (l : list A) :
  (∀ a b, a ∈ x :: l → b ∈ x :: l → comparefn a b = key b - key a) →
  adjacent_ordered comparefn (x :: l) →
  ∀ y, y ∈ l → key y ≤ key x.
Proof.
  revert x. induction l as [|z l IH]; intros x Hkey Hord y Hy.
  - by apply elem_of_nil in Hy.
  - destruct Hord as [Hxz Hord].
    rewrite (Hkey x z) in Hxz by (rewrite !elem_of_cons; auto).
    apply elem_of_cons in Hy as [->|Hy]; [lia|].
    assert (key y ≤ key z); [|lia].
    apply (IH z); [|done..].
    intros a b Ha Hb. apply Hkey; by right.
Qed.

Lemma adjacent_ordered_split (l1 l2 : list A) :
  (∀ a b, a ∈ l1 ++ l2 → b ∈ l1 ++ l2 → comparefn a b = key b - key a) →
  adjacent_ordered comparefn (l1 ++ l2) →
  ∀ x y, x ∈ l1 → y ∈ l2 → key y ≤ key x.
Proof.
  induction l1 as [|z l1 IH]; intros Hkey Hord x y Hx Hy.
  - by apply elem_of_nil in Hx.
  - apply elem_of_cons in Hx as [->|Hx].
    + apply (adjacent_ordered_head_max z (l1 ++ l2)); [done..|].
      apply elem_of_app. by right.
    + apply IH; [|by eapply adjacent_ordered_tail|done..].
      intros a b Ha Hb. apply Hkey; by right.
Qed.

End KeyedOrder.

(** X18 — For a count that is not negative and tags that all carry an
    update time, [getLatestVersions] returns the [count] most recently
    updated tags, or all tags when there are fewer: every tag it returns
    was updated no earlier than every tag it leaves out, and the returned
    tags are in order, most recent first. *)
Theorem getLatestVersions_most_recent (tags : list DockerTag) (count : Z) :
  0 ≤ count →
  (∀ tag, tag ∈ tags → is_Some (timestamp tag)) →
  ∃ rest,
    tags ≡ₚ getLatestVersions tags count ++ rest
    ∧ length (getLatestVersions tags count)
      = (Z.to_nat count `min` length tags)%nat
    ∧ (∀ x y, x ∈ getLatestVersions tags count → y ∈ rest →
              tag_time y ≤ tag_time x)
    ∧ ∀ earlier later x y,
        getLatestVersions tags count = earlier ++ x :: later →
        y ∈ later → tag_time y ≤ tag_time x.
Proof.
  intros _ Htime. unfold getLatestVersions, JsArray.slice_to.
  set (sorted := JsArray.sort compareLastUpdated tags).
  assert (Hperm : sorted ≡ₚ tags) by apply sort_Permutation.
  assert (Hord : adjacent_ordered compareLastUpdated sorted).
  { apply sort_adjacent_ordered. intros a b. apply compareLastUpdated_swap. }
  assert (Hkey : ∀ a b, a ∈ sorted → b ∈ sorted →
                        compareLastUpdated a b = tag_time b - tag_time a).
  { intros a b Ha Hb. rewrite Hperm in Ha, Hb.
    apply compareLastUpdated_tag_time; by apply Htime. }
  clearbody sorted. exists (drop (Z.to_nat count) sorted).
  split; [by rewrite take_drop|].
  split; [by rewrite length_take, (Permutation_length Hperm)|].
  split.
  - apply (adjacent_ordered_split compareLastUpdated tag_time);
      by rewrite take_drop.
  - intros earlier later x y Heq Hy.
    rewrite <- (take_drop (Z.to_nat count) sorted) in Hord, Hkey.
    rewrite Heq in Hord, Hkey.
    rewrite <- app_assoc in Hord, Hkey.
    apply (adjacent_ordered_split compareLastUpdated tag_time
             (earlier ++ [x]) (later ++ drop (Z.to_nat count) sorted)).
    + by rewrite <- app_assoc.
    + by rewrite <- app_assoc.
    + apply elem_of_app. right. by left.
    + apply elem_of_app. by left.
Qed.

Lemma getLatestVersions_most_recent_witness :
  ∃ rest,
    [sample_rc_tag; sample_stable_tag;
     {| name := "nightly"; lastUpdated := Some "2024-03-15T10:30:00Z" |}]
      ≡ₚ getLatestVersions
           [sample_rc_tag; sample_stable_tag;
            {| name := "nightly"; lastUpdated := Some "2024-03-15T10:30:00Z" |}]
           2 ++ rest
    ∧ length (getLatestVersions
                [sample_rc_tag; sample_stable_tag;
                 {| name := "nightly";
                    lastUpdated := Some "2024-03-15T10:30:00Z" |}] 2)
      = (2 `min` 3)%nat
    ∧ (∀ x y,
         x ∈ getLatestVersions
               [sample_rc_tag; sample_stable_tag;
                {| name := "nightly";
                   lastUpdated := Some "2024-03-15T10:30:00Z" |}] 2 →
         y ∈ rest → tag_time y ≤ tag_time x)
    ∧ ∀ earlier later x y,
        getLatestVersions
          [sample_rc_tag; sample_stable_tag;
           {| name := "nightly";
              lastUpdated := Some "2024-03-15T10:30:00Z" |}] 2
        = earlier ++ x :: later →
        y ∈ later → tag_time y ≤ tag_time x.
Proof.
  apply (getLatestVersions_most_recent
           [sample_rc_tag; sample_stable_tag;
            {| name := "nightly";
               lastUpdated := Some "2024-03-15T10:30:00Z" |}] 2);
    [lia|].
  intros tag Htag.
  repeat (apply elem_of_cons in Htag as [->|Htag]; [by vm_compute; eexists|]).
  by apply elem_of_nil in Htag.
Defined.

(** ** The pattern of the classifier *)

Lemma repeat_class_sound {R} (p : ascii → bool) (s : string)
    (lo : nat) (hi : option nat) (pos : nat)
    (k : nat → string → option R) (x : R) :
  Regex.repeat_class p lo hi pos s k = Some x →
  ∃ d tail pos',
    s = d +:+ tail
    ∧ Semver.all_chars p d = true
    ∧ (lo ≤ String.length d)%nat
    ∧ (∀ n, hi = Some n → (String.length d ≤ n)%nat)
    ∧ k pos' tail = Some x.
Proof.
  revert lo hi pos. induction s as [|c s IH]; intros lo hi pos.
  - cbn [Regex.repeat_class]. destruct lo; [|done]. intros Hk.
    exists EmptyString, EmptyString, pos. repeat split; try done.
    intros n _. simpl. lia.
  - cbn [Regex.repeat_class].
    assert (Hstop : match lo with O => k pos (String c s) | S _ => None end
                    = Some x →
            ∃ d tail pos',
              String c s = d +:+ tail
              ∧ Semver.all_chars p d = true
              ∧ (lo ≤ String.length d)%nat
              ∧ (∀ n, hi = Some n → (String.length d ≤ n)%nat)
              ∧ k pos' tail = Some x).
    { destruct lo; [|done]. intros Hk.
      exists EmptyString, (String c s), pos. repeat split; try done.
      intros n _. simpl. lia. }
    destruct (p c) eqn:Hc; [|done].
    destruct (match hi with Some O => false | _ => true end) eqn:Hmore;
      [|done].
    cbn [andb].
    destruct (Regex.repeat_class p (Nat.pred lo) (Nat.pred <$> hi) (S pos) s k)
      as [y|] eqn:Hrec; [|done].
    intros [= ->].
    destruct (IH _ _ _ Hrec) as (d & tail & pos' & -> & Hd & Hlo & Hhi & Hk).
    exists (String c d), tail, pos'. split; [done|]. split.
    { simpl. by rewrite Hc, Hd. }
    split; [simpl; lia|]. split; [|done].
    intros n ->. destruct n as [|n]; [done|].
    specialize (Hhi n eq_refl). simpl. lia.
Qed.

(** Whatever the matcher accepts, the declarative reading accepts. *)
Lemma rmatch_sound {R} (r : Regex.regex) (pos : nat) (s : string)
    (cs : Regex.captures) (k : nat → string → Regex.captures → option R)
    (x : R) :
  Regex.rmatch r pos s cs k = Some x →
  ∃ tail pos' cs', consumes r s tail ∧ k pos' tail cs' = Some x.
Proof.
  revert pos s cs k. induction r as [| | |p|r1 IH1 r2 IH2|r1 IH1 r2 IH2|p lo hi|i r IH];
    intros pos s cs k; cbn [Regex.rmatch consumes].
  - intros Hk. by exists s, pos, cs.
  - destruct (pos =? 0)%nat; [|done]. intros Hk. by exists s, pos, cs.
  - destruct s; [|done]. intros Hk. by exists EmptyString, pos, cs.
  - destruct s as [|c s]; [done|]. destruct (p c) eqn:Hc; [|done].
    intros Hk. exists s, (S pos), cs. split; [by exists c|done].
  - intros H. apply IH1 in H as (mid & pos1 & cs1 & H1 & H).
    apply IH2 in H as (tail & pos2 & cs2 & H2 & H).
    exists tail, pos2, cs2. split; [by exists mid|done].
  - destruct (Regex.rmatch r1 pos s cs k) as [y|] eqn:H1.
    + intros [= ->]. apply IH1 in H1 as (tail & pos' & cs' & H1 & Hk).
      exists tail, pos', cs'. split; [by left|done].
    + intros H2. apply IH2 in H2 as (tail & pos' & cs' & H2 & Hk).
      exists tail, pos', cs'. split; [by right|done].
  - intros H.
    apply repeat_class_sound in H as (d & tail & pos' & -> & Hd & Hlo & Hhi & Hk).
    exists tail, pos', cs. split; [by exists d|done].
  - intros H. apply IH in H as (tail & pos' & cs' & Hr & Hk).
    by exists tail, pos', ((i, JsString.slice_to (pos' - pos) s) :: cs').
Qed.

Lemma repeat_class_complete {R} (p : ascii → bool) (d tail : string)
    (lo : nat) (hi : option nat) (pos : nat) (k : nat → string → option R) :
  Semver.all_chars p d = true →
  (lo ≤ String.length d)%nat →
  (∀ n, hi = Some n → (String.length d ≤ n)%nat) →
  (∀ pos', is_Some (k pos' tail)) →
  is_Some (Regex.repeat_class p lo hi pos (d +:+ tail) k).
Proof.
  intros Hd Hlo Hhi Hk. revert lo hi pos Hd Hlo Hhi.
  induction d as [|c d IH]; intros lo hi pos Hd Hlo Hhi.
  - simpl in Hlo. assert (lo = O) as -> by lia. cbn [String.append].
    destruct tail as [|c t]; cbn [Regex.repeat_class]; [done|].
    destruct (p c && _); [|done].
    by destruct (Regex.repeat_class p _ _ _ t k).
  - cbn [String.append Regex.repeat_class]. simpl in Hd.
    apply andb_true_iff in Hd as [Hc Hd]. rewrite Hc.
    assert (Hmore : match hi with Some O => false | _ => true end = true).
    { destruct hi as [[|n]|]; try done.
      specialize (Hhi O eq_refl). simpl in Hhi. lia. }
    rewrite Hmore. cbn [andb].
    destruct (IH (Nat.pred lo) (Nat.pred <$> hi) (S pos) Hd) as [y ->].
    + simpl in Hlo. lia.
    + intros n Hn. destruct hi as [m|]; [|done]. injection Hn as <-.
      specialize (Hhi m eq_refl). simpl in Hhi. lia.
    + done.
Qed.

(** Whatever the declarative reading accepts, the matcher accepts, for a
    pattern without [^]: it tries every alternative and every length of a
    repetition before it gives up. *)
Lemma rmatch_complete {R} (r : Regex.regex) (s tail : string)
    (k : nat → string → Regex.captures → option R) :
  bol_free r = true →
  consumes r s tail →
  (∀ pos cs, is_Some (k pos tail cs)) →
  ∀ pos cs, is_Some (Regex.rmatch r pos s cs k).
Proof.
  revert s tail k. induction r as [| | |p|r1 IH1 r2 IH2|r1 IH1 r2 IH2|p lo hi|i r IH];
    intros s tail k Hfree; cbn [Regex.rmatch consumes bol_free] in *.
  - intros -> Hk pos cs. apply Hk.
  - done.
  - intros [-> ->] Hk pos cs. apply Hk.
  - intros (c & -> & Hc) Hk pos cs. rewrite Hc. apply Hk.
  - apply andb_true_iff in Hfree as [Hf1 Hf2].
    intros (mid & H1 & H2) Hk pos cs.
    apply (IH1 s mid); [done..|]. intros pos' cs'. by apply (IH2 mid tail).
  - apply andb_true_iff in Hfree as [Hf1 Hf2].
    intros [H1|H2] Hk pos cs.
    + by destruct (IH1 s tail k Hf1 H1 Hk pos cs) as [y ->].
    + destruct (Regex.rmatch r1 pos s cs k); [done|]. by apply (IH2 s tail).
  - intros (d & -> & Hd & Hlo & Hhi) Hk pos cs.
    by apply repeat_class_complete.
  - intros Hr Hk pos cs. by apply (IH s tail).
Qed.

Lemma append_assoc (a b c : string) : (a +:+ b) +:+ c = a +:+ (b +:+ c).
Proof. induction a as [|x a IH]; simpl; [done|]. by rewrite IH. Qed.

Lemma semverRegex_unfold :
  semverRegex
  = Regex.Seq Regex.Bol
      (Regex.seq
         [ Regex.opt (Regex.chr "v");
           Regex.plus Regex.digit;
           Regex.opt (Regex.Group 1 (Regex.seq [Regex.chr "."; Regex.plus Regex.digit]));
           Regex.opt (Regex.Group 2 (Regex.seq [Regex.chr "."; Regex.plus Regex.digit]));
           Regex.opt (Regex.Group 3
             (Regex.seq [Regex.chr "-";
                         Regex.plus (λ c, Regex.word c || Ascii.eqb c ".")]));
           Regex.Eol ]).
Proof. reflexivity. Qed.

(** A pattern that begins with [^] matches at the start of the text or
    not at all. *)
Lemma search_Bol_later (r : Regex.regex) (pos : nat) (s : string) :
  Regex.search (Regex.Seq Regex.Bol r) (S pos) s = None.
Proof.
  revert pos. induction s as [|c s IH]; intros pos; [done|].
  rewrite search_unfold. cbn [Regex.rmatch Nat.eqb]. apply IH.
Qed.

Lemma test_Bol (r : Regex.regex) (s : string) :
  Regex.test (Regex.Seq Regex.Bol r) s = true
  ↔ is_Some (Regex.rmatch r 0 s [] (λ _ _ cs, Some cs)).
Proof.
  unfold Regex.test, Regex.exec. rewrite search_unfold.
  cbn [Regex.rmatch Nat.eqb].
  destruct (Regex.rmatch r 0 s [] _) as [cs|].
  - split; [by eexists|done].
  - destruct s as [|c s]; [|rewrite search_Bol_later];
      (split; [done|by intros [? ?]]).
Qed.

(** The pattern of the classifier, read declaratively. *)
Lemma test_semverRegex (s : string) :
  Regex.test semverRegex s = true ↔ consumes semverRegex s EmptyString.
Proof.
  rewrite semverRegex_unfold, test_Bol. split.
  - intros [cs H].
    apply rmatch_sound in H as (tail & pos' & cs' & H & _).
    cbn [consumes]. exists s. split; [done|].
    replace EmptyString with tail; [done|].
    cbn [Regex.seq foldr consumes] in H.
    destruct H as (? & _ & ? & _ & ? & _ & ? & _ & ? & _ & ? & Heol & Hend).
    destruct Heol as [_ Heol]. congruence.
  - cbn [consumes]. intros (mid & -> & H).
    by apply (rmatch_complete _ s EmptyString).
Qed.

Lemma consumes_dot_number (i : nat) (s tail : string) :
  consumes (Regex.opt (Regex.Group i
              (Regex.seq [Regex.chr "."; Regex.plus Regex.digit]))) s tail
  ↔ (∃ d, number d ∧ s = String "." (d +:+ tail)) ∨ tail = s.
Proof.
  cbn [consumes Regex.opt Regex.seq Regex.chr Regex.plus foldr]. split.
  - intros [(m1 & (c & -> & Hc) & m2 & (d & -> & Hd & Hlen & _) & ->) | ->];
      [left|by right].
    apply Ascii.eqb_eq in Hc as <-. exists d. split; [|done].
    split; [done|]. destruct d; [simpl in Hlen; lia|done].
  - intros [(d & [Hd Hne] & ->)| ->]; [left|by right].
    exists (d +:+ tail). split; [exists "."%char; by rewrite Ascii.eqb_refl|].
    exists tail. split; [|done]. exists d. split; [done|]. split; [done|].
    split; [|done]. destruct d; [done|simpl; lia].
Qed.

Lemma consumes_semverRegex (s : string) :
  consumes semverRegex s EmptyString ↔
  ∃ core suffix,
    dotted_numbers core
    ∧ (s = core +:+ suffix ∨ s = String "v" (core +:+ suffix))
    ∧ (suffix = EmptyString
       ∨ ∃ w, suffix = String "-" w ∧ w ≠ EmptyString
              ∧ Semver.all_chars (λ c, Regex.word c || Ascii.eqb c ".") w
                = true).
Proof.
  rewrite semverRegex_unfold.
  cbn [consumes Regex.seq foldr].
  setoid_rewrite consumes_dot_number.
  cbn [consumes Regex.opt Regex.seq Regex.chr Regex.plus foldr]. split.
  - intros (? & -> & m1 & Hv & m2 & (a & -> & Ha & Hlen & _) & m3 & H1
            & m4 & H2 & m5 & H3 & m6 & [Hm5 Hm6] & _).
    subst m5 m6.
    assert (Hnum : number a).
    { split; [done|]. destruct a; [simpl in Hlen; lia|done]. }
    assert (Hsuffix : ∃ suffix, m4 = suffix
      ∧ (suffix = EmptyString
         ∨ ∃ w, suffix = String "-" w ∧ w ≠ EmptyString
                ∧ Semver.all_chars (λ c, Regex.word c || Ascii.eqb c ".") w
                  = true)).
    { exists m4. split; [done|].
      destruct H3 as [(? & (c & -> & Hc) & mid & (w & -> & Hw & Hwlen & _) & Hmid)
                     | Hm4]; [right|by left].
      subst mid. apply Ascii.eqb_eq in Hc as <-. exists w.
      rewrite append_empty_r.
      split; [done|]. split; [|done]. destruct w; [simpl in Hwlen; lia|done]. }
    destruct Hsuffix as (suffix & -> & Hsuffix).
    assert (Hcore : ∃ core, dotted_numbers core ∧ a +:+ m2 = core +:+ suffix).
    { destruct H1 as [(b & Hb & ->)| ->], H2 as [(c & Hc & ->)| ->].
      - exists (a +:+ "." +:+ b +:+ "." +:+ c). split.
        + exists a. split; [done|]. right. exists b. split; [done|].
          right. by exists c.
        + by rewrite !append_assoc.
      - exists (a +:+ "." +:+ b). split.
        + exists a. split; [done|]. right. exists b. split; [done|]. by left.
        + by rewrite !append_assoc.
      - exists (a +:+ "." +:+ c). split.
        + exists a. split; [done|]. right. exists c. split; [done|]. by left.
        + by rewrite !append_assoc.
      - exists a. split; [|done]. exists a. split; [done|]. by left. }
    destruct Hcore as (core & Hcore & Heq).
    exists core, suffix. split; [done|]. split; [|done].
    destruct Hv as [(c & -> & Hc)| <-]; [right|left; done].
    apply Ascii.eqb_eq in Hc as <-. by rewrite Heq.
  - intros (core & suffix & (a & [Ha Hane] & Hshape) & Hs & Hsuffix).
    exists s. split; [done|].
    exists (core +:+ suffix). split.
    { destruct Hs as [->| ->]; [by right|left].
      exists "v"%char. by rewrite Ascii.eqb_refl. }
    assert (Hrest : ∃ m2, core +:+ suffix = a +:+ m2
      ∧ ∃ m3, ((∃ d, number d ∧ m2 = String "." (d +:+ m3)) ∨ m3 = m2)
      ∧ ∃ m4, ((∃ d, number d ∧ m3 = String "." (d +:+ m4)) ∨ m4 = m3)
      ∧ m4 = suffix).
    { destruct Hshape as [->|(b & Hb & [->|(c & Hc & ->)])].
      - exists suffix. split; [done|]. exists suffix. split; [by right|].
        exists suffix. split; [by right|done].
      - exists (String "." (b +:+ suffix)). split; [by rewrite !append_assoc|].
        exists suffix. split; [left; by exists b|].
        exists suffix. split; [by right|done].
      - exists (String "." (b +:+ String "." (c +:+ suffix))).
        split; [by rewrite !append_assoc|].
        exists (String "." (c +:+ suffix)). split; [left; by exists b|].
        exists suffix. split; [left; by exists c|done]. }
    destruct Hrest as (m2 & Heq & m3 & H1 & m4 & H2 & ->).
    exists m2. split.
    { exists a. split; [done|]. split; [done|]. split; [|done].
      destruct a; [done|simpl; lia]. }
    exists m3. split; [done|]. exists suffix. split; [done|].
    exists EmptyString. split.
    + destruct Hsuffix as [->|(w & -> & Hw & Hchars)]; [by right|left].
      exists w. split; [exists "-"%char; by rewrite Ascii.eqb_refl|].
      exists EmptyString. split; [|done]. exists w. rewrite append_empty_r.
      split; [done|]. split; [done|]. split; [|done].
      destruct w; [done|simpl; lia].
    + by exists EmptyString.
Qed.

Lemma cut_app (c : ascii) (a rest : string) :
  Semver.all_chars (λ x, negb (Ascii.eqb x c)) a = true →
  Semver.cut c (a +:+ String c rest) = (a, Some rest).
Proof.
  induction a as [|x a IH]; cbn [Semver.all_chars String.append Semver.cut].
  - intros _. by rewrite Ascii.eqb_refl.
  - intros [Hx Ha]%andb_true_iff. apply negb_true_iff in Hx.
    by rewrite Hx, (IH Ha).
Qed.

Lemma cut_free (c : ascii) (s : string) :
  Semver.all_chars (λ x, negb (Ascii.eqb x c)) (Semver.cut c s).1 = true.
Proof.
  induction s as [|a s IH]; [done|]. cbn [Semver.cut].
  destruct (Ascii.eqb a c) eqn:Ha; [done|].
  destruct (Semver.cut c s) as [l r]. simpl in *. by rewrite Ha.
Qed.

Lemma number_no_dash (d : string) :
  number d → Semver.all_chars (λ x, negb (Ascii.eqb x "-")) d = true.
Proof.
  intros [Hd _]. eapply all_chars_impl; [|done].
  intros c Hc. apply digit_or_dot_not_dash. unfold digit_or_dot. by rewrite Hc.
Qed.

Lemma dotted_numbers_no_dash (s : string) :
  dotted_numbers s → Semver.all_chars (λ x, negb (Ascii.eqb x "-")) s = true.
Proof.
  intros (a & Ha & [->|(b & Hb & [->|(c & Hc & ->)])]);
    rewrite ?all_chars_app; cbn [Semver.all_chars];
    rewrite ?number_no_dash by done; done.
Qed.

Lemma version_like_no_dash (s : string) :
  version_like s → Semver.all_chars (λ x, negb (Ascii.eqb x "-")) s = true.
Proof.
  intros [H|(t & -> & H)]; [by apply dotted_numbers_no_dash|].
  cbn [Semver.all_chars]. by rewrite dotted_numbers_no_dash.
Qed.

(** The text before the first hyphen of a name that the pattern
    matches. *)
Lemma consumes_semverRegex_cut (s : string) :
  consumes semverRegex s EmptyString → version_like (Semver.cut "-" s).1.
Proof.
  intros (core & suffix & Hcore & Hs & Hsuffix)%consumes_semverRegex.
  assert (∃ vcore, s = vcore +:+ suffix ∧ version_like vcore)
    as (vcore & -> & Hv).
  { destruct Hs as [->| ->].
    - exists core. split; [done|]. by left.
    - exists (String "v" core). split; [done|]. right. by exists core. }
  pose proof (version_like_no_dash _ Hv) as Hfree.
  destruct Hsuffix as [->|(w & -> & _)].
  - rewrite append_empty_r. by rewrite cut_absent.
  - by rewrite cut_app.
Qed.

Lemma test_semverRegex_cleaned (tagName : string) :
  Regex.test semverRegex (Semver.cut "-" tagName).1 = true
  ↔ version_like (Semver.cut "-" tagName).1.
Proof.
  rewrite test_semverRegex. split.
  - intros H. apply consumes_semverRegex_cut in H.
    by rewrite cut_absent in H by apply cut_free.
  - intros [H|(t & Ht & H)]; apply consumes_semverRegex.
    + exists (Semver.cut "-" tagName).1, EmptyString.
      rewrite append_empty_r. auto.
    + exists t, EmptyString. rewrite append_empty_r, Ht. auto.
Qed.

Lemma test_semverRegex_whole (tagName : string) :
  Regex.test semverRegex tagName = true →
  Regex.test semverRegex (Semver.cut "-" tagName).1 = true.
Proof.
  intros H. apply test_semverRegex_cleaned, consumes_semverRegex_cut.
  by apply test_semverRegex.
Qed.

Lemma isSemanticVersionName_version_like (tagName : string) :
  isSemanticVersionName tagName = true →
  version_like (Semver.cut "-" tagName).1.
Proof.
  rewrite isSemanticVersionName_cut, orb_true_iff.
  intros [H|H]; [|apply test_semverRegex_whole in H];
    by apply test_semverRegex_cleaned.
Qed.

(** X19 — A tag is classified as a version exactly when the text before
    its first hyphen is one, two or three numbers separated by dots, with
    or without a v in front.  What follows the first hyphen is not looked
    at, and the test of the whole name adds nothing to the test of the
    text before the hyphen. *)
Theorem isSemanticVersionName_iff_leading_dotted_numbers (tagName : string) :
  (isSemanticVersionName tagName = true
   ↔ version_like (Semver.cut "-" tagName).1)
  ∧ isSemanticVersionName tagName
    = Regex.test semverRegex (Semver.cut "-" tagName).1.
Proof.
  pose proof (test_semverRegex_whole tagName) as Hwhole.
  rewrite isSemanticVersionName_cut. split.
  - rewrite <- test_semverRegex_cleaned, orb_true_iff. tauto.
  - destruct (Regex.test semverRegex (Semver.cut "-" tagName).1); [done|].
    destruct (Regex.test semverRegex tagName); [|done].
    by specialize (Hwhole eq_refl).
Qed.

(** X20 — Unless no fetched tag at all is classified as a version, every
    version in the matrix of a run is the name of a tag that begins, up to
    its first hyphen, with one, two or three dotted numbers, with or
    without a v in front: a tag such as latest or alpine is never built
    beside version tags, however recently it was updated. *)
Theorem run_versions_are_classified
    (baseImage configPathInput versionRangeInput : string)
    (file : option BaseImageVersionerConfig) (allTags : list DockerTag)
    (matrix : list MatrixEntry) (entry : MatrixEntry) :
  run baseImage configPathInput versionRangeInput file (Ok allTags)
  = Ok matrix →
  filterSemanticVersionTags allTags ≠ [] →
  entry ∈ matrix →
  version_like (Semver.cut "-" (entry_version entry)).1
  ∧ ∃ tag, tag ∈ allTags ∧ name tag = entry_version entry.
Proof.
  intros Hrun Hsemver Hentry.
  destruct (loadConfig (JsString.or_default (Some configPathInput)
              ".github/base-image-versioner.yml") file) as [config|e] eqn:Hload.
  2:{ by rewrite (run_config_error _ _ _ _ _ e Hload) in Hrun. }
  destruct (run_selection baseImage configPathInput versionRangeInput file
              config allTags Hload Hsemver)
    as (selected & k & Hk & Hrun' & Hcases).
  rewrite Hrun' in Hrun.
  destruct (name <$> take k selected) as [|x xs] eqn:Hnames; [done|].
  injection Hrun as <-. rewrite <- Hnames, buildMatrix_bind in Hentry.
  apply list_elem_of_bind in Hentry as (version & Hentry & Hversion).
  apply list_elem_of_fmap in Hentry as (build & -> & _).
  apply list_elem_of_fmap in Hversion as (tag & -> & Htag).
  cbn [matrixEntry entry_version].
  assert (Hclassified : tag ∈ filterSemanticVersionTags allTags).
  { eapply elem_of_submseteq; [exact Htag|].
    etrans; [apply sublist_submseteq, sublist_take|].
    destruct Hcases as [(_ & ->)|[(_ & ->)|(range & _ & _ & ->)]].
    - apply getLatestVersions_submseteq.
    - done.
    - apply sublist_submseteq, List_filter_sublist. }
  unfold filterSemanticVersionTags in Hclassified.
  apply list_elem_of_In, filter_In in Hclassified as [Hin Hname].
  split; [by apply isSemanticVersionName_version_like|].
  exists tag. split; [by apply list_elem_of_In|done].
Qed.

Lemma run_versions_are_classified_witness :
  version_like (Semver.cut "-" "1.5.0-alpine").1
  ∧ ∃ tag,
      tag ∈ [ {| name := "latest"; lastUpdated := Some "2024-06-01" |};
              {| name := "1.5.0-alpine"; lastUpdated := Some "2024-01-01" |} ]
      ∧ name tag = "1.5.0-alpine".
Proof.
  refine (run_versions_are_classified "node" EmptyString EmptyString None
            [ {| name := "latest"; lastUpdated := Some "2024-06-01" |};
              {| name := "1.5.0-alpine"; lastUpdated := Some "2024-01-01" |} ]
            _ (matrixEntry "1.5.0-alpine" "node"
                 {| build_name := Some "default";
                    build_dockerfilePath := Some "Dockerfile";
                    build_contextPath := Some ".";
                    build_buildArgs := Some ∅;
                    build_tags := Some ["{version}"; "latest"] |})
            eq_refl _ _).
  - discriminate.
  - by left.
Defined.

(** ** Ranges with pipes *)

(** *** Splitting on the OR operator *)

Lemma split_pipes_cons (c : ascii) (s : string) :
  JsString.split "||" (String c s)
  = if JsString.startsWith (String c s) "||"
    then EmptyString :: JsString.split "||" (JsString.slice_from 1 s)
    else match JsString.split "||" s with
         | seg :: rest => String c seg :: rest
         | [] => [String c EmptyString]
         end.
Proof.
  unfold JsString.split. cbn [JsString.split_aux].
  destruct (JsString.startsWith (String c s) "||") eqn:Hstart.
  - destruct s as [|d s]; [|reflexivity].
    cbn in Hstart. by rewrite andb_false_r in Hstart.
  - by destruct (JsString.split_aux "||" 0 s).
Qed.

Lemma startsWith_pipes_free (c : ascii) (s : string) :
  Ascii.eqb c "|" = false → JsString.startsWith (String c s) "||" = false.
Proof.
  intros Hc. cbn [JsString.startsWith]. by rewrite (ascii_eqb_sym "|" c), Hc.
Qed.

Lemma split_pipes_absent (x : string) :
  Semver.all_chars (λ c, negb (Ascii.eqb c "|")) x = true →
  JsString.split "||" x = [x].
Proof.
  induction x as [|c x IH]; [done|]. cbn [Semver.all_chars].
  intros [Hc Hx]%andb_true_iff. apply negb_true_iff in Hc.
  by rewrite split_pipes_cons, startsWith_pipes_free, (IH Hx).
Qed.

Lemma split_pipes_app (x y : string) :
  Semver.all_chars (λ c, negb (Ascii.eqb c "|")) x = true →
  JsString.split "||" (x +:+ String "|" (String "|" y))
  = x :: JsString.split "||" y.
Proof.
  induction x as [|c x IH]; cbn [Semver.all_chars String.append].
  - intros _. by rewrite split_pipes_cons.
  - intros [Hc Hx]%andb_true_iff. apply negb_true_iff in Hc.
    by rewrite split_pipes_cons, startsWith_pipes_free, (IH Hx).
Qed.

(** *** White space around the segments *)

Lemma white_space_not_pipe (c : ascii) :
  JsString.is_white_space c = true → Ascii.eqb c "|" = false.
Proof. by destruct c as [[] [] [] [] [] [] [] []]. Qed.

Lemma trimStart_white (w s : string) :
  Semver.all_chars JsString.is_white_space w = true →
  JsString.trimStart (w +:+ s) = JsString.trimStart s.
Proof.
  induction w as [|c w IH]; [done|]. cbn [Semver.all_chars String.append].
  intros [Hc Hw]%andb_true_iff. cbn [JsString.trimStart]. by rewrite Hc, IH.
Qed.

Lemma trimEnd_white (w : string) :
  Semver.all_chars JsString.is_white_space w = true →
  JsString.trimEnd w = EmptyString.
Proof.
  induction w as [|c w IH]; [done|]. cbn [Semver.all_chars].
  intros [Hc Hw]%andb_true_iff. cbn [JsString.trimEnd]. by rewrite IH, Hc.
Qed.

Lemma trimEnd_app_white (s w : string) :
  Semver.all_chars JsString.is_white_space w = true →
  JsString.trimEnd (s +:+ w) = JsString.trimEnd s.
Proof.
  intros Hw. induction s as [|c s IH]; [by apply trimEnd_white|].
  cbn [String.append JsString.trimEnd]. by rewrite IH.
Qed.

Lemma trim_app_white (s w : string) :
  Semver.all_chars JsString.is_white_space w = true →
  JsString.trim (s +:+ w) = JsString.trim s.
Proof.
  intros Hw. unfold JsString.trim. induction s as [|c s IH].
  - cbn [String.append]. rewrite <- (append_empty_r w) at 1.
    by rewrite trimStart_white.
  - cbn [String.append JsString.trimStart].
    destruct (JsString.is_white_space c); [done|].
    by apply (trimEnd_app_white (String c s)).
Qed.

Lemma trim_white_app (w s : string) :
  Semver.all_chars JsString.is_white_space w = true →
  JsString.trim (w +:+ s) = JsString.trim s.
Proof. intros Hw. unfold JsString.trim. by rewrite trimStart_white. Qed.

(** A text is its trimmed text with white space around it. *)
Lemma trimStart_split (s : string) :
  ∃ w, Semver.all_chars JsString.is_white_space w = true
       ∧ s = w +:+ JsString.trimStart s.
Proof.
  induction s as [|c s (w & Hw & IH)]; [by exists EmptyString|].
  cbn [JsString.trimStart]. destruct (JsString.is_white_space c) eqn:Hc.
  - exists (String c w). cbn [Semver.all_chars String.append].
    rewrite Hc, Hw. split; [done|]. by rewrite <- IH.
  - by exists EmptyString.
Qed.

Lemma trimEnd_split (s : string) :
  ∃ w, Semver.all_chars JsString.is_white_space w = true
       ∧ s = JsString.trimEnd s +:+ w.
Proof.
  induction s as [|c s (w & Hw & IH)]; [by exists EmptyString|].
  cbn [JsString.trimEnd]. destruct (JsString.trimEnd s) as [|d r] eqn:Hend.
  - cbn [String.append] in IH. subst w.
    destruct (JsString.is_white_space c) eqn:Hc.
    + exists (String c s). cbn [Semver.all_chars]. by rewrite Hc, Hw.
    + by exists s.
  - exists w. split; [done|]. cbn [String.append] in IH |- *. by f_equal.
Qed.

Lemma trim_split (s : string) :
  ∃ w1 w2,
    Semver.all_chars JsString.is_white_space w1 = true
    ∧ Semver.all_chars JsString.is_white_space w2 = true
    ∧ s = w1 +:+ (JsString.trim s +:+ w2).
Proof.
  destruct (trimStart_split s) as (w1 & Hw1 & Hs).
  destruct (trimEnd_split (JsString.trimStart s)) as (w2 & Hw2 & Ht).
  exists w1, w2. split; [done|]. split; [done|].
  unfold JsString.trim. by rewrite <- Ht.
Qed.

Lemma trim_idempotent (s : string) :
  JsString.trim (JsString.trim s) = JsString.trim s.
Proof.
  destruct (trim_split s) as (w1 & w2 & Hw1 & Hw2 & Hs).
  rewrite Hs at 2. by rewrite trim_white_app, trim_app_white.
Qed.

Lemma all_chars_trim (p : ascii → bool) (s : string) :
  Semver.all_chars p s = true → Semver.all_chars p (JsString.trim s) = true.
Proof.
  destruct (trim_split s) as (w1 & w2 & _ & _ & Hs). rewrite Hs at 1.
  rewrite !all_chars_app. by intros [_ [H _]%andb_true_iff]%andb_true_iff.
Qed.

(** White space in front of a text goes to its first segment, white space
    behind it to its last one. *)
Lemma split_pipes_white_app (w s : string) :
  Semver.all_chars JsString.is_white_space w = true →
  JsString.trim <$> JsString.split "||" (w +:+ s)
  = JsString.trim <$> JsString.split "||" s.
Proof.
  induction w as [|c w IH]; [done|]. cbn [Semver.all_chars String.append].
  intros [Hc Hw]%andb_true_iff.
  rewrite split_pipes_cons,
    (startsWith_pipes_free _ _ (white_space_not_pipe _ Hc)).
  rewrite <- (IH Hw).
  destruct (JsString.split "||" (w +:+ s)) as [|seg rest] eqn:Hsplit.
  { by destruct (split_nonempty "||" (w +:+ s)). }
  cbn [fmap list_fmap]. f_equal.
  apply (trim_white_app (String c EmptyString)). cbn. by rewrite Hc.
Qed.

Lemma startsWith_pipe_white (w : string) :
  Semver.all_chars JsString.is_white_space w = true →
  JsString.startsWith w "|" = false.
Proof.
  destruct w as [|c w]; [done|]. cbn [Semver.all_chars JsString.startsWith].
  intros [Hc _]%andb_true_iff.
  by rewrite (ascii_eqb_sym "|" c), (white_space_not_pipe _ Hc).
Qed.

Lemma startsWith_pipes_app_white (s w : string) :
  Semver.all_chars JsString.is_white_space w = true →
  JsString.startsWith (s +:+ w) "||" = JsString.startsWith s "||".
Proof.
  intros Hw. pose proof (startsWith_pipe_white w Hw) as Hone.
  destruct s as [|c [|d s]]; cbn [String.append].
  - destruct w as [|c w]; [done|].
    change (JsString.startsWith (String c w) "||")
      with (Ascii.eqb "|" c && JsString.startsWith w "|").
    change (JsString.startsWith (String c w) "|")
      with (Ascii.eqb "|" c && true) in Hone.
    rewrite andb_true_r in Hone. by rewrite Hone.
  - change (JsString.startsWith (String c w) "||")
      with (Ascii.eqb "|" c && JsString.startsWith w "|").
    rewrite Hone, andb_false_r.
    change (JsString.startsWith (String c EmptyString) "||")
      with (Ascii.eqb "|" c && false).
    by rewrite andb_false_r.
  - reflexivity.
Qed.

Lemma split_pipes_app_white (s w : string) :
  Semver.all_chars JsString.is_white_space w = true →
  JsString.trim <$> JsString.split "||" (s +:+ w)
  = JsString.trim <$> JsString.split "||" s.
Proof.
  intros Hw.
  assert (Hfree : Semver.all_chars (λ c, negb (Ascii.eqb c "|")) w = true).
  { eapply all_chars_impl; [|done]. intros c Hc.
    by rewrite (white_space_not_pipe _ Hc). }
  assert (H : ∀ n s, (String.length s ≤ n)%nat →
    ∃ init last,
      JsString.split "||" s = init ++ [last]
      ∧ JsString.split "||" (s +:+ w) = init ++ [last +:+ w]).
  { clear s. induction n as [|n IH]; intros s Hn.
    - destruct s; [|simpl in Hn; lia]. exists [], EmptyString.
      split; [done|]. by apply split_pipes_absent.
    - destruct s as [|c s].
      { exists [], EmptyString. split; [done|]. by apply split_pipes_absent. }
      change (String c s +:+ w) with (String c (s +:+ w)).
      rewrite !split_pipes_cons.
      change (String c (s +:+ w)) with (String c s +:+ w).
      rewrite startsWith_pipes_app_white by done.
      destruct (JsString.startsWith (String c s) "||") eqn:Hstart.
      + destruct s as [|d s].
        { cbn in Hstart. by rewrite andb_false_r in Hstart. }
        cbn [String.append JsString.slice_from].
        destruct (IH s) as (init & last & -> & ->); [simpl in Hn; lia|].
        by exists (EmptyString :: init), last.
      + destruct (IH s) as (init & last & -> & ->); [simpl in Hn; lia|].
        destruct init as [|seg init]; cbn [app].
        * by exists [], (String c last).
        * by exists (String c seg :: init), last. }
  destruct (H (String.length s) s ltac:(lia)) as (init & last & -> & ->).
  rewrite !fmap_app. cbn [fmap list_fmap]. by rewrite trim_app_white.
Qed.

(** Trimming the whole range first does not change its trimmed
    [||]-branches. *)
Lemma split_pipes_trim (s : string) :
  JsString.trim <$> JsString.split "||" (JsString.trim s)
  = JsString.trim <$> JsString.split "||" s.
Proof.
  destruct (trim_split s) as (w1 & w2 & Hw1 & Hw2 & Hs). rewrite Hs at 2.
  by rewrite split_pipes_white_app, split_pipes_app_white.
Qed.

(** The [||]-branches of segments joined by the OR operator are the
    segments. *)
Lemma split_pipes_join (parts : list string) :
  parts ≠ [] →
  Forall (λ part, Semver.all_chars (λ c, negb (Ascii.eqb c "|")) part = true)
    parts →
  JsString.trim <$> JsString.split "||" (JsString.join " || " parts)
  = JsString.trim <$> parts.
Proof.
  intros Hne Hfree. induction Hfree as [|part parts Hpart Hfree IH]; [done|].
  destruct parts as [|next parts].
  { cbn [JsString.join]. by rewrite split_pipes_absent. }
  change (JsString.join " || " (part :: next :: parts))
    with (part +:+ String " " (String "|" (String "|"
            (String " " (JsString.join " || " (next :: parts)))))).
  replace (part +:+ String " " (String "|" (String "|"
             (String " " (JsString.join " || " (next :: parts))))))
    with ((part +:+ " ") +:+ String "|" (String "|"
            (String " " (JsString.join " || " (next :: parts)))))
    by (by rewrite append_assoc).
  rewrite split_pipes_app.
  2:{ rewrite all_chars_app, Hpart. reflexivity. }
  cbn [fmap list_fmap]. f_equal; [by apply trim_app_white|].
  etrans; [|by apply IH].
  exact (split_pipes_white_app " " (JsString.join " || " (next :: parts))
           eq_refl).
Qed.

Lemma includes_char_all_chars (c : ascii) (s : string) :
  JsString.includes_char c s = false →
  Semver.all_chars (λ x, negb (Ascii.eqb x c)) s = true.
Proof.
  induction s as [|a s IH]; [done|]. cbn [JsString.includes_char Semver.all_chars].
  intros [Ha Hs]%orb_false_iff. by rewrite Ha, IH.
Qed.

(** The segments between the pipes, trimmed, are the [||]-branches that
    the range constructor reads from the rewritten range. *)
Lemma parseRange_pipe_delimited (range : string) :
  JsString.includes_char "|" range = true →
  Semver.parseRange (parsePipeDelimitedRange range)
  = Semver.parseSets (JsString.trim <$> JsString.split "|" range).
Proof.
  intros Hpipe. unfold parsePipeDelimitedRange, Semver.parseRange.
  rewrite Hpipe. cbn [negb]. rewrite split_pipes_trim, split_pipes_join.
  - rewrite <- list_fmap_compose. f_equal. apply list_fmap_ext.
    intros i seg _. apply trim_idempotent.
  - destruct (JsString.split "|" range) eqn:Hs; [|done].
    by destruct (split_nonempty "|" range).
  - apply Forall_fmap.
    change "|"%string with (String "|"%char EmptyString).
    eapply Forall_impl; [apply split_char_free|].
    intros seg Hseg. cbn. by apply all_chars_trim, includes_char_all_chars.
Qed.

Lemma parseRange_segment (seg : string) :
  JsString.includes_char "|" seg = false →
  Semver.parseRange seg = (λ set, [set]) <$> Semver.parseSet (JsString.trim seg).
Proof.
  intros Hfree. unfold Semver.parseRange.
  rewrite split_pipes_trim, split_pipes_absent
    by (by apply includes_char_all_chars).
  cbn. by destruct (Semver.parseSet (JsString.trim seg)).
Qed.

Lemma parseSets_mapM (branches : list string) :
  Semver.parseSets branches = mapM Semver.parseSet branches.
Proof.
  induction branches as [|b bs IH]; [done|].
  cbn [Semver.parseSets]. rewrite IH. reflexivity.
Qed.

Lemma satisfies_branches (branches : list string) (version : string) :
  match Semver.parseSets branches with
  | Some sets =>
      match Semver.parse version with
      | Some v => existsb (λ set, Semver.testSet set v) sets
      | None => false
      end
  | None => false
  end = true
  ↔ (∀ branch, branch ∈ branches → is_Some (Semver.parseSet branch))
    ∧ ∃ branch set v,
        branch ∈ branches ∧ Semver.parseSet branch = Some set
        ∧ Semver.parse version = Some v ∧ Semver.testSet set v = true.
Proof.
  rewrite parseSets_mapM. split.
  - destruct (mapM Semver.parseSet branches) as [sets|] eqn:Hsets; [|done].
    destruct (Semver.parse version) as [v|]; [|done].
    intros (set & Hset%list_elem_of_In & Htest)%existsb_exists.
    split.
    + apply Forall_forall, mapM_is_Some. by eexists.
    + apply mapM_Some in Hsets.
      apply list_elem_of_lookup_1 in Hset as [i Hi].
      destruct (Forall2_lookup_r _ _ _ _ _ Hsets Hi) as (branch & Hb & Hparse).
      exists branch, set, v. split; [by eapply list_elem_of_lookup_2|done].
  - intros (Hall & branch & set & v & Hin & Hparse & -> & Htest).
    apply Forall_forall in Hall. apply mapM_is_Some in Hall as [sets Hsets].
    rewrite Hsets. apply mapM_Some in Hsets.
    apply list_elem_of_lookup_1 in Hin as [i Hi].
    destruct (Forall2_lookup_l _ _ _ _ _ Hsets Hi) as (set' & Hset' & Hparse').
    apply existsb_exists. exists set. split; [|done].
    apply list_elem_of_In. eapply list_elem_of_lookup_2.
    rewrite Hset'. congruence.
Qed.

Lemma satisfies_segment (seg version : string) :
  JsString.includes_char "|" seg = false →
  Semver.satisfies version seg = true
  ↔ ∃ set v,
      Semver.parseSet (JsString.trim seg) = Some set
      ∧ Semver.parse version = Some v ∧ Semver.testSet set v = true.
Proof.
  intros Hfree. unfold Semver.satisfies. rewrite parseRange_segment by done.
  destruct (Semver.parseSet (JsString.trim seg)) as [set|]; cbn.
  - destruct (Semver.parse version) as [v|].
    + rewrite orb_false_r. split; [by exists set, v|].
      by intros (? & ? & [= <-] & [= <-] & ?).
    + split; [done|]. by intros (? & ? & _ & [=] & _).
  - split; [done|]. by intros (? & ? & [=] & _).
Qed.

(** The rewritten range admits a version exactly when all segments are
    valid ranges and one of them admits the version. *)
Lemma satisfies_pipe_delimited (range version : string) :
  JsString.includes_char "|" range = true →
  Semver.satisfies version (parsePipeDelimitedRange range) = true
  ↔ (∀ seg, seg ∈ JsString.split "|" range →
            is_Some (Semver.parseRange seg))
    ∧ ∃ seg, seg ∈ JsString.split "|" range
             ∧ Semver.satisfies version seg = true.
Proof.
  intros Hpipe. unfold Semver.satisfies at 1.
  rewrite parseRange_pipe_delimited, satisfies_branches by done.
  assert (Hfree : ∀ seg, seg ∈ JsString.split "|" range →
                         JsString.includes_char "|" seg = false).
  { apply Forall_forall.
    change "|"%string with (String "|"%char EmptyString).
    apply split_char_free. }
  split.
  - intros (Hall & branch & set & v & Hin & Hparse & Hv & Htest). split.
    + intros seg Hseg. rewrite parseRange_segment by by apply Hfree.
      destruct (Hall (JsString.trim seg)) as [set' ->]; [|by eexists].
      apply list_elem_of_fmap. by exists seg.
    + apply list_elem_of_fmap in Hin as (seg & -> & Hseg).
      exists seg. split; [done|].
      apply satisfies_segment; [by apply Hfree|]. by exists set, v.
  - intros (Hall & seg & Hseg & Hsat).
    apply satisfies_segment in Hsat as (set & v & Hparse & Hv & Htest);
      [|by apply Hfree].
    split.
    + intros branch (seg' & -> & Hseg')%list_elem_of_fmap.
      specialize (Hall seg' Hseg').
      rewrite parseRange_segment in Hall by by apply Hfree.
      destruct (Semver.parseSet (JsString.trim seg')); [by eexists|].
      by destruct Hall.
    + exists (JsString.trim seg), set, v. split; [|done].
      apply list_elem_of_fmap. by exists seg.
Qed.

(** X21 — With a range that contains pipes and whose segments between
    the pipes are made of plain comparators separated by spaces (an
    operator or none, directly followed by one to three numbers or
    wildcards), the semver selection is the union of the selections of the
    segments, provided every segment is a valid range; one segment that is
    not, because a bound would exceed the largest safe integer, leaves the
    selection empty. *)
Theorem pipe_range_selects_union_of_valid_segments
    (tags : list DockerTag) (range : string) (tag : DockerTag) :
  JsString.includes_char "|" range = true →
  (∀ seg, seg ∈ JsString.split "|" range → plain_range seg = true) →
  tag ∈ filterBySemverRange tags (parsePipeDelimitedRange range)
  ↔ (∀ seg, seg ∈ JsString.split "|" range →
            is_Some (Semver.parseRange seg))
    ∧ ∃ seg, seg ∈ JsString.split "|" range
             ∧ tag ∈ filterBySemverRange tags seg.
Proof.
  intros Hpipe _. rewrite filterBySemverRange_elem, satisfies_pipe_delimited
    by done.
  setoid_rewrite filterBySemverRange_elem. split.
  - intros (Hin & Hvalid & Hall & seg & Hseg & Hsat).
    split; [done|]. by exists seg.
  - intros (Hall & seg & Hseg & Hin & Hvalid & Hsat).
    do 3 (split; [done|]). by exists seg.
Qed.

Lemma pipe_range_selects_union_of_valid_segments_witness :
  {| name := "20.11.0"; lastUpdated := None |}
    ∈ filterBySemverRange
        [ {| name := "19.0.0"; lastUpdated := None |};
          {| name := "20.11.0"; lastUpdated := None |} ]
        (parsePipeDelimitedRange "^18 | ^20 | ^22")
  ↔ (∀ seg, seg ∈ JsString.split "|" "^18 | ^20 | ^22" →
            is_Some (Semver.parseRange seg))
    ∧ ∃ seg, seg ∈ JsString.split "|" "^18 | ^20 | ^22"
             ∧ {| name := "20.11.0"; lastUpdated := None |}
               ∈ filterBySemverRange
                   [ {| name := "19.0.0"; lastUpdated := None |};
                     {| name := "20.11.0"; lastUpdated := None |} ] seg.
Proof.
  apply (pipe_range_selects_union_of_valid_segments _ "^18 | ^20 | ^22");
    [reflexivity|].
  intros seg Hseg.
  repeat (apply elem_of_cons in Hseg as [->|Hseg]; [reflexivity|]).
  by apply elem_of_nil in Hseg.
Defined.

(** X22 — In a range whose segments between the pipes are made of plain
    comparators separated by spaces, a segment that is empty or only
    spaces stands for every version: when all segments are valid ranges,
    the selection takes every tag whose normalized name is a version
    without prerelease part.  So the OR operator of [semver] itself,
    written [^1 || ^2] in the range, does not select the union of ^1 and
    ^2 but every version. *)
Theorem empty_pipe_segment_selects_every_version
    (tags : list DockerTag) (range : string) (tag : DockerTag)
    (v : Semver.SemVer) :
  JsString.includes_char "|" range = true →
  (∀ seg, seg ∈ JsString.split "|" range → plain_range seg = true) →
  (∃ seg, seg ∈ JsString.split "|" range ∧ JsString.trim seg = EmptyString) →
  (∀ seg, seg ∈ JsString.split "|" range → is_Some (Semver.parseRange seg)) →
  tag ∈ tags →
  Semver.parse (cleanVersionString (name tag)) = Some v →
  Semver.prerelease v = [] →
  tag ∈ filterBySemverRange tags (parsePipeDelimitedRange range).
Proof.
  intros Hpipe _ (seg & Hseg & Hempty) Hall Htag Hv Hpre.
  apply filterBySemverRange_elem. split; [done|]. split.
  { unfold Semver.valid. rewrite Hv. by eexists. }
  apply satisfies_pipe_delimited; [done|]. split; [done|].
  exists seg. split; [done|].
  apply satisfies_segment.
  - assert (Hfree : Forall (λ seg, JsString.includes_char "|" seg = false)
                      (JsString.split "|" range)).
    { change "|"%string with (String "|"%char EmptyString).
      apply split_char_free. }
    by eapply Forall_forall in Hfree.
  - rewrite Hempty. exists [Semver.Any], v. split; [done|]. split; [done|].
    unfold Semver.testSet. by rewrite Hpre.
Qed.

Lemma empty_pipe_segment_selects_every_version_witness :
  {| name := "3.1.0"; lastUpdated := None |}
    ∈ filterBySemverRange
        [ {| name := "1.0.0"; lastUpdated := None |};
          {| name := "3.1.0"; lastUpdated := None |} ]
        (parsePipeDelimitedRange "^1 || ^2").
Proof.
  apply (empty_pipe_segment_selects_every_version _ "^1 || ^2" _
           {| Semver.major := 3; Semver.minor := 1; Semver.patch := 0;
              Semver.prerelease := [] |}); try reflexivity.
  - intros seg Hseg.
    repeat (apply elem_of_cons in Hseg as [->|Hseg]; [reflexivity|]).
    by apply elem_of_nil in Hseg.
  - exists EmptyString. split; [|reflexivity].
    apply elem_of_cons. right. apply elem_of_cons. by left.
  - intros seg Hseg.
    repeat (apply elem_of_cons in Hseg as [->|Hseg]; [by vm_compute; eexists|]).
    by apply elem_of_nil in Hseg.
  - apply elem_of_cons. right. apply elem_of_cons. by left.
Defined.

(** ** Numbers that are not version components *)

Lemma tag_char_not_space (c : ascii) :
  tag_char c = true → negb (JsString.is_white_space c) = true.
Proof. by destruct c as [[] [] [] [] [] [] [] []]. Qed.

Lemma tag_char_not_plus (c : ascii) :
  tag_char c = true → negb (Ascii.eqb c "+") = true.
Proof. by destruct c as [[] [] [] [] [] [] [] []]. Qed.

Lemma digit_or_dot_tag_char (c : ascii) :
  digit_or_dot c = true → tag_char c = true.
Proof. by destruct c as [[] [] [] [] [] [] [] []]. Qed.

(** [parse] on a tag name without [v] in front: the text before the first
    hyphen has to be three numeric components. *)
Lemma parse_tag_name_None (s core : string) (pre : option string) :
  Semver.all_chars tag_char s = true →
  JsString.startsWith s "v" = false →
  Semver.cut "-" s = (core, pre) →
  (∀ a b c, JsString.split "." core = [a; b; c] →
            Semver.component a = None ∨ Semver.component b = None
            ∨ Semver.component c = None) →
  Semver.parse s = None.
Proof.
  intros Hs Hv Hcut Hcore. unfold Semver.parse.
  destruct (Semver.MAX_LENGTH <? String.length s)%nat; [done|].
  rewrite trim_id
    by (by apply (all_chars_impl tag_char), Hs; apply tag_char_not_space).
  rewrite Hv.
  rewrite cut_absent
    by (by apply (all_chars_impl tag_char), Hs; apply tag_char_not_plus).
  rewrite Hcut.
  destruct (JsString.split "." core) as [|a [|b [|c [|d l]]]] eqn:Hsplit;
    try done; try (by destruct pre; [destruct (forallb _ _)|]).
  destruct (Hcore a b c eq_refl) as [->|[->| ->]].
  - by destruct pre; [destruct (forallb _ _)|].
  - destruct pre; [destruct (forallb _ _)|]; try done;
      by destruct (Semver.component a).
  - destruct pre; [destruct (forallb _ _)|]; try done;
      by destruct (Semver.component a), (Semver.component b).
Qed.

Lemma digits_1_16_digit_or_dot (d : string) :
  digits_1_16 d → Semver.all_chars digit_or_dot d = true.
Proof.
  intros [Hd _]. eapply all_chars_impl; [|done].
  intros c Hc. unfold digit_or_dot. by rewrite Hc.
Qed.

Lemma join_dots_digit_or_dot (nums : list string) :
  Forall digits_1_16 nums →
  Semver.all_chars digit_or_dot (JsString.join "." nums) = true.
Proof.
  induction 1 as [|d nums Hd Hnums IH]; [done|].
  destruct nums as [|e nums]; [by apply digits_1_16_digit_or_dot|].
  change (JsString.join "." (d :: e :: nums))
    with (d +:+ String "." (JsString.join "." (e :: nums))).
  rewrite all_chars_app. cbn [Semver.all_chars].
  by rewrite IH, digits_1_16_digit_or_dot.
Qed.

Lemma split_join_dots (nums : list string) :
  nums ≠ [] → Forall digits_1_16 nums →
  JsString.split "." (JsString.join "." nums) = nums.
Proof.
  intros Hne Hnums. induction Hnums as [|d nums [Hd _] Hnums IH]; [done|].
  assert (Hfree : Semver.all_chars (λ x, negb (Ascii.eqb x ".")) d = true).
  { by apply (all_chars_impl Regex.digit), Hd; apply digit_not_dot. }
  change "."%string with (String "."%char EmptyString).
  destruct nums as [|e nums]; [by apply split_char_absent|].
  change (JsString.join (String "." EmptyString) (d :: e :: nums))
    with (d +:+ String "." (JsString.join "." (e :: nums))).
  rewrite split_char_app by done. f_equal. by apply IH.
Qed.

Lemma join_dots_starts_with_digit (nums : list string) (rest : string) :
  nums ≠ [] → Forall digits_1_16 nums →
  JsString.startsWith (JsString.join "." nums +:+ rest) "v" = false.
Proof.
  intros Hne Hnums. destruct Hnums as [|d nums [Hd [Hlen _]] Hnums]; [done|].
  destruct nums as [|e nums]; [by apply startsWith_v_digits|].
  change (JsString.join "." (d :: e :: nums))
    with (d +:+ String "." (JsString.join "." (e :: nums))).
  rewrite append_assoc. by apply startsWith_v_digits.
Qed.

(** [coerce] on a tag name that begins with one, two or three numbers:
    the strict reading of the three numbers, zero for a missing one. *)
Lemma coerce_dotted (nums : list string) (rest : string) :
  (1 ≤ length nums ≤ 3)%nat → Forall digits_1_16 nums →
  starts_with_class Regex.digit rest = false →
  no_dot_digit rest = true →
  Semver.coerce (JsString.join "." nums +:+ rest)
  = Semver.parse
      (JsString.join "." (nums ++ replicate (3 - length nums) "0"%string)).
Proof.
  intros Hlen Hnums Hrest Hdot. unfold Semver.coerce.
  destruct nums as [|a [|b [|c [|d nums]]]]; try (simpl in Hlen; lia).
  - apply Forall_cons in Hnums as [Ha _].
    rewrite (exec_COERCE_at_start _ [(2%nat, a); (1%nat, EmptyString)]);
      [done|]. by apply rmatch_coerce_tail_one.
  - apply Forall_cons in Hnums as [Ha [Hb _]%Forall_cons].
    change (JsString.join "." [a; b]) with (a +:+ String "." b).
    rewrite append_assoc. cbn [String.append].
    rewrite (exec_COERCE_at_start _
               [(3%nat, b); (2%nat, a); (1%nat, EmptyString)]);
      [done|]. by apply rmatch_coerce_tail_two.
  - apply Forall_cons in Hnums as [Ha [Hb [Hc _]%Forall_cons]%Forall_cons].
    change (JsString.join "." [a; b; c])
      with (a +:+ String "." (b +:+ String "." c)).
    rewrite append_assoc. cbn [String.append].
    rewrite append_assoc. cbn [String.append].
    rewrite (exec_COERCE_at_start _
               [(4%nat, c); (3%nat, b); (2%nat, a); (1%nat, EmptyString)]);
      [done|]. by apply rmatch_coerce_tail_three.
Qed.

Lemma component_None_among (nums : list string) (x a b c : string) :
  x ∈ nums → Semver.component x = None → nums = [a; b; c] →
  Semver.component a = None ∨ Semver.component b = None
  ∨ Semver.component c = None.
Proof.
  intros Hx Hnone ->. rewrite !elem_of_cons, elem_of_nil in Hx.
  destruct Hx as [->|[->|[->|[]]]]; auto.
Qed.

(** A name of dotted numbers of which one is not a numeric component is
    not a version, whatever follows its first hyphen. *)
Lemma parse_dotted_None (nums : list string) (rest : string) (x : string) :
  nums ≠ [] → Forall digits_1_16 nums →
  rest = EmptyString
  ∨ (∃ suffix, rest = String "-" suffix
               ∧ Semver.all_chars tag_char suffix = true) →
  (length nums = 3%nat → x ∈ nums ∧ Semver.component x = None) →
  Semver.parse (JsString.join "." nums +:+ rest) = None.
Proof.
  intros Hne Hnums Hrest Hx.
  pose proof (join_dots_digit_or_dot nums Hnums) as Hcore.
  assert (Hdash : Semver.all_chars (λ c, negb (Ascii.eqb c "-"))
                    (JsString.join "." nums) = true).
  { by apply (all_chars_impl digit_or_dot), Hcore;
      apply digit_or_dot_not_dash. }
  assert (Hcut : ∃ pre, Semver.cut "-" (JsString.join "." nums +:+ rest)
                        = (JsString.join "." nums, pre)).
  { destruct Hrest as [->|(suffix & -> & _)].
    - exists None. rewrite append_empty_r. by apply cut_absent.
    - exists (Some suffix). by apply cut_app. }
  destruct Hcut as [pre Hcut].
  eapply parse_tag_name_None; [| |exact Hcut|].
  - rewrite all_chars_app.
    rewrite (all_chars_impl digit_or_dot tag_char _ digit_or_dot_tag_char Hcore).
    by destruct Hrest as [->|(suffix & -> & Hsuffix)].
  - by apply join_dots_starts_with_digit.
  - intros a b c Hsplit. rewrite split_join_dots in Hsplit by done.
    destruct Hx as [Hx Hnone]; [by rewrite Hsplit|].
    by eapply component_None_among.
Qed.

(** X23 — A tag name that begins with one, two or three dotted numbers
    (with or without a v in front, alone or followed by a hyphen and a
    suffix) of which one is not a numeric component of a version, because
    it has a leading zero or is above the largest safe integer, has no
    valid normalized version: the semver strategy never selects the tag,
    whatever the range is.  So tags such as 22.04 or 2024.01.15 cannot be
    selected by a range. *)
Theorem tag_with_invalid_number_never_selected
    (tags : list DockerTag) (range : string) (tag : DockerTag)
    (nums : list string) (rest x : string) :
  name tag = JsString.join "." nums +:+ rest
  ∨ name tag = String "v" (JsString.join "." nums +:+ rest) →
  (1 ≤ length nums ≤ 3)%nat →
  Forall digits_1_16 nums →
  rest = EmptyString
  ∨ (∃ suffix, rest = String "-" suffix
               ∧ Semver.all_chars tag_char suffix = true) →
  x ∈ nums → Semver.component x = None →
  Semver.valid (cleanVersionString (name tag)) = None
  ∧ tag ∉ filterBySemverRange tags range.
Proof.
  intros Hname Hlen Hnums Hrest Hx Hnone.
  assert (Hne : nums ≠ []) by (destruct nums; [simpl in Hlen; lia|done]).
  assert (Hvalid : Semver.valid (cleanVersionString (name tag)) = None).
  { assert (Hclean : cleanVersionString (name tag)
                     = JsString.join "." nums +:+ rest).
    { unfold cleanVersionString.
      assert ((if JsString.startsWith (name tag) "v"
               then JsString.slice_from 1 (name tag) else name tag)
              = JsString.join "." nums +:+ rest) as ->.
      { destruct Hname as [->| ->]; [|done].
        by rewrite join_dots_starts_with_digit. }
      rewrite coerce_dotted; try done.
      - rewrite <- (append_empty_r (JsString.join "." (nums ++ _))).
        rewrite (parse_dotted_None _ EmptyString x); try done.
        + by destruct nums.
        + apply Forall_app. split; [done|].
          apply Forall_replicate.
          unfold digits_1_16, Semver.MAX_SAFE_COMPONENT_LENGTH. simpl.
          split; [done|lia].
        + by left.
        + intros _. split; [|done]. apply elem_of_app. by left.
      - by destruct Hrest as [->|(suffix & -> & _)].
      - by destruct Hrest as [->|(suffix & -> & _)]. }
    rewrite Hclean. unfold Semver.valid.
    by rewrite (parse_dotted_None nums rest x). }
  split; [done|].
  intros (_ & [normalized Hsome] & _)%filterBySemverRange_elem.
  congruence.
Qed.

Lemma tag_with_invalid_number_never_selected_witness :
  Semver.valid (cleanVersionString "22.04") = None
  ∧ {| name := "22.04"; lastUpdated := None |}
    ∉ filterBySemverRange
        [ {| name := "20.04"; lastUpdated := None |};
          {| name := "22.04"; lastUpdated := None |} ] "*".
Proof.
  apply (tag_with_invalid_number_never_selected _ "*"
           {| name := "22.04"; lastUpdated := None |}
           ["22"; "04"] EmptyString "04").
  - by left.
  - simpl. lia.
  - repeat constructor; unfold Semver.MAX_SAFE_COMPONENT_LENGTH; simpl; lia.
  - by left.
  - apply elem_of_cons. right. by left.
  - reflexivity.
Defined.
